(** * Constrained dynamics of RBDL-ORB: a shallow embedding of [src/Constraints.cc]

    The development follows the source file top to bottom: the constraint
    registry ([ConstraintSet]) and its registration calls, [Bind] and [clear],
    the three linear solve strategies, the assembly of the constrained system,
    the assembly projection [CalcAssemblyQ], and the forward-dynamics and
    impulse entry points.

    Conventions.
    - A C++ [double] is a carrier [R] with the operations of class [Scalar]
      (and [ScalarOrd] where the code compares or takes norms).  The code is
      embedded once, for every carrier; it is run on IEEE binary64 numbers
      ([float]) and, for the algebra of the solvers, on rationals ([Q]).
    - [Run A] is the outcome of a call: it returns, the process is terminated
      ([abort()], a failed [assert]), or the behaviour is undefined (an index
      out of range with the checks compiled out).
    - [assert] is compiled out when [NDEBUG] is defined; the build is a
      parameter ([Build]).
    - Writes to the [LOG] stream have no effect on the state or on the control
      flow and are left out.
    - Element access ([v[i]], [M(i,j)] through a loop index) carries the
      backend's index check.  The size checks inside whole-matrix expressions
      and block assignments are not modelled: the theorems state the sizes
      they rely on. *)

From Stdlib Require Import String List ZArith QArith Lia Lqa Bool PrimFloat.
From ExtLib Require Import Structures.Monad.
Import ListNotations MonadNotation.
Local Open Scope monad_scope.
Local Open Scope nat_scope.

Set Implicit Arguments.

(* ===================================================================== *)
(** ** Outcomes of a call *)
(* ===================================================================== *)

(** How the library was compiled: [NDEBUG] removes every [assert] (Eigen's
    index and size checks are asserts too); [RBDL_USE_SIMPLE_MATH] selects the
    reduced math backend, which has no LU decomposition. *)
Record Build : Type := {
  NDEBUG : bool;
  RBDL_USE_SIMPLE_MATH : bool
}.

(** [Done a]: the call returns [a].  [Aborted text]: the process was
    terminated; [text] is what reached [std::cerr] before.  [Undefined]: the
    call left defined behaviour. *)
Inductive Run (A : Type) : Type :=
| Done (a : A)
| Aborted (text : list string)
| Undefined.
Arguments Done {A} a.
Arguments Aborted {A} text.
Arguments Undefined {A}.

#[export] Instance Monad_Run : Monad Run := {|
  ret := fun _ a => Done a;
  bind := fun _ _ c k =>
    match c with
    | Done a => k a
    | Aborted e => Aborted e
    | Undefined => Undefined
    end
|}.

Definition assertion_failed : string := "Assertion failed".

(** [assert (cond)] *)
Definition assert_ (bc : Build) (cond : bool) : Run unit :=
  if NDEBUG bc then Done tt
  else if cond then Done tt else Aborted [assertion_failed].

(** [abort()] *)
Definition abort_ {A : Type} : Run A := Aborted [].

(** [std::cerr << msg << std::endl; k] where [k] goes on to terminate. *)
Definition cerr {A : Type} (msg : string) (k : Run A) : Run A :=
  match k with
  | Aborted e => Aborted (msg :: e)
  | r => r
  end.

(** An index or size check of the math backend ([eigen_assert]): a failed
    check aborts when asserts are compiled in and is undefined otherwise. *)
Definition eigen_assert (bc : Build) (cond : bool) : Run unit :=
  if cond then Done tt
  else if NDEBUG bc then Undefined else Aborted [assertion_failed].

(** [returns r]: the call came back to its caller. *)
Definition returns {A : Type} (r : Run A) : Prop := exists a, r = Done a.

(** [fatal r]: the process was terminated with a report on [std::cerr]. *)
Definition fatal {A : Type} (r : Run A) : Prop :=
  exists msg rest, r = Aborted (msg :: rest).

(** [for (i = 0; i < n; ++i) body], threading the state [s]. *)
Fixpoint for_from {S : Type} (i n : nat) (body : nat -> S -> Run S) (s : S)
  : Run S :=
  match n with
  | 0 => Done s
  | Datatypes.S n' => s' <- body i s ;; for_from (Datatypes.S i) n' body s'
  end.

Definition for_ {S : Type} (n : nat) (body : nat -> S -> Run S) (s : S)
  : Run S := for_from 0 n body s.

(* ===================================================================== *)
(** ** Scalars, vectors and matrices of the math backend *)
(* ===================================================================== *)

(** Arithmetic of the scalar type. *)
Class Scalar (R : Type) : Type := {
  zero : R;
  one : R;
  add : R -> R -> R;
  sub : R -> R -> R;
  mul : R -> R -> R;
  opp : R -> R
}.

(** Comparison, [fabs], [sqrt], the machine epsilon
    ([std::numeric_limits<double>::epsilon()]) and integer literals. *)
Class ScalarOrd (R : Type) : Type := {
  ltb : R -> R -> bool;
  fabs : R -> R;
  sqrt : R -> R;
  epsilon : R;
  of_nat : nat -> R
}.

Section Math.
Context {R : Type} {SR : Scalar R}.

(** *** Dynamic and fixed-size vectors: the list of their coefficients *)

Definition VectorNd : Type := list R.
Definition Vector3d : Type := list R.
Definition SpatialVector : Type := list R.

Definition VectorNd_Zero (n : nat) : VectorNd := repeat zero n.
Definition Vector3d_Zero : Vector3d := [zero; zero; zero].
Definition SpatialVector_Zero : SpatialVector :=
  [zero; zero; zero; zero; zero; zero].

(** [v.setZero()] keeps the size. *)
Definition setZero (v : list R) : list R := repeat zero (length v).

Fixpoint zipWith (f : R -> R -> R) (u v : list R) : list R :=
  match u, v with
  | a :: u', c :: v' => f a c :: zipWith f u' v'
  | _, _ => []
  end.

Definition vadd (u v : list R) : list R := zipWith add u v.
Definition vsub (u v : list R) : list R := zipWith sub u v.
Definition vopp (u : list R) : list R := map opp u.
Definition vsum (u : list R) : R := fold_left add u zero.
Definition dot (u v : list R) : R := vsum (zipWith mul u v).
Definition squaredNorm (u : list R) : R := dot u u.

(** [v.conservativeResize(n)]: the first coefficients are kept, new ones are
    not initialised ([uninit] stands for what the memory holds). *)
Definition conservativeResize (uninit : R) (v : VectorNd) (n : nat)
  : VectorNd := firstn n v ++ repeat uninit (n - length v).

(** [v.resize(n)]: nothing happens when the size is already [n]; otherwise the
    coefficients are not initialised. *)
Definition resize (uninit : R) (v : VectorNd) (n : nat) : VectorNd :=
  if length v =? n then v else repeat uninit n.

(** [l[i] = a] on a list that is known to be long enough. *)
Fixpoint set_nth {T : Type} (l : list T) (i : nat) (a : T) : list T :=
  match l, i with
  | [], _ => []
  | _ :: l', 0 => a :: l'
  | c :: l', S i' => c :: set_nth l' i' a
  end.

(** *** Matrices: the dimensions and the coefficient at (row, column) *)

Record MatrixNd : Type := {
  rows : nat;
  cols : nat;
  coeff : nat -> nat -> R
}.
Definition Matrix3d : Type := MatrixNd.
Definition SpatialMatrix : Type := MatrixNd.

Definition MatrixNd_Zero (r c : nat) : MatrixNd :=
  {| rows := r; cols := c; coeff := fun _ _ => zero |}.

Definition MatrixNd_Identity (n : nat) : MatrixNd :=
  {| rows := n; cols := n; coeff := fun i j => if i =? j then one else zero |}.

Definition Matrix3d_Identity : Matrix3d := MatrixNd_Identity 3.
Definition SpatialMatrix_Identity : SpatialMatrix := MatrixNd_Identity 6.

(** [M.setZero()] *)
Definition msetZero (M : MatrixNd) : MatrixNd :=
  {| rows := rows M; cols := cols M; coeff := fun _ _ => zero |}.

(** [M.conservativeResize(r, c)] *)
Definition mconservativeResize (uninit : R) (M : MatrixNd) (r c : nat)
  : MatrixNd :=
  {| rows := r; cols := c;
     coeff := fun i j =>
       if (i <? rows M) && (j <? cols M) then coeff M i j else uninit |}.

(** [M.resize(r, c)] *)
Definition mresize (uninit : R) (M : MatrixNd) (r c : nat) : MatrixNd :=
  if (rows M =? r) && (cols M =? c) then M
  else {| rows := r; cols := c; coeff := fun _ _ => uninit |}.

Definition transpose (M : MatrixNd) : MatrixNd :=
  {| rows := cols M; cols := rows M; coeff := fun i j => coeff M j i |}.

(** [M.block(i0, j0, r, c)] read as a matrix of its own. *)
Definition block (M : MatrixNd) (i0 j0 r c : nat) : MatrixNd :=
  {| rows := r; cols := c; coeff := fun i j => coeff M (i0 + i) (j0 + j) |}.

(** [M.block(i0, j0, r, c) = B] *)
Definition set_block (M : MatrixNd) (i0 j0 r c : nat) (B : MatrixNd)
  : MatrixNd :=
  {| rows := rows M; cols := cols M;
     coeff := fun i j =>
       if (i0 <=? i) && (i <? i0 + r) && (j0 <=? j) && (j <? j0 + c)
       then coeff B (i - i0) (j - j0) else coeff M i j |}.

(** [M(i, j) = a] *)
Definition set_coeff (M : MatrixNd) (i j : nat) (a : R) : MatrixNd :=
  {| rows := rows M; cols := cols M;
     coeff := fun i' j' =>
       if (i' =? i) && (j' =? j) then a else coeff M i' j' |}.

Definition row_of (M : MatrixNd) (i : nat) : list R :=
  map (coeff M i) (seq 0 (cols M)).

Definition col_of (M : MatrixNd) (j : nat) : list R :=
  map (fun i => coeff M i j) (seq 0 (rows M)).

(** The coefficients, row by row. *)
Definition to_rows (M : MatrixNd) : list (list R) :=
  map (row_of M) (seq 0 (rows M)).

Definition of_rows (l : list (list R)) : MatrixNd :=
  {| rows := length l;
     cols := match l with [] => 0 | r :: _ => length r end;
     coeff := fun i j => nth j (nth i l []) zero |}.

(** A vector as a one-column matrix ([b.block(i, 0, n, 1)]) and back. *)
Definition of_col (v : VectorNd) : MatrixNd :=
  {| rows := length v; cols := 1; coeff := fun i _ => nth i v zero |}.

Definition msub (M N : MatrixNd) : MatrixNd :=
  {| rows := rows M; cols := cols M;
     coeff := fun i j => sub (coeff M i j) (coeff N i j) |}.

(** [M * N] *)
Definition mmul (M N : MatrixNd) : MatrixNd :=
  {| rows := rows M; cols := cols N;
     coeff := fun i j => dot (row_of M i) (col_of N j) |}.

(** [M * v] *)
Definition mvmul (M : MatrixNd) (v : VectorNd) : VectorNd :=
  map (fun i => dot (row_of M i) v) (seq 0 (rows M)).

(** [v.block(i0, 0, n, 1) = w] *)
Definition set_segment (v : VectorNd) (i0 : nat) (w : VectorNd) : VectorNd :=
  firstn i0 v ++ firstn (length v - i0) w
  ++ skipn (i0 + length w) v.

(** [v.block(i0, 0, n, 1)] *)
Definition segment (v : VectorNd) (i0 n : nat) : VectorNd :=
  firstn n (skipn i0 v).

(** *** Spatial transforms: a rotation [E] and a translation [r] *)

Record SpatialTransform : Type := {
  E : Matrix3d;
  r : Vector3d
}.

Definition SpatialTransform_Identity : SpatialTransform :=
  {| E := Matrix3d_Identity; r := Vector3d_Zero |}.

End Math.

Arguments MatrixNd R : clear implicits.
Arguments VectorNd R : clear implicits.
Arguments Vector3d R : clear implicits.
Arguments SpatialVector R : clear implicits.
Arguments Matrix3d R : clear implicits.
Arguments SpatialMatrix R : clear implicits.
Arguments SpatialTransform R : clear implicits.

(* ===================================================================== *)
(** ** Constraint objects *)
(* ===================================================================== *)

Inductive ConstraintType : Type :=
| ConstraintTypeContact
| ConstraintTypeLoop
| ConstraintTypeCustom.

(** Modelled from the spec: the enumeration [Math::LinearSolver] is declared in
    the math headers, which are not under src/.  The spec names its three
    solvers; [LinearSolverOther v] is any other value of the enumeration's
    underlying type, [v] being what [operator<<] prints for it. *)
Inductive LinearSolver : Type :=
| LinearSolverPartialPivLU
| LinearSolverColPivHouseholderQR
| LinearSolverHouseholderQR
| LinearSolverOther (v : Z).

Section ConstraintObjects.
Context {R : Type} {SR : Scalar R}.

(** Modelled from the spec: class [ContactConstraint] (Constraint_Contact.h is
    not under src/): a body id, a body-local contact point, the ordered list
    of world-frame normals (one row each), a name, and the first row the
    constraint occupies in the constraint space. *)
Record ContactConstraint : Type := {
  cc_bodyId : nat;
  cc_point : Vector3d R;
  cc_normals : list (Vector3d R);
  cc_name : option string;
  cc_rowInSystem : nat
}.

(** Modelled from the spec: class [LoopConstraint] (Constraint_Loop.h is not
    under src/): predecessor and successor body ids, a frame fixed on each,
    the ordered list of constraint axes in the predecessor frame (one row
    each) with their position-level and velocity-level flags, the Baumgarte
    time constant and switch, a name, and the first row. *)
Record LoopConstraint : Type := {
  lc_idPredecessor : nat;
  lc_idSuccessor : nat;
  lc_XPredecessor : SpatialTransform R;
  lc_XSuccessor : SpatialTransform R;
  lc_axes : list (SpatialVector R);
  lc_positionLevel : list bool;
  lc_velocityLevel : list bool;
  lc_baumgarteTimeConstant : R;
  lc_baumgarteEnabled : bool;
  lc_name : option string;
  lc_rowInSystem : nat
}.

(** Modelled from the spec: a constraint supplied by the caller; its size and
    name come from the caller's implementation, which [cu_impl] identifies. *)
Record CustomConstraint : Type := {
  cu_impl : nat;
  cu_size : nat;
  cu_name : option string;
  cu_baumgarteEnabled : bool;
  cu_rowInSystem : nat
}.

(** The base class [Constraint] with its three variants. *)
Inductive Constraint : Type :=
| Contact (c : ContactConstraint)
| Loop (l : LoopConstraint)
| Custom (u : CustomConstraint).

Definition getConstraintSize (c : Constraint) : nat :=
  match c with
  | Contact c => length (cc_normals c)
  | Loop l => length (lc_axes l)
  | Custom u => cu_size u
  end.

Definition getConstraintIndex (c : Constraint) : nat :=
  match c with
  | Contact c => cc_rowInSystem c
  | Loop l => lc_rowInSystem l
  | Custom u => cu_rowInSystem u
  end.

Definition getName (c : Constraint) : option string :=
  match c with
  | Contact c => cc_name c
  | Loop l => lc_name l
  | Custom u => cu_name u
  end.

Definition getBodyIds (c : Constraint) : list nat :=
  match c with
  | Contact c => [cc_bodyId c]
  | Loop l => [lc_idPredecessor l; lc_idSuccessor l]
  | Custom _ => []
  end.

Definition getBodyFrames (c : Constraint) : list (SpatialTransform R) :=
  match c with
  | Contact c => [{| E := Matrix3d_Identity; r := cc_point c |}]
  | Loop l => [lc_XPredecessor l; lc_XSuccessor l]
  | Custom _ => []
  end.

Definition isBaumgarteStabilizationEnabled (c : Constraint) : bool :=
  match c with
  | Contact _ => false
  | Loop l => lc_baumgarteEnabled l
  | Custom u => cu_baumgarteEnabled u
  end.

(** [c->addToConstraintSet(row)] records the first row of the constraint. *)
Definition addToConstraintSet (row : nat) (c : Constraint) : Constraint :=
  match c with
  | Contact c =>
      Contact {| cc_bodyId := cc_bodyId c; cc_point := cc_point c;
                 cc_normals := cc_normals c; cc_name := cc_name c;
                 cc_rowInSystem := row |}
  | Loop l =>
      Loop {| lc_idPredecessor := lc_idPredecessor l;
              lc_idSuccessor := lc_idSuccessor l;
              lc_XPredecessor := lc_XPredecessor l;
              lc_XSuccessor := lc_XSuccessor l;
              lc_axes := lc_axes l;
              lc_positionLevel := lc_positionLevel l;
              lc_velocityLevel := lc_velocityLevel l;
              lc_baumgarteTimeConstant := lc_baumgarteTimeConstant l;
              lc_baumgarteEnabled := lc_baumgarteEnabled l;
              lc_name := lc_name l;
              lc_rowInSystem := row |}
  | Custom u =>
      Custom {| cu_impl := cu_impl u; cu_size := cu_size u;
                cu_name := cu_name u;
                cu_baumgarteEnabled := cu_baumgarteEnabled u;
                cu_rowInSystem := row |}
  end.

(** [c->appendNormalVector(normal)]: one more row, after the existing ones. *)
Definition appendNormalVector (normal : Vector3d R) (c : ContactConstraint)
  : ContactConstraint :=
  {| cc_bodyId := cc_bodyId c; cc_point := cc_point c;
     cc_normals := cc_normals c ++ [normal]; cc_name := cc_name c;
     cc_rowInSystem := cc_rowInSystem c |}.

(** [l->appendConstraintAxis(axis, positionLevel, velocityLevel)] *)
Definition appendConstraintAxis (axis : SpatialVector R)
  (positionLevel velocityLevel : bool) (l : LoopConstraint) : LoopConstraint :=
  {| lc_idPredecessor := lc_idPredecessor l;
     lc_idSuccessor := lc_idSuccessor l;
     lc_XPredecessor := lc_XPredecessor l;
     lc_XSuccessor := lc_XSuccessor l;
     lc_axes := lc_axes l ++ [axis];
     lc_positionLevel := lc_positionLevel l ++ [positionLevel];
     lc_velocityLevel := lc_velocityLevel l ++ [velocityLevel];
     lc_baumgarteTimeConstant := lc_baumgarteTimeConstant l;
     lc_baumgarteEnabled := lc_baumgarteEnabled l;
     lc_name := lc_name l;
     lc_rowInSystem := lc_rowInSystem l |}.

(** [l->setBaumgarteTimeConstant(t); l->setEnableBaumgarteStabilization(e)] *)
Definition setBaumgarte (t : R) (e : bool) (l : LoopConstraint)
  : LoopConstraint :=
  {| lc_idPredecessor := lc_idPredecessor l;
     lc_idSuccessor := lc_idSuccessor l;
     lc_XPredecessor := lc_XPredecessor l;
     lc_XSuccessor := lc_XSuccessor l;
     lc_axes := lc_axes l;
     lc_positionLevel := lc_positionLevel l;
     lc_velocityLevel := lc_velocityLevel l;
     lc_baumgarteTimeConstant := t;
     lc_baumgarteEnabled := e;
     lc_name := lc_name l;
     lc_rowInSystem := lc_rowInSystem l |}.

(** *** The scratch memory handed to every constraint ([ConstraintCache]) *)

Record ConstraintCache : Type := {
  vecNZeros : VectorNd R;
  vecNA : VectorNd R; vecNB : VectorNd R;
  vecNC : VectorNd R; vecND : VectorNd R;
  mat3NA : MatrixNd R; mat3NB : MatrixNd R;
  mat3NC : MatrixNd R; mat3ND : MatrixNd R;
  mat6NA : MatrixNd R; mat6NB : MatrixNd R;
  mat6NC : MatrixNd R; mat6ND : MatrixNd R;
  vec3A : Vector3d R; vec3B : Vector3d R; vec3C : Vector3d R;
  vec3D : Vector3d R; vec3E : Vector3d R; vec3F : Vector3d R;
  svecA : SpatialVector R; svecB : SpatialVector R; svecC : SpatialVector R;
  svecD : SpatialVector R; svecE : SpatialVector R; svecF : SpatialVector R;
  stA : SpatialTransform R; stB : SpatialTransform R;
  stC : SpatialTransform R; stD : SpatialTransform R;
  mat3A : Matrix3d R; mat3B : Matrix3d R; mat3C : Matrix3d R;
  mat3D : Matrix3d R; mat3E : Matrix3d R; mat3F : Matrix3d R
}.

End ConstraintObjects.

Arguments ContactConstraint R : clear implicits.
Arguments LoopConstraint R : clear implicits.
Arguments Constraint R : clear implicits.
Arguments ConstraintCache R : clear implicits.

(* ===================================================================== *)
(** ** The constraint registry ([struct ConstraintSet]) *)
(* ===================================================================== *)

(** The constraint objects are shared ([std::shared_ptr]) between the list
    [constraints] and the typed lists [contactConstraints] and
    [loopConstraints]: [store] is the heap they live on, and the three lists
    hold addresses into it.  An object changed through one list is changed
    for the others.

    [GT_qr] stands for the QR decomposition object: the matrix it was last
    computed from.

    [set_f v cs] is [cs.f = v]: every other member is copied. *)
Module CS.
Section Fields.
Context {R : Type}.

Record ConstraintSet : Type := mk {
  store : list (Constraint R);
  constraints : list nat;
  contactConstraints : list nat;
  loopConstraints : list nat;
  name : list string;
  constraintType : list ConstraintType;
  bound : bool;
  linear_solver : LinearSolver;
  err : VectorNd R;
  errd : VectorNd R;
  force : VectorNd R;
  impulse : VectorNd R;
  v_plus : VectorNd R;
  H : MatrixNd R;
  C : VectorNd R;
  gamma : VectorNd R;
  G : MatrixNd R;
  A : MatrixNd R;
  b : VectorNd R;
  x : VectorNd R;
  GT_qr : MatrixNd R;
  GT_qr_Q : MatrixNd R;
  Y : MatrixNd R;
  Z : MatrixNd R;
  qddot_y : VectorNd R;
  qddot_z : VectorNd R;
  K : MatrixNd R;
  a : VectorNd R;
  QDDot_t : VectorNd R;
  QDDot_0 : VectorNd R;
  f_t : list (SpatialVector R);
  f_ext_constraints : list (SpatialVector R);
  point_accel_0 : list (Vector3d R);
  d_pA : list (SpatialVector R);
  d_a : list (SpatialVector R);
  d_u : VectorNd R;
  d_IA : list (SpatialMatrix R);
  d_U : list (SpatialVector R);
  d_d : VectorNd R;
  d_multdof3_u : list (Vector3d R);
  cache : ConstraintCache R
}.

Definition set_store (v : list (Constraint R)) (cs : ConstraintSet)
  : ConstraintSet :=
  {| store := v; constraints := constraints cs;
     contactConstraints := contactConstraints cs;
     loopConstraints := loopConstraints cs; name := name cs;
     constraintType := constraintType cs; bound := bound cs;
     linear_solver := linear_solver cs; err := err cs; errd := errd cs;
     force := force cs; impulse := impulse cs; v_plus := v_plus cs;
     H := H cs; C := C cs; gamma := gamma cs; G := G cs; A := A cs;
     b := b cs; x := x cs; GT_qr := GT_qr cs; GT_qr_Q := GT_qr_Q cs;
     Y := Y cs; Z := Z cs; qddot_y := qddot_y cs; qddot_z := qddot_z cs;
     K := K cs; a := a cs; QDDot_t := QDDot_t cs; QDDot_0 := QDDot_0 cs;
     f_t := f_t cs; f_ext_constraints := f_ext_constraints cs;
     point_accel_0 := point_accel_0 cs; d_pA := d_pA cs; d_a := d_a cs;
     d_u := d_u cs; d_IA := d_IA cs; d_U := d_U cs; d_d := d_d cs;
     d_multdof3_u := d_multdof3_u cs; cache := cache cs |}.

Definition set_constraints (v : list nat) (cs : ConstraintSet)
  : ConstraintSet :=
  {| store := store cs; constraints := v;
     contactConstraints := contactConstraints cs;
     loopConstraints := loopConstraints cs; name := name cs;
     constraintType := constraintType cs; bound := bound cs;
     linear_solver := linear_solver cs; err := err cs; errd := errd cs;
     force := force cs; impulse := impulse cs; v_plus := v_plus cs;
     H := H cs; C := C cs; gamma := gamma cs; G := G cs; A := A cs;
     b := b cs; x := x cs; GT_qr := GT_qr cs; GT_qr_Q := GT_qr_Q cs;
     Y := Y cs; Z := Z cs; qddot_y := qddot_y cs; qddot_z := qddot_z cs;
     K := K cs; a := a cs; QDDot_t := QDDot_t cs; QDDot_0 := QDDot_0 cs;
     f_t := f_t cs; f_ext_constraints := f_ext_constraints cs;
     point_accel_0 := point_accel_0 cs; d_pA := d_pA cs; d_a := d_a cs;
     d_u := d_u cs; d_IA := d_IA cs; d_U := d_U cs; d_d := d_d cs;
     d_multdof3_u := d_multdof3_u cs; cache := cache cs |}.

Definition set_contactConstraints (v : list nat) (cs : ConstraintSet)
  : ConstraintSet :=
  {| store := store cs; constraints := constraints cs;
     contactConstraints := v; loopConstraints := loopConstraints cs;
     name := name cs; constraintType := constraintType cs; bound := bound cs;
     linear_solver := linear_solver cs; err := err cs; errd := errd cs;
     force := force cs; impulse := impulse cs; v_plus := v_plus cs;
     H := H cs; C := C cs; gamma := gamma cs; G := G cs; A := A cs;
     b := b cs; x := x cs; GT_qr := GT_qr cs; GT_qr_Q := GT_qr_Q cs;
     Y := Y cs; Z := Z cs; qddot_y := qddot_y cs; qddot_z := qddot_z cs;
     K := K cs; a := a cs; QDDot_t := QDDot_t cs; QDDot_0 := QDDot_0 cs;
     f_t := f_t cs; f_ext_constraints := f_ext_constraints cs;
     point_accel_0 := point_accel_0 cs; d_pA := d_pA cs; d_a := d_a cs;
     d_u := d_u cs; d_IA := d_IA cs; d_U := d_U cs; d_d := d_d cs;
     d_multdof3_u := d_multdof3_u cs; cache := cache cs |}.

Definition set_loopConstraints (v : list nat) (cs : ConstraintSet)
  : ConstraintSet :=
  {| store := store cs; constraints := constraints cs;
     contactConstraints := contactConstraints cs; loopConstraints := v;
     name := name cs; constraintType := constraintType cs; bound := bound cs;
     linear_solver := linear_solver cs; err := err cs; errd := errd cs;
     force := force cs; impulse := impulse cs; v_plus := v_plus cs;
     H := H cs; C := C cs; gamma := gamma cs; G := G cs; A := A cs;
     b := b cs; x := x cs; GT_qr := GT_qr cs; GT_qr_Q := GT_qr_Q cs;
     Y := Y cs; Z := Z cs; qddot_y := qddot_y cs; qddot_z := qddot_z cs;
     K := K cs; a := a cs; QDDot_t := QDDot_t cs; QDDot_0 := QDDot_0 cs;
     f_t := f_t cs; f_ext_constraints := f_ext_constraints cs;
     point_accel_0 := point_accel_0 cs; d_pA := d_pA cs; d_a := d_a cs;
     d_u := d_u cs; d_IA := d_IA cs; d_U := d_U cs; d_d := d_d cs;
     d_multdof3_u := d_multdof3_u cs; cache := cache cs |}.

Definition set_name (v : list string) (cs : ConstraintSet)
  : ConstraintSet :=
  {| store := store cs; constraints := constraints cs;
     contactConstraints := contactConstraints cs;
     loopConstraints := loopConstraints cs; name := v;
     constraintType := constraintType cs; bound := bound cs;
     linear_solver := linear_solver cs; err := err cs; errd := errd cs;
     force := force cs; impulse := impulse cs; v_plus := v_plus cs;
     H := H cs; C := C cs; gamma := gamma cs; G := G cs; A := A cs;
     b := b cs; x := x cs; GT_qr := GT_qr cs; GT_qr_Q := GT_qr_Q cs;
     Y := Y cs; Z := Z cs; qddot_y := qddot_y cs; qddot_z := qddot_z cs;
     K := K cs; a := a cs; QDDot_t := QDDot_t cs; QDDot_0 := QDDot_0 cs;
     f_t := f_t cs; f_ext_constraints := f_ext_constraints cs;
     point_accel_0 := point_accel_0 cs; d_pA := d_pA cs; d_a := d_a cs;
     d_u := d_u cs; d_IA := d_IA cs; d_U := d_U cs; d_d := d_d cs;
     d_multdof3_u := d_multdof3_u cs; cache := cache cs |}.

Definition set_constraintType (v : list ConstraintType) (cs : ConstraintSet)
  : ConstraintSet :=
  {| store := store cs; constraints := constraints cs;
     contactConstraints := contactConstraints cs;
     loopConstraints := loopConstraints cs; name := name cs;
     constraintType := v; bound := bound cs;
     linear_solver := linear_solver cs; err := err cs; errd := errd cs;
     force := force cs; impulse := impulse cs; v_plus := v_plus cs;
     H := H cs; C := C cs; gamma := gamma cs; G := G cs; A := A cs;
     b := b cs; x := x cs; GT_qr := GT_qr cs; GT_qr_Q := GT_qr_Q cs;
     Y := Y cs; Z := Z cs; qddot_y := qddot_y cs; qddot_z := qddot_z cs;
     K := K cs; a := a cs; QDDot_t := QDDot_t cs; QDDot_0 := QDDot_0 cs;
     f_t := f_t cs; f_ext_constraints := f_ext_constraints cs;
     point_accel_0 := point_accel_0 cs; d_pA := d_pA cs; d_a := d_a cs;
     d_u := d_u cs; d_IA := d_IA cs; d_U := d_U cs; d_d := d_d cs;
     d_multdof3_u := d_multdof3_u cs; cache := cache cs |}.

Definition set_err (v : VectorNd R) (cs : ConstraintSet)
  : ConstraintSet :=
  {| store := store cs; constraints := constraints cs;
     contactConstraints := contactConstraints cs;
     loopConstraints := loopConstraints cs; name := name cs;
     constraintType := constraintType cs; bound := bound cs;
     linear_solver := linear_solver cs; err := v; errd := errd cs;
     force := force cs; impulse := impulse cs; v_plus := v_plus cs;
     H := H cs; C := C cs; gamma := gamma cs; G := G cs; A := A cs;
     b := b cs; x := x cs; GT_qr := GT_qr cs; GT_qr_Q := GT_qr_Q cs;
     Y := Y cs; Z := Z cs; qddot_y := qddot_y cs; qddot_z := qddot_z cs;
     K := K cs; a := a cs; QDDot_t := QDDot_t cs; QDDot_0 := QDDot_0 cs;
     f_t := f_t cs; f_ext_constraints := f_ext_constraints cs;
     point_accel_0 := point_accel_0 cs; d_pA := d_pA cs; d_a := d_a cs;
     d_u := d_u cs; d_IA := d_IA cs; d_U := d_U cs; d_d := d_d cs;
     d_multdof3_u := d_multdof3_u cs; cache := cache cs |}.

Definition set_errd (v : VectorNd R) (cs : ConstraintSet)
  : ConstraintSet :=
  {| store := store cs; constraints := constraints cs;
     contactConstraints := contactConstraints cs;
     loopConstraints := loopConstraints cs; name := name cs;
     constraintType := constraintType cs; bound := bound cs;
     linear_solver := linear_solver cs; err := err cs; errd := v;
     force := force cs; impulse := impulse cs; v_plus := v_plus cs;
     H := H cs; C := C cs; gamma := gamma cs; G := G cs; A := A cs;
     b := b cs; x := x cs; GT_qr := GT_qr cs; GT_qr_Q := GT_qr_Q cs;
     Y := Y cs; Z := Z cs; qddot_y := qddot_y cs; qddot_z := qddot_z cs;
     K := K cs; a := a cs; QDDot_t := QDDot_t cs; QDDot_0 := QDDot_0 cs;
     f_t := f_t cs; f_ext_constraints := f_ext_constraints cs;
     point_accel_0 := point_accel_0 cs; d_pA := d_pA cs; d_a := d_a cs;
     d_u := d_u cs; d_IA := d_IA cs; d_U := d_U cs; d_d := d_d cs;
     d_multdof3_u := d_multdof3_u cs; cache := cache cs |}.

Definition set_force (v : VectorNd R) (cs : ConstraintSet)
  : ConstraintSet :=
  {| store := store cs; constraints := constraints cs;
     contactConstraints := contactConstraints cs;
     loopConstraints := loopConstraints cs; name := name cs;
     constraintType := constraintType cs; bound := bound cs;
     linear_solver := linear_solver cs; err := err cs; errd := errd cs;
     force := v; impulse := impulse cs; v_plus := v_plus cs; H := H cs;
     C := C cs; gamma := gamma cs; G := G cs; A := A cs; b := b cs;
     x := x cs; GT_qr := GT_qr cs; GT_qr_Q := GT_qr_Q cs; Y := Y cs;
     Z := Z cs; qddot_y := qddot_y cs; qddot_z := qddot_z cs; K := K cs;
     a := a cs; QDDot_t := QDDot_t cs; QDDot_0 := QDDot_0 cs; f_t := f_t cs;
     f_ext_constraints := f_ext_constraints cs;
     point_accel_0 := point_accel_0 cs; d_pA := d_pA cs; d_a := d_a cs;
     d_u := d_u cs; d_IA := d_IA cs; d_U := d_U cs; d_d := d_d cs;
     d_multdof3_u := d_multdof3_u cs; cache := cache cs |}.

Definition set_impulse (v : VectorNd R) (cs : ConstraintSet)
  : ConstraintSet :=
  {| store := store cs; constraints := constraints cs;
     contactConstraints := contactConstraints cs;
     loopConstraints := loopConstraints cs; name := name cs;
     constraintType := constraintType cs; bound := bound cs;
     linear_solver := linear_solver cs; err := err cs; errd := errd cs;
     force := force cs; impulse := v; v_plus := v_plus cs; H := H cs;
     C := C cs; gamma := gamma cs; G := G cs; A := A cs; b := b cs;
     x := x cs; GT_qr := GT_qr cs; GT_qr_Q := GT_qr_Q cs; Y := Y cs;
     Z := Z cs; qddot_y := qddot_y cs; qddot_z := qddot_z cs; K := K cs;
     a := a cs; QDDot_t := QDDot_t cs; QDDot_0 := QDDot_0 cs; f_t := f_t cs;
     f_ext_constraints := f_ext_constraints cs;
     point_accel_0 := point_accel_0 cs; d_pA := d_pA cs; d_a := d_a cs;
     d_u := d_u cs; d_IA := d_IA cs; d_U := d_U cs; d_d := d_d cs;
     d_multdof3_u := d_multdof3_u cs; cache := cache cs |}.

Definition set_v_plus (v : VectorNd R) (cs : ConstraintSet)
  : ConstraintSet :=
  {| store := store cs; constraints := constraints cs;
     contactConstraints := contactConstraints cs;
     loopConstraints := loopConstraints cs; name := name cs;
     constraintType := constraintType cs; bound := bound cs;
     linear_solver := linear_solver cs; err := err cs; errd := errd cs;
     force := force cs; impulse := impulse cs; v_plus := v; H := H cs;
     C := C cs; gamma := gamma cs; G := G cs; A := A cs; b := b cs;
     x := x cs; GT_qr := GT_qr cs; GT_qr_Q := GT_qr_Q cs; Y := Y cs;
     Z := Z cs; qddot_y := qddot_y cs; qddot_z := qddot_z cs; K := K cs;
     a := a cs; QDDot_t := QDDot_t cs; QDDot_0 := QDDot_0 cs; f_t := f_t cs;
     f_ext_constraints := f_ext_constraints cs;
     point_accel_0 := point_accel_0 cs; d_pA := d_pA cs; d_a := d_a cs;
     d_u := d_u cs; d_IA := d_IA cs; d_U := d_U cs; d_d := d_d cs;
     d_multdof3_u := d_multdof3_u cs; cache := cache cs |}.

Definition set_H (v : MatrixNd R) (cs : ConstraintSet)
  : ConstraintSet :=
  {| store := store cs; constraints := constraints cs;
     contactConstraints := contactConstraints cs;
     loopConstraints := loopConstraints cs; name := name cs;
     constraintType := constraintType cs; bound := bound cs;
     linear_solver := linear_solver cs; err := err cs; errd := errd cs;
     force := force cs; impulse := impulse cs; v_plus := v_plus cs; H := v;
     C := C cs; gamma := gamma cs; G := G cs; A := A cs; b := b cs;
     x := x cs; GT_qr := GT_qr cs; GT_qr_Q := GT_qr_Q cs; Y := Y cs;
     Z := Z cs; qddot_y := qddot_y cs; qddot_z := qddot_z cs; K := K cs;
     a := a cs; QDDot_t := QDDot_t cs; QDDot_0 := QDDot_0 cs; f_t := f_t cs;
     f_ext_constraints := f_ext_constraints cs;
     point_accel_0 := point_accel_0 cs; d_pA := d_pA cs; d_a := d_a cs;
     d_u := d_u cs; d_IA := d_IA cs; d_U := d_U cs; d_d := d_d cs;
     d_multdof3_u := d_multdof3_u cs; cache := cache cs |}.

Definition set_C (v : VectorNd R) (cs : ConstraintSet)
  : ConstraintSet :=
  {| store := store cs; constraints := constraints cs;
     contactConstraints := contactConstraints cs;
     loopConstraints := loopConstraints cs; name := name cs;
     constraintType := constraintType cs; bound := bound cs;
     linear_solver := linear_solver cs; err := err cs; errd := errd cs;
     force := force cs; impulse := impulse cs; v_plus := v_plus cs;
     H := H cs; C := v; gamma := gamma cs; G := G cs; A := A cs; b := b cs;
     x := x cs; GT_qr := GT_qr cs; GT_qr_Q := GT_qr_Q cs; Y := Y cs;
     Z := Z cs; qddot_y := qddot_y cs; qddot_z := qddot_z cs; K := K cs;
     a := a cs; QDDot_t := QDDot_t cs; QDDot_0 := QDDot_0 cs; f_t := f_t cs;
     f_ext_constraints := f_ext_constraints cs;
     point_accel_0 := point_accel_0 cs; d_pA := d_pA cs; d_a := d_a cs;
     d_u := d_u cs; d_IA := d_IA cs; d_U := d_U cs; d_d := d_d cs;
     d_multdof3_u := d_multdof3_u cs; cache := cache cs |}.

Definition set_gamma (v : VectorNd R) (cs : ConstraintSet)
  : ConstraintSet :=
  {| store := store cs; constraints := constraints cs;
     contactConstraints := contactConstraints cs;
     loopConstraints := loopConstraints cs; name := name cs;
     constraintType := constraintType cs; bound := bound cs;
     linear_solver := linear_solver cs; err := err cs; errd := errd cs;
     force := force cs; impulse := impulse cs; v_plus := v_plus cs;
     H := H cs; C := C cs; gamma := v; G := G cs; A := A cs; b := b cs;
     x := x cs; GT_qr := GT_qr cs; GT_qr_Q := GT_qr_Q cs; Y := Y cs;
     Z := Z cs; qddot_y := qddot_y cs; qddot_z := qddot_z cs; K := K cs;
     a := a cs; QDDot_t := QDDot_t cs; QDDot_0 := QDDot_0 cs; f_t := f_t cs;
     f_ext_constraints := f_ext_constraints cs;
     point_accel_0 := point_accel_0 cs; d_pA := d_pA cs; d_a := d_a cs;
     d_u := d_u cs; d_IA := d_IA cs; d_U := d_U cs; d_d := d_d cs;
     d_multdof3_u := d_multdof3_u cs; cache := cache cs |}.

Definition set_G (v : MatrixNd R) (cs : ConstraintSet)
  : ConstraintSet :=
  {| store := store cs; constraints := constraints cs;
     contactConstraints := contactConstraints cs;
     loopConstraints := loopConstraints cs; name := name cs;
     constraintType := constraintType cs; bound := bound cs;
     linear_solver := linear_solver cs; err := err cs; errd := errd cs;
     force := force cs; impulse := impulse cs; v_plus := v_plus cs;
     H := H cs; C := C cs; gamma := gamma cs; G := v; A := A cs; b := b cs;
     x := x cs; GT_qr := GT_qr cs; GT_qr_Q := GT_qr_Q cs; Y := Y cs;
     Z := Z cs; qddot_y := qddot_y cs; qddot_z := qddot_z cs; K := K cs;
     a := a cs; QDDot_t := QDDot_t cs; QDDot_0 := QDDot_0 cs; f_t := f_t cs;
     f_ext_constraints := f_ext_constraints cs;
     point_accel_0 := point_accel_0 cs; d_pA := d_pA cs; d_a := d_a cs;
     d_u := d_u cs; d_IA := d_IA cs; d_U := d_U cs; d_d := d_d cs;
     d_multdof3_u := d_multdof3_u cs; cache := cache cs |}.

Definition set_A (v : MatrixNd R) (cs : ConstraintSet)
  : ConstraintSet :=
  {| store := store cs; constraints := constraints cs;
     contactConstraints := contactConstraints cs;
     loopConstraints := loopConstraints cs; name := name cs;
     constraintType := constraintType cs; bound := bound cs;
     linear_solver := linear_solver cs; err := err cs; errd := errd cs;
     force := force cs; impulse := impulse cs; v_plus := v_plus cs;
     H := H cs; C := C cs; gamma := gamma cs; G := G cs; A := v; b := b cs;
     x := x cs; GT_qr := GT_qr cs; GT_qr_Q := GT_qr_Q cs; Y := Y cs;
     Z := Z cs; qddot_y := qddot_y cs; qddot_z := qddot_z cs; K := K cs;
     a := a cs; QDDot_t := QDDot_t cs; QDDot_0 := QDDot_0 cs; f_t := f_t cs;
     f_ext_constraints := f_ext_constraints cs;
     point_accel_0 := point_accel_0 cs; d_pA := d_pA cs; d_a := d_a cs;
     d_u := d_u cs; d_IA := d_IA cs; d_U := d_U cs; d_d := d_d cs;
     d_multdof3_u := d_multdof3_u cs; cache := cache cs |}.

Definition set_b (v : VectorNd R) (cs : ConstraintSet)
  : ConstraintSet :=
  {| store := store cs; constraints := constraints cs;
     contactConstraints := contactConstraints cs;
     loopConstraints := loopConstraints cs; name := name cs;
     constraintType := constraintType cs; bound := bound cs;
     linear_solver := linear_solver cs; err := err cs; errd := errd cs;
     force := force cs; impulse := impulse cs; v_plus := v_plus cs;
     H := H cs; C := C cs; gamma := gamma cs; G := G cs; A := A cs; b := v;
     x := x cs; GT_qr := GT_qr cs; GT_qr_Q := GT_qr_Q cs; Y := Y cs;
     Z := Z cs; qddot_y := qddot_y cs; qddot_z := qddot_z cs; K := K cs;
     a := a cs; QDDot_t := QDDot_t cs; QDDot_0 := QDDot_0 cs; f_t := f_t cs;
     f_ext_constraints := f_ext_constraints cs;
     point_accel_0 := point_accel_0 cs; d_pA := d_pA cs; d_a := d_a cs;
     d_u := d_u cs; d_IA := d_IA cs; d_U := d_U cs; d_d := d_d cs;
     d_multdof3_u := d_multdof3_u cs; cache := cache cs |}.

Definition set_x (v : VectorNd R) (cs : ConstraintSet)
  : ConstraintSet :=
  {| store := store cs; constraints := constraints cs;
     contactConstraints := contactConstraints cs;
     loopConstraints := loopConstraints cs; name := name cs;
     constraintType := constraintType cs; bound := bound cs;
     linear_solver := linear_solver cs; err := err cs; errd := errd cs;
     force := force cs; impulse := impulse cs; v_plus := v_plus cs;
     H := H cs; C := C cs; gamma := gamma cs; G := G cs; A := A cs;
     b := b cs; x := v; GT_qr := GT_qr cs; GT_qr_Q := GT_qr_Q cs; Y := Y cs;
     Z := Z cs; qddot_y := qddot_y cs; qddot_z := qddot_z cs; K := K cs;
     a := a cs; QDDot_t := QDDot_t cs; QDDot_0 := QDDot_0 cs; f_t := f_t cs;
     f_ext_constraints := f_ext_constraints cs;
     point_accel_0 := point_accel_0 cs; d_pA := d_pA cs; d_a := d_a cs;
     d_u := d_u cs; d_IA := d_IA cs; d_U := d_U cs; d_d := d_d cs;
     d_multdof3_u := d_multdof3_u cs; cache := cache cs |}.

Definition set_GT_qr (v : MatrixNd R) (cs : ConstraintSet)
  : ConstraintSet :=
  {| store := store cs; constraints := constraints cs;
     contactConstraints := contactConstraints cs;
     loopConstraints := loopConstraints cs; name := name cs;
     constraintType := constraintType cs; bound := bound cs;
     linear_solver := linear_solver cs; err := err cs; errd := errd cs;
     force := force cs; impulse := impulse cs; v_plus := v_plus cs;
     H := H cs; C := C cs; gamma := gamma cs; G := G cs; A := A cs;
     b := b cs; x := x cs; GT_qr := v; GT_qr_Q := GT_qr_Q cs; Y := Y cs;
     Z := Z cs; qddot_y := qddot_y cs; qddot_z := qddot_z cs; K := K cs;
     a := a cs; QDDot_t := QDDot_t cs; QDDot_0 := QDDot_0 cs; f_t := f_t cs;
     f_ext_constraints := f_ext_constraints cs;
     point_accel_0 := point_accel_0 cs; d_pA := d_pA cs; d_a := d_a cs;
     d_u := d_u cs; d_IA := d_IA cs; d_U := d_U cs; d_d := d_d cs;
     d_multdof3_u := d_multdof3_u cs; cache := cache cs |}.

Definition set_GT_qr_Q (v : MatrixNd R) (cs : ConstraintSet)
  : ConstraintSet :=
  {| store := store cs; constraints := constraints cs;
     contactConstraints := contactConstraints cs;
     loopConstraints := loopConstraints cs; name := name cs;
     constraintType := constraintType cs; bound := bound cs;
     linear_solver := linear_solver cs; err := err cs; errd := errd cs;
     force := force cs; impulse := impulse cs; v_plus := v_plus cs;
     H := H cs; C := C cs; gamma := gamma cs; G := G cs; A := A cs;
     b := b cs; x := x cs; GT_qr := GT_qr cs; GT_qr_Q := v; Y := Y cs;
     Z := Z cs; qddot_y := qddot_y cs; qddot_z := qddot_z cs; K := K cs;
     a := a cs; QDDot_t := QDDot_t cs; QDDot_0 := QDDot_0 cs; f_t := f_t cs;
     f_ext_constraints := f_ext_constraints cs;
     point_accel_0 := point_accel_0 cs; d_pA := d_pA cs; d_a := d_a cs;
     d_u := d_u cs; d_IA := d_IA cs; d_U := d_U cs; d_d := d_d cs;
     d_multdof3_u := d_multdof3_u cs; cache := cache cs |}.

Definition set_Y (v : MatrixNd R) (cs : ConstraintSet)
  : ConstraintSet :=
  {| store := store cs; constraints := constraints cs;
     contactConstraints := contactConstraints cs;
     loopConstraints := loopConstraints cs; name := name cs;
     constraintType := constraintType cs; bound := bound cs;
     linear_solver := linear_solver cs; err := err cs; errd := errd cs;
     force := force cs; impulse := impulse cs; v_plus := v_plus cs;
     H := H cs; C := C cs; gamma := gamma cs; G := G cs; A := A cs;
     b := b cs; x := x cs; GT_qr := GT_qr cs; GT_qr_Q := GT_qr_Q cs; Y := v;
     Z := Z cs; qddot_y := qddot_y cs; qddot_z := qddot_z cs; K := K cs;
     a := a cs; QDDot_t := QDDot_t cs; QDDot_0 := QDDot_0 cs; f_t := f_t cs;
     f_ext_constraints := f_ext_constraints cs;
     point_accel_0 := point_accel_0 cs; d_pA := d_pA cs; d_a := d_a cs;
     d_u := d_u cs; d_IA := d_IA cs; d_U := d_U cs; d_d := d_d cs;
     d_multdof3_u := d_multdof3_u cs; cache := cache cs |}.

Definition set_Z (v : MatrixNd R) (cs : ConstraintSet)
  : ConstraintSet :=
  {| store := store cs; constraints := constraints cs;
     contactConstraints := contactConstraints cs;
     loopConstraints := loopConstraints cs; name := name cs;
     constraintType := constraintType cs; bound := bound cs;
     linear_solver := linear_solver cs; err := err cs; errd := errd cs;
     force := force cs; impulse := impulse cs; v_plus := v_plus cs;
     H := H cs; C := C cs; gamma := gamma cs; G := G cs; A := A cs;
     b := b cs; x := x cs; GT_qr := GT_qr cs; GT_qr_Q := GT_qr_Q cs;
     Y := Y cs; Z := v; qddot_y := qddot_y cs; qddot_z := qddot_z cs;
     K := K cs; a := a cs; QDDot_t := QDDot_t cs; QDDot_0 := QDDot_0 cs;
     f_t := f_t cs; f_ext_constraints := f_ext_constraints cs;
     point_accel_0 := point_accel_0 cs; d_pA := d_pA cs; d_a := d_a cs;
     d_u := d_u cs; d_IA := d_IA cs; d_U := d_U cs; d_d := d_d cs;
     d_multdof3_u := d_multdof3_u cs; cache := cache cs |}.

Definition set_qddot_y (v : VectorNd R) (cs : ConstraintSet)
  : ConstraintSet :=
  {| store := store cs; constraints := constraints cs;
     contactConstraints := contactConstraints cs;
     loopConstraints := loopConstraints cs; name := name cs;
     constraintType := constraintType cs; bound := bound cs;
     linear_solver := linear_solver cs; err := err cs; errd := errd cs;
     force := force cs; impulse := impulse cs; v_plus := v_plus cs;
     H := H cs; C := C cs; gamma := gamma cs; G := G cs; A := A cs;
     b := b cs; x := x cs; GT_qr := GT_qr cs; GT_qr_Q := GT_qr_Q cs;
     Y := Y cs; Z := Z cs; qddot_y := v; qddot_z := qddot_z cs; K := K cs;
     a := a cs; QDDot_t := QDDot_t cs; QDDot_0 := QDDot_0 cs; f_t := f_t cs;
     f_ext_constraints := f_ext_constraints cs;
     point_accel_0 := point_accel_0 cs; d_pA := d_pA cs; d_a := d_a cs;
     d_u := d_u cs; d_IA := d_IA cs; d_U := d_U cs; d_d := d_d cs;
     d_multdof3_u := d_multdof3_u cs; cache := cache cs |}.

Definition set_qddot_z (v : VectorNd R) (cs : ConstraintSet)
  : ConstraintSet :=
  {| store := store cs; constraints := constraints cs;
     contactConstraints := contactConstraints cs;
     loopConstraints := loopConstraints cs; name := name cs;
     constraintType := constraintType cs; bound := bound cs;
     linear_solver := linear_solver cs; err := err cs; errd := errd cs;
     force := force cs; impulse := impulse cs; v_plus := v_plus cs;
     H := H cs; C := C cs; gamma := gamma cs; G := G cs; A := A cs;
     b := b cs; x := x cs; GT_qr := GT_qr cs; GT_qr_Q := GT_qr_Q cs;
     Y := Y cs; Z := Z cs; qddot_y := qddot_y cs; qddot_z := v; K := K cs;
     a := a cs; QDDot_t := QDDot_t cs; QDDot_0 := QDDot_0 cs; f_t := f_t cs;
     f_ext_constraints := f_ext_constraints cs;
     point_accel_0 := point_accel_0 cs; d_pA := d_pA cs; d_a := d_a cs;
     d_u := d_u cs; d_IA := d_IA cs; d_U := d_U cs; d_d := d_d cs;
     d_multdof3_u := d_multdof3_u cs; cache := cache cs |}.

Definition set_K (v : MatrixNd R) (cs : ConstraintSet)
  : ConstraintSet :=
  {| store := store cs; constraints := constraints cs;
     contactConstraints := contactConstraints cs;
     loopConstraints := loopConstraints cs; name := name cs;
     constraintType := constraintType cs; bound := bound cs;
     linear_solver := linear_solver cs; err := err cs; errd := errd cs;
     force := force cs; impulse := impulse cs; v_plus := v_plus cs;
     H := H cs; C := C cs; gamma := gamma cs; G := G cs; A := A cs;
     b := b cs; x := x cs; GT_qr := GT_qr cs; GT_qr_Q := GT_qr_Q cs;
     Y := Y cs; Z := Z cs; qddot_y := qddot_y cs; qddot_z := qddot_z cs;
     K := v; a := a cs; QDDot_t := QDDot_t cs; QDDot_0 := QDDot_0 cs;
     f_t := f_t cs; f_ext_constraints := f_ext_constraints cs;
     point_accel_0 := point_accel_0 cs; d_pA := d_pA cs; d_a := d_a cs;
     d_u := d_u cs; d_IA := d_IA cs; d_U := d_U cs; d_d := d_d cs;
     d_multdof3_u := d_multdof3_u cs; cache := cache cs |}.

Definition set_a (v : VectorNd R) (cs : ConstraintSet)
  : ConstraintSet :=
  {| store := store cs; constraints := constraints cs;
     contactConstraints := contactConstraints cs;
     loopConstraints := loopConstraints cs; name := name cs;
     constraintType := constraintType cs; bound := bound cs;
     linear_solver := linear_solver cs; err := err cs; errd := errd cs;
     force := force cs; impulse := impulse cs; v_plus := v_plus cs;
     H := H cs; C := C cs; gamma := gamma cs; G := G cs; A := A cs;
     b := b cs; x := x cs; GT_qr := GT_qr cs; GT_qr_Q := GT_qr_Q cs;
     Y := Y cs; Z := Z cs; qddot_y := qddot_y cs; qddot_z := qddot_z cs;
     K := K cs; a := v; QDDot_t := QDDot_t cs; QDDot_0 := QDDot_0 cs;
     f_t := f_t cs; f_ext_constraints := f_ext_constraints cs;
     point_accel_0 := point_accel_0 cs; d_pA := d_pA cs; d_a := d_a cs;
     d_u := d_u cs; d_IA := d_IA cs; d_U := d_U cs; d_d := d_d cs;
     d_multdof3_u := d_multdof3_u cs; cache := cache cs |}.

Definition set_QDDot_0 (v : VectorNd R) (cs : ConstraintSet)
  : ConstraintSet :=
  {| store := store cs; constraints := constraints cs;
     contactConstraints := contactConstraints cs;
     loopConstraints := loopConstraints cs; name := name cs;
     constraintType := constraintType cs; bound := bound cs;
     linear_solver := linear_solver cs; err := err cs; errd := errd cs;
     force := force cs; impulse := impulse cs; v_plus := v_plus cs;
     H := H cs; C := C cs; gamma := gamma cs; G := G cs; A := A cs;
     b := b cs; x := x cs; GT_qr := GT_qr cs; GT_qr_Q := GT_qr_Q cs;
     Y := Y cs; Z := Z cs; qddot_y := qddot_y cs; qddot_z := qddot_z cs;
     K := K cs; a := a cs; QDDot_t := QDDot_t cs; QDDot_0 := v;
     f_t := f_t cs; f_ext_constraints := f_ext_constraints cs;
     point_accel_0 := point_accel_0 cs; d_pA := d_pA cs; d_a := d_a cs;
     d_u := d_u cs; d_IA := d_IA cs; d_U := d_U cs; d_d := d_d cs;
     d_multdof3_u := d_multdof3_u cs; cache := cache cs |}.

Definition set_d_multdof3_u (v : list (Vector3d R)) (cs : ConstraintSet)
  : ConstraintSet :=
  {| store := store cs; constraints := constraints cs;
     contactConstraints := contactConstraints cs;
     loopConstraints := loopConstraints cs; name := name cs;
     constraintType := constraintType cs; bound := bound cs;
     linear_solver := linear_solver cs; err := err cs; errd := errd cs;
     force := force cs; impulse := impulse cs; v_plus := v_plus cs;
     H := H cs; C := C cs; gamma := gamma cs; G := G cs; A := A cs;
     b := b cs; x := x cs; GT_qr := GT_qr cs; GT_qr_Q := GT_qr_Q cs;
     Y := Y cs; Z := Z cs; qddot_y := qddot_y cs; qddot_z := qddot_z cs;
     K := K cs; a := a cs; QDDot_t := QDDot_t cs; QDDot_0 := QDDot_0 cs;
     f_t := f_t cs; f_ext_constraints := f_ext_constraints cs;
     point_accel_0 := point_accel_0 cs; d_pA := d_pA cs; d_a := d_a cs;
     d_u := d_u cs; d_IA := d_IA cs; d_U := d_U cs; d_d := d_d cs;
     d_multdof3_u := v; cache := cache cs |}.

Definition set_cache (v : ConstraintCache R) (cs : ConstraintSet)
  : ConstraintSet :=
  {| store := store cs; constraints := constraints cs;
     contactConstraints := contactConstraints cs;
     loopConstraints := loopConstraints cs; name := name cs;
     constraintType := constraintType cs; bound := bound cs;
     linear_solver := linear_solver cs; err := err cs; errd := errd cs;
     force := force cs; impulse := impulse cs; v_plus := v_plus cs;
     H := H cs; C := C cs; gamma := gamma cs; G := G cs; A := A cs;
     b := b cs; x := x cs; GT_qr := GT_qr cs; GT_qr_Q := GT_qr_Q cs;
     Y := Y cs; Z := Z cs; qddot_y := qddot_y cs; qddot_z := qddot_z cs;
     K := K cs; a := a cs; QDDot_t := QDDot_t cs; QDDot_0 := QDDot_0 cs;
     f_t := f_t cs; f_ext_constraints := f_ext_constraints cs;
     point_accel_0 := point_accel_0 cs; d_pA := d_pA cs; d_a := d_a cs;
     d_u := d_u cs; d_IA := d_IA cs; d_U := d_U cs; d_d := d_d cs;
     d_multdof3_u := d_multdof3_u cs; cache := v |}.

End Fields.
End CS.

Arguments CS.ConstraintSet R : clear implicits.

(* ===================================================================== *)
(** ** Registration: [AddContactConstraint], [AddLoopConstraint],
       [AddCustomConstraint] *)
(* ===================================================================== *)

(** A 32-bit [unsigned int]: [n - 1] wraps around at zero. *)
Definition unsigned_pred (n : nat) : Z := ((Z.of_nat n - 1) mod 2 ^ 32)%Z.

(** [std::string nameStr; if (constraintName != NULL) nameStr = constraintName;] *)
Definition nameStr_of (constraintName : option string) : string :=
  match constraintName with
  | Some s => s
  | None => EmptyString
  end.

Section Registration.
Context {R : Type} {SR : Scalar R} {SO : ScalarOrd R}.
Variable bc : Build.
Variable uninit : R.

(** Modelled from the spec: [ConstraintSet::size()] is defined in
    Constraints.h, which is not under src/; the spec calls it the current
    total row count, the length every per-row array has.  It is read off the
    row-type array. *)
Definition size (cs : CS.ConstraintSet R) : nat :=
  length (CS.constraintType cs).

(** [u.norm()] *)
Definition norm (u : list R) : R := sqrt (squaredNorm u).

(** [v[i]] of a [std::vector]: no check. *)
Definition at_ {T : Type} (v : list T) (i : nat) : Run T :=
  match nth_error v i with
  | Some t => Done t
  | None => Undefined
  end.

(** [v[i] = t] of a [std::vector]: no check. *)
Definition stdvec_set {T : Type} (v : list T) (i : nat) (t : T)
  : Run (list T) :=
  if i <? length v then Done (set_nth v i t) else Undefined.

(** [v[i] = t] of a [VectorNd]: checked by [eigen_assert]. *)
Definition vec_set (v : VectorNd R) (i : nat) (t : R) : Run (VectorNd R) :=
  eigen_assert bc (i <? length v) ;; ret (set_nth v i t).

(** [*p] for a shared pointer into the registry's objects. *)
Definition deref (cs : CS.ConstraintSet R) (p : nat) : Run (Constraint R) :=
  at_ (CS.store cs) p.

Definition deref_contact (cs : CS.ConstraintSet R) (p : nat)
  : Run (ContactConstraint R) :=
  c <- deref cs p ;;
  match c with
  | Contact c => ret c
  | _ => Undefined
  end.

Definition deref_loop (cs : CS.ConstraintSet R) (p : nat)
  : Run (LoopConstraint R) :=
  c <- deref cs p ;;
  match c with
  | Loop l => ret l
  | _ => Undefined
  end.

(** [std::make_shared<...>(...)]: a new object, at a fresh address. *)
Definition make_shared (c : Constraint R) (cs : CS.ConstraintSet R)
  : nat * CS.ConstraintSet R :=
  (length (CS.store cs), CS.set_store (CS.store cs ++ [c]) cs).

(** A write through a shared pointer. *)
Definition store_at (p : nat) (c : Constraint R) (cs : CS.ConstraintSet R)
  : CS.ConstraintSet R :=
  CS.set_store (set_nth (CS.store cs) p c) cs.

(** The five [conservativeResize (rowsInG)] calls every registration makes. *)
Definition resize_rows (rowsInG : nat) (cs : CS.ConstraintSet R)
  : CS.ConstraintSet R :=
  let cs := CS.set_err (conservativeResize uninit (CS.err cs) rowsInG) cs in
  let cs := CS.set_errd (conservativeResize uninit (CS.errd cs) rowsInG) cs in
  let cs := CS.set_force (conservativeResize uninit (CS.force cs) rowsInG) cs in
  let cs :=
    CS.set_impulse (conservativeResize uninit (CS.impulse cs) rowsInG) cs in
  CS.set_v_plus (conservativeResize uninit (CS.v_plus cs) rowsInG) cs.

(** [err[row] = 0.; errd[row] = 0.; force[row] = 0.; impulse[row] = 0.;
    v_plus[row] = 0.;] (in the order of the contact and custom overloads; the
    loop overload swaps force and impulse, which changes nothing). *)
Definition zero_row (row : nat) (cs : CS.ConstraintSet R)
  : Run (CS.ConstraintSet R) :=
  e <- vec_set (CS.err cs) row zero ;;
  let cs := CS.set_err e cs in
  e <- vec_set (CS.errd cs) row zero ;;
  let cs := CS.set_errd e cs in
  e <- vec_set (CS.force cs) row zero ;;
  let cs := CS.set_force e cs in
  e <- vec_set (CS.impulse cs) row zero ;;
  let cs := CS.set_impulse e cs in
  e <- vec_set (CS.v_plus cs) row zero ;;
  ret (CS.set_v_plus e cs).

(** [constraintType.push_back (t); name.push_back (nameStr);] *)
Definition push_row (t : ConstraintType) (nameStr : string)
  (cs : CS.ConstraintSet R) : CS.ConstraintSet R :=
  let cs := CS.set_constraintType (CS.constraintType cs ++ [t]) cs in
  CS.set_name (CS.name cs ++ [nameStr]) cs.

(** [d_multdof3_u = std::vector<Math::Vector3d>(rowsInG, Vector3d::Zero());] *)
Definition reset_d_multdof3_u (rowsInG : nat) (cs : CS.ConstraintSet R)
  : CS.ConstraintSet R :=
  CS.set_d_multdof3_u (repeat Vector3d_Zero rowsInG) cs.

(** [ConstraintSet::AddContactConstraint (bodyId, bodyPoint, worldNormals,
    constraintName)], lines 41-91.  The row count is read from
    [constraints[ccIndex]], the loop bound from [constraints[cIndex]]. *)
Definition AddContactConstraint_normals (cs : CS.ConstraintSet R)
  (bodyId : nat) (bodyPoint : Vector3d R) (worldNormals : list (Vector3d R))
  (constraintName : option string) : Run (CS.ConstraintSet R * Z) :=
  let insertAtRowInG := size cs in
  let ccIndex := length (CS.contactConstraints cs) in
  let '(p, cs) :=
    make_shared (Contact {| cc_bodyId := bodyId; cc_point := bodyPoint;
                            cc_normals := worldNormals;
                            cc_name := constraintName;
                            cc_rowInSystem := 0 |}) cs in
  let cs := CS.set_contactConstraints (CS.contactConstraints cs ++ [p]) cs in
  let cs := CS.set_constraints (CS.constraints cs ++ [p]) cs in
  c <- deref cs p ;;
  let cs := store_at p (addToConstraintSet insertAtRowInG c) cs in
  let cIndex := length (CS.constraints cs) - 1 in
  q <- at_ (CS.constraints cs) ccIndex ;;
  c_cc <- deref cs q ;;
  let rowsInG := insertAtRowInG + getConstraintSize c_cc in
  let nameStr := nameStr_of constraintName in
  let cs := resize_rows rowsInG cs in
  let cs := reset_d_multdof3_u rowsInG cs in
  q <- at_ (CS.constraints cs) cIndex ;;
  c_c <- deref cs q ;;
  cs <- for_ (getConstraintSize c_c)
          (fun i cs =>
             let cs := push_row ConstraintTypeContact nameStr cs in
             cs <- zero_row (insertAtRowInG + i) cs ;;
             d <- stdvec_set (CS.d_multdof3_u cs) (insertAtRowInG + i)
                    Vector3d_Zero ;;
             ret (CS.set_d_multdof3_u d cs))
          cs ;;
  ret (cs, unsigned_pred rowsInG).

(** [ConstraintSet::AddContactConstraint (body_id, body_point, world_normal,
    constraint_name, allowConstraintAppending)], lines 94-166.  The result of
    the first part is the registry after a merge, if there was one. *)
Definition AddContactConstraint (cs : CS.ConstraintSet R)
  (body_id : nat) (body_point world_normal : Vector3d R)
  (constraint_name : option string) (allowConstraintAppending : bool)
  : Run (CS.ConstraintSet R * Z) :=
  assert_ bc (negb (CS.bound cs)) ;;
  let insertAtRowInG := size cs in
  let rowsInG := insertAtRowInG + 1 in
  let nameStr := nameStr_of constraint_name in
  constraintAdded <-
    (if (0 <? length (CS.contactConstraints cs)) && allowConstraintAppending
     then
       let i := length (CS.contactConstraints cs) - 1 in
       p <- at_ (CS.contactConstraints cs) i ;;
       c <- deref_contact cs p ;;
       if cc_bodyId c =? body_id then
         let pointErr := vsub body_point (cc_point c) in
         if ltb (norm pointErr) (mul epsilon (of_nat 100)) then
           let cs := store_at p (Contact (appendNormalVector world_normal c))
                       cs in
           let cs := push_row ConstraintTypeContact nameStr cs in
           let cs := CS.set_err
                       (conservativeResize uninit (CS.err cs) rowsInG) cs in
           e <- vec_set (CS.err cs) insertAtRowInG zero ;;
           let cs := CS.set_err e cs in
           let cs := CS.set_errd
                       (conservativeResize uninit (CS.errd cs) rowsInG) cs in
           e <- vec_set (CS.errd cs) insertAtRowInG zero ;;
           let cs := CS.set_errd e cs in
           let cs := CS.set_force
                       (conservativeResize uninit (CS.force cs) rowsInG) cs in
           e <- vec_set (CS.force cs) insertAtRowInG zero ;;
           let cs := CS.set_force e cs in
           let cs := CS.set_impulse
                       (conservativeResize uninit (CS.impulse cs) rowsInG)
                       cs in
           e <- vec_set (CS.impulse cs) insertAtRowInG zero ;;
           let cs := CS.set_impulse e cs in
           let cs := CS.set_v_plus
                       (conservativeResize uninit (CS.v_plus cs) rowsInG)
                       cs in
           e <- vec_set (CS.v_plus cs) insertAtRowInG zero ;;
           let cs := CS.set_v_plus e cs in
           ret (Some (reset_d_multdof3_u rowsInG cs))
         else ret None
       else ret None
     else ret None) ;;
  match constraintAdded with
  | Some cs => ret (cs, unsigned_pred rowsInG)
  | None =>
      '(cs, lastRowInG) <-
        AddContactConstraint_normals cs body_id body_point [world_normal]
          constraint_name ;;
      let rowsInG := ((lastRowInG + 1) mod 2 ^ 32)%Z in
      ret (cs, ((rowsInG - 1) mod 2 ^ 32)%Z)
  end.

(** The element-by-element comparison of the two frame errors, lines 197-217:
    no translation and no rotation entry may exceed [tol] in magnitude. *)
Definition framesNumericallyIdentical (tol : R)
  (frameErrorPre frameErrorSuc : SpatialTransform R) : bool :=
  forallb
    (fun i =>
       negb (ltb tol (fabs (nth i (r frameErrorPre) zero))
             || ltb tol (fabs (nth i (r frameErrorSuc) zero)))
       && forallb
            (fun j =>
               negb (ltb tol (fabs (coeff (E frameErrorPre) i j))
                     || ltb tol (fabs (coeff (E frameErrorSuc) i j))))
            (seq 0 (cols (E frameErrorPre))))
    (seq 0 (length (r frameErrorPre))).

(** The tail every [AddLoopConstraint] with one axis runs, lines 246-273. *)
Definition loop_row (insertAtRowInG rowsInG : nat) (nameStr : string)
  (cs : CS.ConstraintSet R) : Run (CS.ConstraintSet R) :=
  let cs := CS.set_constraintType
              (CS.constraintType cs ++ [ConstraintTypeLoop]) cs in
  let cs := CS.set_name (CS.name cs ++ [nameStr]) cs in
  let cs := CS.set_err (conservativeResize uninit (CS.err cs) rowsInG) cs in
  e <- vec_set (CS.err cs) insertAtRowInG zero ;;
  let cs := CS.set_err e cs in
  let cs := CS.set_errd (conservativeResize uninit (CS.errd cs) rowsInG) cs in
  e <- vec_set (CS.errd cs) insertAtRowInG zero ;;
  let cs := CS.set_errd e cs in
  let cs := CS.set_force (conservativeResize uninit (CS.force cs) rowsInG) cs in
  e <- vec_set (CS.force cs) insertAtRowInG zero ;;
  let cs := CS.set_force e cs in
  let cs := CS.set_impulse
              (conservativeResize uninit (CS.impulse cs) rowsInG) cs in
  e <- vec_set (CS.impulse cs) insertAtRowInG zero ;;
  let cs := CS.set_impulse e cs in
  let cs := CS.set_v_plus
              (conservativeResize uninit (CS.v_plus cs) rowsInG) cs in
  e <- vec_set (CS.v_plus cs) insertAtRowInG zero ;;
  let cs := CS.set_v_plus e cs in
  ret (reset_d_multdof3_u rowsInG cs).

(** [ConstraintSet::AddLoopConstraint] with one constraint axis,
    lines 169-274. *)
Definition AddLoopConstraint (cs : CS.ConstraintSet R)
  (idPredecessor idSuccessor : nat)
  (XPredecessor XSuccessor : SpatialTransform R)
  (constraintAxisInPredecessor : SpatialVector R)
  (enableStab : bool) (stabParam : R) (constraintName : option string)
  (allowConstraintAppending positionLevelConstraint velocityLevelConstraint
     : bool)
  : Run (CS.ConstraintSet R * Z) :=
  assert_ bc (negb (CS.bound cs)) ;;
  let insertAtRowInG := size cs in
  let rowsInG := insertAtRowInG + 1 in
  let tol := mul epsilon (of_nat 100) in
  let idx := length (CS.loopConstraints cs) in
  constraintAdded <-
    (if (0 <? length (CS.loopConstraints cs)) && allowConstraintAppending
     then
       let idx := idx - 1 in
       p <- at_ (CS.loopConstraints cs) idx ;;
       l <- deref_loop cs p ;;
       if (lc_idPredecessor l =? idPredecessor)
          && (lc_idSuccessor l =? idSuccessor)
       then
         let frameErrorPre :=
           {| r := vsub (r XPredecessor) (r (lc_XPredecessor l));
              E := msub (E XPredecessor) (E (lc_XPredecessor l)) |} in
         let frameErrorSuc :=
           {| r := vsub (r XSuccessor) (r (lc_XSuccessor l));
              E := msub (E XSuccessor) (E (lc_XSuccessor l)) |} in
         if framesNumericallyIdentical tol frameErrorPre frameErrorSuc then
           ret (Some (idx,
                      store_at p
                        (Loop (appendConstraintAxis
                                 constraintAxisInPredecessor
                                 positionLevelConstraint
                                 velocityLevelConstraint l)) cs))
         else ret None
       else ret None
     else ret None) ;;
  let '(idx, cs) :=
    match constraintAdded with
    | Some (idx, cs) => (idx, cs)
    | None =>
        let '(p, cs) :=
          make_shared
            (Loop {| lc_idPredecessor := idPredecessor;
                     lc_idSuccessor := idSuccessor;
                     lc_XPredecessor := XPredecessor;
                     lc_XSuccessor := XSuccessor;
                     lc_axes := [constraintAxisInPredecessor];
                     lc_positionLevel := [positionLevelConstraint];
                     lc_velocityLevel := [velocityLevelConstraint];
                     lc_baumgarteTimeConstant := zero;
                     lc_baumgarteEnabled := false;
                     lc_name := constraintName;
                     lc_rowInSystem := insertAtRowInG |}) cs in
        let cs := CS.set_loopConstraints (CS.loopConstraints cs ++ [p]) cs in
        let idx := length (CS.loopConstraints cs) - 1 in
        (idx, CS.set_constraints (CS.constraints cs ++ [p]) cs)
    end in
  p <- at_ (CS.loopConstraints cs) idx ;;
  l <- deref_loop cs p ;;
  let cs := store_at p (Loop (setBaumgarte stabParam enableStab l)) cs in
  cs <- loop_row insertAtRowInG rowsInG (nameStr_of constraintName) cs ;;
  ret (cs, unsigned_pred rowsInG).

(** [ConstraintSet::AddLoopConstraint] with a list of constraint axes,
    lines 278-337. *)
Definition AddLoopConstraint_axes (cs : CS.ConstraintSet R)
  (idPredecessor idSuccessor : nat)
  (XPredecessor XSuccessor : SpatialTransform R)
  (constraintAxesInPredecessor : list (SpatialVector R))
  (enableStab : bool) (stabParam : R) (constraintName : option string)
  (positionLevelConstraint velocityLevelConstraint : bool)
  : Run (CS.ConstraintSet R * Z) :=
  assert_ bc (negb (CS.bound cs)) ;;
  let insertAtRowInG := size cs in
  let rowsInG := insertAtRowInG + length constraintAxesInPredecessor in
  let '(p, cs) :=
    make_shared
      (Loop {| lc_idPredecessor := idPredecessor;
               lc_idSuccessor := idSuccessor;
               lc_XPredecessor := XPredecessor;
               lc_XSuccessor := XSuccessor;
               lc_axes := constraintAxesInPredecessor;
               lc_positionLevel :=
                 map (fun _ => positionLevelConstraint)
                   constraintAxesInPredecessor;
               lc_velocityLevel :=
                 map (fun _ => velocityLevelConstraint)
                   constraintAxesInPredecessor;
               lc_baumgarteTimeConstant := zero;
               lc_baumgarteEnabled := false;
               lc_name := constraintName;
               lc_rowInSystem := insertAtRowInG |}) cs in
  let cs := CS.set_loopConstraints (CS.loopConstraints cs ++ [p]) cs in
  let idx := length (CS.loopConstraints cs) - 1 in
  let cs := CS.set_constraints (CS.constraints cs ++ [p]) cs in
  p <- at_ (CS.loopConstraints cs) idx ;;
  l <- deref_loop cs p ;;
  let cs := store_at p (Loop (setBaumgarte stabParam enableStab l)) cs in
  let nameStr := nameStr_of constraintName in
  let cs := resize_rows rowsInG cs in
  let cs := reset_d_multdof3_u rowsInG cs in
  cs <- for_ (length constraintAxesInPredecessor)
          (fun i cs =>
             let cs := push_row ConstraintTypeLoop nameStr cs in
             zero_row (insertAtRowInG + i) cs)
          cs ;;
  ret (cs, unsigned_pred rowsInG).

(** [ConstraintSet::AddCustomConstraint (customConstraint)], lines 339-376.
    The caller's object is taken over at a fresh address. *)
Definition AddCustomConstraint (cs : CS.ConstraintSet R)
  (customConstraint : CustomConstraint) : Run (CS.ConstraintSet R * Z) :=
  let insertAtRowInG := size cs in
  let rowsInG := insertAtRowInG + cu_size customConstraint in
  let cIndex := length (CS.constraints cs) in
  let '(p, cs) := make_shared (Custom customConstraint) cs in
  let cs := CS.set_constraints (CS.constraints cs ++ [p]) cs in
  q <- at_ (CS.constraints cs) cIndex ;;
  c <- deref cs q ;;
  let cs := store_at q (addToConstraintSet insertAtRowInG c) cs in
  let nameStr := nameStr_of (cu_name customConstraint) in
  let cs := resize_rows rowsInG cs in
  let cs := reset_d_multdof3_u rowsInG cs in
  cs <- for_ (cu_size customConstraint)
          (fun i cs =>
             let cs := CS.set_name (CS.name cs ++ [nameStr]) cs in
             let cs := CS.set_constraintType
                         (CS.constraintType cs ++ [ConstraintTypeCustom])
                         cs in
             zero_row (insertAtRowInG + i) cs)
          cs ;;
  ret (cs, unsigned_pred rowsInG).

End Registration.

(* ===================================================================== *)
(** ** The model and the collaborators of this file *)
(* ===================================================================== *)

Inductive JointType : Type :=
| JointTypeSpherical
| JointTypeCustom
| JointTypeOther.

(** The members of [Joint] this file reads. *)
Record Joint : Type := {
  mJointType : JointType;
  mDoFCount : nat;
  q_index : nat
}.

(** The members of [Model] this file reads or writes; [dyn] is everything
    else the dynamics engine keeps in the model (velocities, inertias, the
    articulated-body quantities, ...). *)
Record Model (R Dyn : Type) : Type := {
  dof_count : nat;
  q_size : nat;
  qdot_size : nat;
  mBodies_size : nat;
  mJoints : list Joint;
  lambda : list nat;
  X_lambda : list (SpatialTransform R);
  X_base : list (SpatialTransform R);
  dyn : Dyn
}.
Arguments dof_count {R Dyn} m.
Arguments q_size {R Dyn} m.
Arguments qdot_size {R Dyn} m.
Arguments mBodies_size {R Dyn} m.
Arguments mJoints {R Dyn} m.
Arguments lambda {R Dyn} m.
Arguments X_lambda {R Dyn} m.
Arguments X_base {R Dyn} m.
Arguments dyn {R Dyn} m.

Definition set_X_base {R Dyn : Type} (v : list (SpatialTransform R))
  (m : Model R Dyn) : Model R Dyn :=
  {| dof_count := dof_count m; q_size := q_size m; qdot_size := qdot_size m;
     mBodies_size := mBodies_size m; mJoints := mJoints m;
     lambda := lambda m; X_lambda := X_lambda m; X_base := v;
     dyn := dyn m |}.

(** What this file calls and does not define: the dense decompositions of
    the math backend, the sparse factorisation of the joint-space inertia
    matrix, the unconstrained dynamics engine, and the virtual methods of the
    constraint classes.  Each is a function of what it reads to what it
    writes; none of them terminates the process. *)
Class Collaborators (R Dyn : Type) : Type := {
  (** [A.partialPivLu().solve(b)], [A.colPivHouseholderQr().solve(b)],
      [A.householderQr().solve(b)], [A.llt().solve(b)] *)
  partialPivLu_solve : MatrixNd R -> VectorNd R -> VectorNd R;
  colPivHouseholderQr_solve : MatrixNd R -> VectorNd R -> VectorNd R;
  householderQr_solve : MatrixNd R -> VectorNd R -> VectorNd R;
  llt_solve : MatrixNd R -> VectorNd R -> VectorNd R;
  (** [HouseholderQR (M).householderQ()] *)
  householderQ : MatrixNd R -> MatrixNd R;
  (** [LinSolveGaussElimPivot (A, b, x)]: the solution and whether it was
      found. *)
  LinSolveGaussElimPivot : MatrixNd R -> VectorNd R -> VectorNd R
                           -> bool * VectorNd R;
  (** [SparseFactorizeLTL (model, H)], [SparseSolveLTx (model, L, x)],
      [SparseSolveLx (model, L, x)] *)
  SparseFactorizeLTL : Model R Dyn -> MatrixNd R -> MatrixNd R;
  SparseSolveLTx : Model R Dyn -> MatrixNd R -> VectorNd R -> VectorNd R;
  SparseSolveLx : Model R Dyn -> MatrixNd R -> VectorNd R -> VectorNd R;
  (** [X1 * X2] on spatial transforms *)
  st_mul : SpatialTransform R -> SpatialTransform R -> SpatialTransform R;
  (** [UpdateKinematicsCustom (model, Q, QDot, QDDot)], a null pointer being
      [None] *)
  UpdateKinematicsCustom :
    Model R Dyn -> option (VectorNd R) -> option (VectorNd R)
    -> option (VectorNd R) -> Model R Dyn;
  (** [NonlinearEffects (model, Q, QDot, C, f_ext)] *)
  NonlinearEffects :
    Model R Dyn -> VectorNd R -> VectorNd R -> VectorNd R
    -> option (list (SpatialVector R)) -> Model R Dyn * VectorNd R;
  (** [CompositeRigidBodyAlgorithm (model, Q, H, false)] *)
  CompositeRigidBodyAlgorithm :
    Model R Dyn -> VectorNd R -> MatrixNd R -> Model R Dyn * MatrixNd R;
  (** [c->bind (model)] *)
  bind_constraint : Model R Dyn -> Constraint R -> Constraint R;
  (** [c->calcPositionError (model, 0, Q, err, cache, updateKinematics)] *)
  calcPositionError :
    Constraint R -> Model R Dyn -> VectorNd R -> VectorNd R
    -> ConstraintCache R -> bool
    -> Model R Dyn * VectorNd R * ConstraintCache R;
  (** [c->calcConstraintJacobian (model, 0, Q, QDot, G, cache,
      updateKinematics)] *)
  calcConstraintJacobian :
    Constraint R -> Model R Dyn -> VectorNd R -> VectorNd R -> MatrixNd R
    -> ConstraintCache R -> bool
    -> Model R Dyn * MatrixNd R * ConstraintCache R;
  (** [c->calcVelocityError (model, 0, Q, QDot, G, err, cache,
      updateKinematics)] *)
  calcVelocityError :
    Constraint R -> Model R Dyn -> VectorNd R -> VectorNd R -> MatrixNd R
    -> VectorNd R -> ConstraintCache R -> bool
    -> Model R Dyn * VectorNd R * ConstraintCache R;
  (** [c->calcGamma (model, 0, Q, QDot, G, gamma, cache)] *)
  calcGamma :
    Constraint R -> Model R Dyn -> VectorNd R -> VectorNd R -> MatrixNd R
    -> VectorNd R -> ConstraintCache R
    -> Model R Dyn * VectorNd R * ConstraintCache R;
  (** [c->addInBaumgarteStabilizationForces (err, errd, gamma)] *)
  addInBaumgarteStabilizationForces :
    Constraint R -> VectorNd R -> VectorNd R -> VectorNd R -> VectorNd R;
  (** The quaternion step of a spherical joint in [CalcAssemblyQ]:
      [quat = model.GetQuaternion (i, QInit); quat += quat.omegaToQDot (omega);
       quat /= quat.norm(); model.SetQuaternion (i, quat, QInit)], with
      [omega] the three entries of the step at the joint's index. *)
  quaternion_step :
    Model R Dyn -> nat -> VectorNd R -> Vector3d R -> VectorNd R
}.

(* ===================================================================== *)
(** ** [Bind] and [clear] *)
(* ===================================================================== *)

Section Lifecycle.
Context {R Dyn : Type} {SR : Scalar R} {CO : Collaborators R Dyn}.
Variable bc : Build.
Variable uninit : R.

(** [v.resize (n, t)] of a [std::vector]. *)
Definition stdvec_resize {T : Type} (v : list T) (n : nat) (t : T) : list T :=
  firstn n v ++ repeat t (n - length v).

(** [for (i...) constraints[i]->bind (model);] *)
Fixpoint bind_all (model : Model R Dyn) (ps : list nat)
  (cs : CS.ConstraintSet R) : Run (CS.ConstraintSet R) :=
  match ps with
  | [] => ret cs
  | p :: ps' =>
      c <- deref cs p ;;
      bind_all model ps' (store_at p (bind_constraint model c) cs)
  end.

(** The cache after [Bind]: the N-vectors and the 3xN and 6xN matrices are
    resized ([vecNZeros] is set to zero), the rest is untouched. *)
Definition bind_cache (model : Model R Dyn) (c : ConstraintCache R)
  : ConstraintCache R :=
  {| vecNZeros := VectorNd_Zero (qdot_size model);
     vecNA := resize uninit (vecNA c) (qdot_size model);
     vecNB := resize uninit (vecNB c) (qdot_size model);
     vecNC := resize uninit (vecNC c) (qdot_size model);
     vecND := resize uninit (vecND c) (qdot_size model);
     mat3NA := mresize uninit (mat3NA c) 3 (qdot_size model);
     mat3NB := mresize uninit (mat3NB c) 3 (qdot_size model);
     mat3NC := mresize uninit (mat3NC c) 3 (qdot_size model);
     mat3ND := mresize uninit (mat3ND c) 3 (qdot_size model);
     mat6NA := mresize uninit (mat6NA c) 6 (qdot_size model);
     mat6NB := mresize uninit (mat6NB c) 6 (qdot_size model);
     mat6NC := mresize uninit (mat6NC c) 6 (qdot_size model);
     mat6ND := mresize uninit (mat6ND c) 6 (qdot_size model);
     vec3A := vec3A c; vec3B := vec3B c; vec3C := vec3C c;
     vec3D := vec3D c; vec3E := vec3E c; vec3F := vec3F c;
     svecA := svecA c; svecB := svecB c; svecC := svecC c;
     svecD := svecD c; svecE := svecE c; svecF := svecF c;
     stA := stA c; stB := stB c; stC := stC c; stD := stD c;
     mat3A := mat3A c; mat3B := mat3B c; mat3C := mat3C c;
     mat3D := mat3D c; mat3E := mat3E c; mat3F := mat3F c |}.

(** [ConstraintSet::Bind (model)], lines 380-468.  Every [conservativeResize]
    is followed by [setZero], so the workspaces come out as zero matrices and
    vectors of the new sizes.  [Z] has [dof_count - G.rows()] columns: a
    negative size fails the backend's check. *)
Definition Bind (model : Model R Dyn) (cs : CS.ConstraintSet R)
  : Run (CS.ConstraintSet R * bool) :=
  assert_ bc (negb (CS.bound cs)) ;;
  (if CS.bound cs
   then cerr "Error: binding an already bound constraint set!" abort_
   else ret tt) ;;
  cs <- bind_all model (CS.constraints cs) cs ;;
  let n_constr := size cs in
  let n := dof_count model in
  let nb := mBodies_size model in
  let G' := MatrixNd_Zero n_constr n in
  eigen_assert bc (rows G' <=? n) ;;
  ret ({| CS.store := CS.store cs;
          CS.constraints := CS.constraints cs;
          CS.contactConstraints := CS.contactConstraints cs;
          CS.loopConstraints := CS.loopConstraints cs;
          CS.name := CS.name cs;
          CS.constraintType := CS.constraintType cs;
          CS.bound := true;
          CS.linear_solver := CS.linear_solver cs;
          CS.err := CS.err cs;
          CS.errd := CS.errd cs;
          CS.force := CS.force cs;
          CS.impulse := CS.impulse cs;
          CS.v_plus := CS.v_plus cs;
          CS.H := msetZero (mconservativeResize uninit (CS.H cs) n n);
          CS.C := setZero (conservativeResize uninit (CS.C cs) n);
          CS.gamma := setZero (conservativeResize uninit (CS.gamma cs) n_constr);
          CS.G := msetZero (mconservativeResize uninit (CS.G cs) n_constr n);
          CS.A := msetZero (mconservativeResize uninit (CS.A cs)
                              (n + n_constr) (n + n_constr));
          CS.b := setZero (conservativeResize uninit (CS.b cs) (n + n_constr));
          CS.x := setZero (conservativeResize uninit (CS.x cs) (n + n_constr));
          CS.GT_qr := transpose G';
          CS.GT_qr_Q := MatrixNd_Zero n n;
          CS.Y := MatrixNd_Zero n (rows G');
          CS.Z := MatrixNd_Zero n (n - rows G');
          CS.qddot_y := VectorNd_Zero n;
          CS.qddot_z := VectorNd_Zero n;
          CS.K := msetZero (mconservativeResize uninit (CS.K cs)
                              n_constr n_constr);
          CS.a := setZero (conservativeResize uninit (CS.a cs) n_constr);
          CS.QDDot_t := setZero (conservativeResize uninit (CS.QDDot_t cs) n);
          CS.QDDot_0 := setZero (conservativeResize uninit (CS.QDDot_0 cs) n);
          CS.f_t := stdvec_resize (CS.f_t cs) n_constr SpatialVector_Zero;
          CS.f_ext_constraints :=
            stdvec_resize (CS.f_ext_constraints cs) nb SpatialVector_Zero;
          CS.point_accel_0 :=
            stdvec_resize (CS.point_accel_0 cs) n_constr Vector3d_Zero;
          CS.d_pA := repeat SpatialVector_Zero nb;
          CS.d_a := repeat SpatialVector_Zero nb;
          CS.d_u := VectorNd_Zero nb;
          CS.d_IA := repeat SpatialMatrix_Identity nb;
          CS.d_U := repeat SpatialVector_Zero nb;
          CS.d_d := VectorNd_Zero nb;
          CS.d_multdof3_u := repeat Vector3d_Zero nb;
          CS.cache := bind_cache model (CS.cache cs) |}, true).

(** The cache after [clear].  [cache.stA.E.Identity()] calls the static
    function that returns an identity matrix and drops the result: the
    rotations keep their value.  The 6xN matrices are not mentioned. *)
Definition clear_cache (c : ConstraintCache R) : ConstraintCache R :=
  {| vecNZeros := setZero (vecNZeros c);
     vecNA := setZero (vecNA c); vecNB := setZero (vecNB c);
     vecNC := setZero (vecNC c); vecND := setZero (vecND c);
     mat3NA := msetZero (mat3NA c); mat3NB := msetZero (mat3NB c);
     mat3NC := msetZero (mat3NC c); mat3ND := msetZero (mat3ND c);
     mat6NA := mat6NA c; mat6NB := mat6NB c;
     mat6NC := mat6NC c; mat6ND := mat6ND c;
     vec3A := setZero (vec3A c); vec3B := setZero (vec3B c);
     vec3C := setZero (vec3C c); vec3D := setZero (vec3D c);
     vec3E := setZero (vec3E c); vec3F := setZero (vec3F c);
     svecA := setZero (svecA c); svecB := setZero (svecB c);
     svecC := setZero (svecC c); svecD := setZero (svecD c);
     svecE := setZero (svecE c); svecF := setZero (svecF c);
     stA := {| E := E (stA c); r := setZero (r (stA c)) |};
     stB := {| E := E (stB c); r := setZero (r (stB c)) |};
     stC := {| E := E (stC c); r := setZero (r (stC c)) |};
     stD := {| E := E (stD c); r := setZero (r (stD c)) |};
     mat3A := msetZero (mat3A c); mat3B := msetZero (mat3B c);
     mat3C := msetZero (mat3C c); mat3D := msetZero (mat3D c);
     mat3E := msetZero (mat3E c); mat3F := msetZero (mat3F c) |}.

(** [ConstraintSet::clear()], lines 471-558.  [f_t] and [point_accel_0] are
    zeroed twice, which is the same as once. *)
Definition clear (cs : CS.ConstraintSet R) : CS.ConstraintSet R :=
  {| CS.store := CS.store cs;
     CS.constraints := CS.constraints cs;
     CS.contactConstraints := CS.contactConstraints cs;
     CS.loopConstraints := CS.loopConstraints cs;
     CS.name := CS.name cs;
     CS.constraintType := CS.constraintType cs;
     CS.bound := CS.bound cs;
     CS.linear_solver := CS.linear_solver cs;
     CS.err := CS.err cs;
     CS.errd := CS.errd cs;
     CS.force := setZero (CS.force cs);
     CS.impulse := setZero (CS.impulse cs);
     CS.v_plus := CS.v_plus cs;
     CS.H := msetZero (CS.H cs);
     CS.C := setZero (CS.C cs);
     CS.gamma := setZero (CS.gamma cs);
     CS.G := msetZero (CS.G cs);
     CS.A := msetZero (CS.A cs);
     CS.b := setZero (CS.b cs);
     CS.x := setZero (CS.x cs);
     CS.GT_qr := CS.GT_qr cs;
     CS.GT_qr_Q := CS.GT_qr_Q cs;
     CS.Y := CS.Y cs;
     CS.Z := CS.Z cs;
     CS.qddot_y := CS.qddot_y cs;
     CS.qddot_z := CS.qddot_z cs;
     CS.K := msetZero (CS.K cs);
     CS.a := setZero (CS.a cs);
     CS.QDDot_t := setZero (CS.QDDot_t cs);
     CS.QDDot_0 := setZero (CS.QDDot_0 cs);
     CS.f_t := map setZero (map setZero (CS.f_t cs));
     CS.f_ext_constraints := map setZero (CS.f_ext_constraints cs);
     CS.point_accel_0 := map setZero (map setZero (CS.point_accel_0 cs));
     CS.d_pA := map setZero (CS.d_pA cs);
     CS.d_a := map setZero (CS.d_a cs);
     CS.d_u := setZero (CS.d_u cs);
     CS.d_IA := CS.d_IA cs;
     CS.d_U := CS.d_U cs;
     CS.d_d := CS.d_d cs;
     CS.d_multdof3_u := CS.d_multdof3_u cs;
     CS.cache := clear_cache (CS.cache cs) |}.

End Lifecycle.

(* ===================================================================== *)
(** ** The linear solve strategies *)
(* ===================================================================== *)

Section Solvers.
Context {R Dyn : Type} {SR : Scalar R} {SO : ScalarOrd R}
        {CO : Collaborators R Dyn}.
Variable bc : Build.

(** [v[i]] of a [VectorNd]: checked by [eigen_assert]. *)
Definition vec_get (v : VectorNd R) (i : nat) : Run R :=
  eigen_assert bc (i <? length v) ;; ret (nth i v zero).

(** [SolveConstrainedSystemDirect (H, G, c, gamma, lambda, A, b, x,
    linear_solver)], lines 563-610.  Three blocks of [A] and the whole of [b]
    are written; [lambda] is not used; with a selector that is none of the
    three, only the [assert (0)] stands between the switch and the return.
    The result is the workspace [(A, b, x)]. *)
Definition SolveConstrainedSystemDirect (H G : MatrixNd R)
  (c gamma lambda : VectorNd R) (A : MatrixNd R) (b x : VectorNd R)
  (linear_solver : LinearSolver)
  : Run (MatrixNd R * VectorNd R * VectorNd R) :=
  let A := set_block A 0 0 (length c) (length c) H in
  let A := set_block A 0 (length c) (length c) (length gamma) (transpose G) in
  let A := set_block A (length c) 0 (length gamma) (length c) G in
  let b := set_segment b 0 c in
  let b := set_segment b (length c) gamma in
  x <- match linear_solver with
       | LinearSolverPartialPivLU =>
           ret (if RBDL_USE_SIMPLE_MATH bc
                then householderQr_solve A b
                else partialPivLu_solve A b)
       | LinearSolverColPivHouseholderQR =>
           ret (colPivHouseholderQr_solve A b)
       | LinearSolverHouseholderQR =>
           ret (householderQr_solve A b)
       | LinearSolverOther _ =>
           assert_ bc false ;; ret x
       end ;;
  ret (A, b, x).

(** The loop of lines 630-634: every column of [Y] goes through
    [SparseSolveLTx]. *)
Definition solve_columns (model : Model R Dyn) (L Y : MatrixNd R)
  : MatrixNd R :=
  fold_left
    (fun Y i =>
       let Y_col := col_of (block Y 0 i (rows Y) 1) 0 in
       let Y_col := SparseSolveLTx model L Y_col in
       set_block Y 0 i (rows Y) 1 (of_col Y_col))
    (seq 0 (cols Y)) Y.

(** [SolveConstrainedSystemRangeSpaceSparse (model, H, G, c, gamma, qddot,
    lambda, K, a, linear_solver)], lines 614-648.  [H] is factorised in
    place.  The result is [(H, qddot, lambda, K, a)]. *)
Definition SolveConstrainedSystemRangeSpaceSparse (model : Model R Dyn)
  (H G : MatrixNd R) (c gamma : VectorNd R) (linear_solver : LinearSolver)
  : MatrixNd R * VectorNd R * VectorNd R * MatrixNd R * VectorNd R :=
  let H := SparseFactorizeLTL model H in
  let Y := solve_columns model H (transpose G) in
  let z := SparseSolveLTx model H c in
  let K := mmul (transpose Y) Y in
  let a := vsub gamma (mvmul (transpose Y) z) in
  let lambda := llt_solve K a in
  let qddot := vadd c (mvmul (transpose G) lambda) in
  let qddot := SparseSolveLTx model H qddot in
  let qddot := SparseSolveLx model H qddot in
  (H, qddot, lambda, K, a).

(** [SolveConstrainedSystemNullSpace (H, G, c, gamma, qddot, lambda, Y, Z,
    qddot_y, qddot_z, linear_solver)], lines 652-710.  The second switch
    solves with [G * Y], the matrix of the first; under the reduced backend
    its LU case assigns [qddot_y] again and leaves [lambda] alone.  The
    result is [(qddot, lambda, qddot_y, qddot_z)]. *)
Definition SolveConstrainedSystemNullSpace (H G : MatrixNd R)
  (c gamma qddot lambda : VectorNd R) (Y Z : MatrixNd R)
  (qddot_y qddot_z : VectorNd R) (linear_solver : LinearSolver)
  : Run (VectorNd R * VectorNd R * VectorNd R * VectorNd R) :=
  qddot_y <- match linear_solver with
             | LinearSolverPartialPivLU =>
                 ret (if RBDL_USE_SIMPLE_MATH bc
                      then householderQr_solve (mmul G Y) gamma
                      else partialPivLu_solve (mmul G Y) gamma)
             | LinearSolverColPivHouseholderQR =>
                 ret (colPivHouseholderQr_solve (mmul G Y) gamma)
             | LinearSolverHouseholderQR =>
                 ret (householderQr_solve (mmul G Y) gamma)
             | LinearSolverOther _ =>
                 assert_ bc false ;; ret qddot_y
             end ;;
  let qddot_z :=
    llt_solve (mmul (mmul (transpose Z) H) Z)
      (mvmul (transpose Z) (vsub c (mvmul (mmul H Y) qddot_y))) in
  let qddot := vadd (mvmul Y qddot_y) (mvmul Z qddot_z) in
  let rhs := mvmul (transpose Y) (vsub (mvmul H qddot) c) in
  '(qddot_y, lambda) <-
    match linear_solver with
    | LinearSolverPartialPivLU =>
        ret (if RBDL_USE_SIMPLE_MATH bc
             then (householderQr_solve (mmul G Y) gamma, lambda)
             else (qddot_y, partialPivLu_solve (mmul G Y) rhs))
    | LinearSolverColPivHouseholderQR =>
        ret (qddot_y, colPivHouseholderQr_solve (mmul G Y) rhs)
    | LinearSolverHouseholderQR =>
        ret (qddot_y, householderQr_solve (mmul G Y) rhs)
    | LinearSolverOther _ =>
        assert_ bc false ;; ret (qddot_y, lambda)
    end ;;
  ret (qddot, lambda, qddot_y, qddot_z).

(** [SolveLinearSystem (A, b, x, ls)], lines 1669-1703: the result is [x]. *)
Definition SolveLinearSystem (A : MatrixNd R) (b x : VectorNd R)
  (ls : LinearSolver) : Run (VectorNd R) :=
  (if negb (rows A =? length b) || negb (cols A =? length x)
   then cerr "Mismatching sizes." (assert_ bc false ;; abort_)
   else ret tt) ;;
  match ls with
  | LinearSolverPartialPivLU =>
      ret (if RBDL_USE_SIMPLE_MATH bc
           then householderQr_solve A b
           else partialPivLu_solve A b)
  | LinearSolverColPivHouseholderQR => ret (colPivHouseholderQr_solve A b)
  | LinearSolverHouseholderQR => ret (householderQr_solve A b)
  | LinearSolverOther _ =>
      cerr "Error: Invalid linear solver: " (assert_ bc false ;; abort_)
  end.

(** The solve of [K * force = a] in [ForwardDynamicsContactsKokkevis],
    lines 1614-1633: the result is [CS.force].  The reduced backend has one
    solver and no selector. *)
Definition Kokkevis_solve (cs : CS.ConstraintSet R) : Run (VectorNd R) :=
  if RBDL_USE_SIMPLE_MATH bc then
    let '(solve_successful, force) :=
      LinSolveGaussElimPivot (CS.K cs) (CS.a cs) (CS.force cs) in
    assert_ bc solve_successful ;; ret force
  else
    match CS.linear_solver cs with
    | LinearSolverPartialPivLU => ret (partialPivLu_solve (CS.K cs) (CS.a cs))
    | LinearSolverColPivHouseholderQR =>
        ret (colPivHouseholderQr_solve (CS.K cs) (CS.a cs))
    | LinearSolverHouseholderQR =>
        ret (householderQr_solve (CS.K cs) (CS.a cs))
    | LinearSolverOther _ => assert_ bc false ;; ret (CS.force cs)
    end.

(* ===================================================================== *)
(** ** Assembly of the constrained system *)
(* ===================================================================== *)

(** The registry's constraint objects, in registration order. *)
Fixpoint objects (cs : CS.ConstraintSet R) (ps : list nat)
  : Run (list (Constraint R)) :=
  match ps with
  | [] => ret []
  | p :: ps' => c <- deref cs p ;; l <- objects cs ps' ;; ret (c :: l)
  end.

(** [CalcConstraintsPositionError (model, Q, CS, err, update_kinematics)],
    lines 715-732. *)
Definition CalcConstraintsPositionError (model : Model R Dyn)
  (Q : VectorNd R) (cs : CS.ConstraintSet R) (err : VectorNd R)
  (update_kinematics : bool)
  : Run (Model R Dyn * CS.ConstraintSet R * VectorNd R) :=
  assert_ bc (length err =? size cs) ;;
  let model := if update_kinematics
               then UpdateKinematicsCustom model (Some Q) None None
               else model in
  l <- objects cs (CS.constraints cs) ;;
  let '(model, err, cache) :=
    fold_left
      (fun '(model, err, cache) c =>
         calcPositionError c model Q err cache update_kinematics)
      l (model, err, CS.cache cs) in
  ret (model, CS.set_cache cache cs, err).

(** [CalcConstraintsJacobian (model, Q, CS, G, update_kinematics)],
    lines 736-751. *)
Definition CalcConstraintsJacobian (model : Model R Dyn)
  (Q : VectorNd R) (cs : CS.ConstraintSet R) (G : MatrixNd R)
  (update_kinematics : bool)
  : Run (Model R Dyn * CS.ConstraintSet R * MatrixNd R) :=
  let model := if update_kinematics
               then UpdateKinematicsCustom model (Some Q) None None
               else model in
  l <- objects cs (CS.constraints cs) ;;
  let '(model, G, cache) :=
    fold_left
      (fun '(model, G, cache) c =>
         calcConstraintJacobian c model Q (vecNZeros cache) G cache
           update_kinematics)
      l (model, G, CS.cache cs) in
  ret (model, CS.set_cache cache cs, G).

(** [CalcConstraintsVelocityError (model, Q, QDot, CS, err,
    update_kinematics)], lines 755-772: the Jacobian goes to [CS.G]. *)
Definition CalcConstraintsVelocityError (model : Model R Dyn)
  (Q QDot : VectorNd R) (cs : CS.ConstraintSet R) (err : VectorNd R)
  (update_kinematics : bool)
  : Run (Model R Dyn * CS.ConstraintSet R * VectorNd R) :=
  '(model, cs, G) <-
    CalcConstraintsJacobian model Q cs (CS.G cs) update_kinematics ;;
  let cs := CS.set_G G cs in
  l <- objects cs (CS.constraints cs) ;;
  let '(model, err, cache) :=
    fold_left
      (fun '(model, err, cache) c =>
         calcVelocityError c model Q QDot (CS.G cs) err cache
           update_kinematics)
      l (model, err, CS.cache cs) in
  ret (model, CS.set_cache cache cs, err).

(** [for (i = 1; i < model.mBodies.size(); i++)
      model.X_base[i] = model.X_lambda[i] * model.X_base[model.lambda[i]];] *)
Definition update_X_base (model : Model R Dyn) : Run (Model R Dyn) :=
  for_from 1 (mBodies_size model - 1)
    (fun i model =>
       Xl <- at_ (X_lambda model) i ;;
       li <- at_ (lambda model) i ;;
       Xb <- at_ (X_base model) li ;;
       v <- stdvec_set (X_base model) i (st_mul Xl Xb) ;;
       ret (set_X_base v model))
    model.

(** [CalcConstrainedSystemVariables (model, Q, QDot, Tau, CS, f_ext)],
    lines 776-825. *)
Definition CalcConstrainedSystemVariables (model : Model R Dyn)
  (Q QDot Tau : VectorNd R) (cs : CS.ConstraintSet R)
  (f_ext : option (list (SpatialVector R)))
  : Run (Model R Dyn * CS.ConstraintSet R) :=
  let '(model, C) := NonlinearEffects model Q QDot (CS.C cs) f_ext in
  let cs := CS.set_C C cs in
  assert_ bc ((cols (CS.H cs) =? dof_count model)
              && (rows (CS.H cs) =? dof_count model)) ;;
  let cs := CS.set_H (msetZero (CS.H cs)) cs in
  let '(model, H) := CompositeRigidBodyAlgorithm model Q (CS.H cs) in
  let cs := CS.set_H H cs in
  model <- update_X_base model ;;
  '(model, cs, G) <- CalcConstraintsJacobian model Q cs (CS.G cs) false ;;
  let cs := CS.set_G G cs in
  '(model, cs, e) <- CalcConstraintsPositionError model Q cs (CS.err cs)
                       false ;;
  let cs := CS.set_err e cs in
  '(model, cs, e) <- CalcConstraintsVelocityError model Q QDot cs
                       (CS.errd cs) false ;;
  let cs := CS.set_errd e cs in
  let cs := CS.set_QDDot_0 (setZero (CS.QDDot_0 cs)) cs in
  let model := UpdateKinematicsCustom model None None
                 (Some (CS.QDDot_0 cs)) in
  l <- objects cs (CS.constraints cs) ;;
  let '(model, cs) :=
    fold_left
      (fun '(model, cs) c =>
         let '(model, gamma, cache) :=
           calcGamma c model Q QDot (CS.G cs) (CS.gamma cs) (CS.cache cs) in
         let cs := CS.set_cache cache (CS.set_gamma gamma cs) in
         if isBaumgarteStabilizationEnabled c
         then (model,
               CS.set_gamma
                 (addInBaumgarteStabilizationForces c (CS.err cs)
                    (CS.errd cs) (CS.gamma cs)) cs)
         else (model, cs))
      l (model, cs) in
  ret (model, cs).

(* ===================================================================== *)
(** ** Forward dynamics and impulses *)
(* ===================================================================== *)

(** [for (i = 0; i < n; i++) dst[i] = f (src[off + i]);] *)
Definition copy_back (f : R -> R) (n off : nat) (src dst : VectorNd R)
  : Run (VectorNd R) :=
  for_ n (fun i dst => t <- vec_get src (off + i) ;; vec_set bc dst i (f t))
    dst.

(** [ForwardDynamicsConstraintsDirect (model, Q, QDot, Tau, CS, QDDot,
    f_ext)], lines 990-1014. *)
Definition ForwardDynamicsConstraintsDirect (model : Model R Dyn)
  (Q QDot Tau : VectorNd R) (cs : CS.ConstraintSet R) (QDDot : VectorNd R)
  (f_ext : option (list (SpatialVector R)))
  : Run (Model R Dyn * CS.ConstraintSet R * VectorNd R) :=
  '(model, cs) <- CalcConstrainedSystemVariables model Q QDot Tau cs f_ext ;;
  '(A, b, x) <-
    SolveConstrainedSystemDirect (CS.H cs) (CS.G cs) (vsub Tau (CS.C cs))
      (CS.gamma cs) (CS.force cs) (CS.A cs) (CS.b cs) (CS.x cs)
      (CS.linear_solver cs) ;;
  let cs := CS.set_x x (CS.set_b b (CS.set_A A cs)) in
  QDDot <- copy_back (fun t => t) (dof_count model) 0 (CS.x cs) QDDot ;;
  force <- copy_back opp (size cs) (dof_count model) (CS.x cs)
             (CS.force cs) ;;
  ret (model, CS.set_force force cs, QDDot).

(** [ForwardDynamicsConstraintsRangeSpaceSparse (model, Q, QDot, Tau, CS,
    QDDot, f_ext)], lines 1018-1031. *)
Definition ForwardDynamicsConstraintsRangeSpaceSparse (model : Model R Dyn)
  (Q QDot Tau : VectorNd R) (cs : CS.ConstraintSet R) (QDDot : VectorNd R)
  (f_ext : option (list (SpatialVector R)))
  : Run (Model R Dyn * CS.ConstraintSet R * VectorNd R) :=
  '(model, cs) <- CalcConstrainedSystemVariables model Q QDot Tau cs f_ext ;;
  let '(H, qddot, lambda, K, a) :=
    SolveConstrainedSystemRangeSpaceSparse model (CS.H cs) (CS.G cs)
      (vsub Tau (CS.C cs)) (CS.gamma cs) (CS.linear_solver cs) in
  ret (model,
       CS.set_a a (CS.set_K K (CS.set_force lambda (CS.set_H H cs))),
       qddot).

(** [CS.GT_qr.compute (CS.G.transpose()); CS.GT_qr_Q = householderQ;
     CS.Y = CS.GT_qr_Q.block (0, 0, n, CS.G.rows());
     CS.Z = CS.GT_qr_Q.block (0, CS.G.rows(), n, n - CS.G.rows());]
    with [n] the number of rows of the velocity vector. *)
Definition null_space_basis (n : nat) (cs : CS.ConstraintSet R)
  : CS.ConstraintSet R :=
  let cs := CS.set_GT_qr (transpose (CS.G cs)) cs in
  let cs := CS.set_GT_qr_Q (householderQ (CS.GT_qr cs)) cs in
  let cs := CS.set_Y (block (CS.GT_qr_Q cs) 0 0 n (rows (CS.G cs))) cs in
  CS.set_Z (block (CS.GT_qr_Q cs) 0 (rows (CS.G cs)) n
              (n - rows (CS.G cs))) cs.

(** [ForwardDynamicsConstraintsNullSpace (model, Q, QDot, Tau, CS, QDDot,
    f_ext)], lines 1035-1062. *)
Definition ForwardDynamicsConstraintsNullSpace (model : Model R Dyn)
  (Q QDot Tau : VectorNd R) (cs : CS.ConstraintSet R) (QDDot : VectorNd R)
  (f_ext : option (list (SpatialVector R)))
  : Run (Model R Dyn * CS.ConstraintSet R * VectorNd R) :=
  '(model, cs) <- CalcConstrainedSystemVariables model Q QDot Tau cs f_ext ;;
  let cs := null_space_basis (length QDot) cs in
  '(qddot, lambda, qddot_y, qddot_z) <-
    SolveConstrainedSystemNullSpace (CS.H cs) (CS.G cs)
      (vsub Tau (CS.C cs)) (CS.gamma cs) QDDot (CS.force cs) (CS.Y cs)
      (CS.Z cs) (CS.qddot_y cs) (CS.qddot_z cs) (CS.linear_solver cs) ;;
  ret (model,
       CS.set_qddot_z qddot_z
         (CS.set_qddot_y qddot_y (CS.set_force lambda cs)),
       qddot).

(** [ComputeConstraintImpulsesDirect (model, Q, QDotMinus, CS, QDotPlus)],
    lines 1066-1093. *)
Definition ComputeConstraintImpulsesDirect (model : Model R Dyn)
  (Q QDotMinus : VectorNd R) (cs : CS.ConstraintSet R)
  (QDotPlus : VectorNd R)
  : Run (Model R Dyn * CS.ConstraintSet R * VectorNd R) :=
  let model := UpdateKinematicsCustom model (Some Q) None None in
  let '(model, H) := CompositeRigidBodyAlgorithm model Q (CS.H cs) in
  let cs := CS.set_H H cs in
  '(model, cs, G) <- CalcConstraintsJacobian model Q cs (CS.G cs) false ;;
  let cs := CS.set_G G cs in
  '(A, b, x) <-
    SolveConstrainedSystemDirect (CS.H cs) (CS.G cs)
      (mvmul (CS.H cs) QDotMinus) (CS.v_plus cs) (CS.impulse cs) (CS.A cs)
      (CS.b cs) (CS.x cs) (CS.linear_solver cs) ;;
  let cs := CS.set_x x (CS.set_b b (CS.set_A A cs)) in
  QDotPlus <- copy_back (fun t => t) (dof_count model) 0 (CS.x cs)
                QDotPlus ;;
  impulse <- copy_back (fun t => t) (size cs) (dof_count model) (CS.x cs)
               (CS.impulse cs) ;;
  ret (model, CS.set_impulse impulse cs, QDotPlus).

(** [ComputeConstraintImpulsesRangeSpaceSparse (model, Q, QDotMinus, CS,
    QDotPlus)], lines 1097-1115. *)
Definition ComputeConstraintImpulsesRangeSpaceSparse (model : Model R Dyn)
  (Q QDotMinus : VectorNd R) (cs : CS.ConstraintSet R)
  (QDotPlus : VectorNd R)
  : Run (Model R Dyn * CS.ConstraintSet R * VectorNd R) :=
  let model := UpdateKinematicsCustom model (Some Q) None None in
  let '(model, H) := CompositeRigidBodyAlgorithm model Q (CS.H cs) in
  let cs := CS.set_H H cs in
  '(model, cs, G) <- CalcConstraintsJacobian model Q cs (CS.G cs) false ;;
  let cs := CS.set_G G cs in
  let '(H, qdotplus, lambda, K, a) :=
    SolveConstrainedSystemRangeSpaceSparse model (CS.H cs) (CS.G cs)
      (mvmul (CS.H cs) QDotMinus) (CS.v_plus cs) (CS.linear_solver cs) in
  ret (model,
       CS.set_a a (CS.set_K K (CS.set_impulse lambda (CS.set_H H cs))),
       qdotplus).

(** [ComputeConstraintImpulsesNullSpace (model, Q, QDotMinus, CS,
    QDotPlus)], lines 1119-1144. *)
Definition ComputeConstraintImpulsesNullSpace (model : Model R Dyn)
  (Q QDotMinus : VectorNd R) (cs : CS.ConstraintSet R)
  (QDotPlus : VectorNd R)
  : Run (Model R Dyn * CS.ConstraintSet R * VectorNd R) :=
  let model := UpdateKinematicsCustom model (Some Q) None None in
  let '(model, H) := CompositeRigidBodyAlgorithm model Q (CS.H cs) in
  let cs := CS.set_H H cs in
  '(model, cs, G) <- CalcConstraintsJacobian model Q cs (CS.G cs) false ;;
  let cs := CS.set_G G cs in
  let cs := null_space_basis (length QDotMinus) cs in
  '(qdotplus, lambda, qddot_y, qddot_z) <-
    SolveConstrainedSystemNullSpace (CS.H cs) (CS.G cs)
      (mvmul (CS.H cs) QDotMinus) (CS.v_plus cs) QDotPlus (CS.impulse cs)
      (CS.Y cs) (CS.Z cs) (CS.qddot_y cs) (CS.qddot_z cs)
      (CS.linear_solver cs) ;;
  ret (model,
       CS.set_qddot_z qddot_z
         (CS.set_qddot_y qddot_y (CS.set_impulse lambda cs)),
       qdotplus).

(* ===================================================================== *)
(** ** Assembly projection: [CalcAssemblyQ] and [CalcAssemblyQDot] *)
(* ===================================================================== *)

Variable uninit : R.

(** [MatrixNd M (r, c);]: nothing is initialised. *)
Definition MatrixNd_uninit (r c : nat) : MatrixNd R :=
  {| rows := r; cols := c; coeff := fun _ _ => uninit |}.

(** [for (i = 0; i < weights.size(); ++i) A(i,i) = weights[i];] *)
Definition set_weights (weights : VectorNd R) (A : MatrixNd R)
  : MatrixNd R :=
  fold_left (fun A i => set_coeff A i i (nth i weights zero))
    (seq 0 (length weights)) A.

(** What the iteration of [CalcAssemblyQ] carries from one pass to the next:
    the model and the registry (their caches change), the by-value [QInit],
    the workspace [A], [b], [x], the step [d] and the error [e]. *)
Record AssemblyState : Type := {
  as_model : Model R Dyn;
  as_cs : CS.ConstraintSet R;
  as_QInit : VectorNd R;
  as_A : MatrixNd R;
  as_b : VectorNd R;
  as_x : VectorNd R;
  as_d : VectorNd R;
  as_e : VectorNd R;
  as_constraintJac : MatrixNd R
}.

(** The update of [QInit] by the step [d], lines 895-916: a spherical joint
    goes through its quaternion, any other joint adds its entries of [d]. *)
Definition update_QInit (model : Model R Dyn) (d QInit : VectorNd R)
  : Run (VectorNd R) :=
  for_ (length (mJoints model))
    (fun i QInit =>
       j <- at_ (mJoints model) i ;;
       match mJointType j with
       | JointTypeSpherical =>
           ret (quaternion_step model i QInit (segment d (q_index j) 3))
       | _ =>
           let qIdx := q_index j in
           for_ (mDoFCount j)
             (fun k QInit =>
                q <- vec_get QInit (qIdx + k) ;;
                t <- vec_get d (qIdx + k) ;;
                vec_set bc QInit (qIdx + k) (add q t))
             QInit
       end)
    QInit.

(** One pass of the loop of lines 879-926, up to and including the update of
    the error. *)
Definition assembly_step (st : AssemblyState) : Run AssemblyState :=
  let model := as_model st in
  let cs := as_cs st in
  let n := dof_count model in
  let constraintJac := msetZero (as_constraintJac st) in
  '(model, cs, constraintJac) <-
    CalcConstraintsJacobian model (as_QInit st) cs constraintJac true ;;
  let A := set_block (as_A st) n 0 (size cs) n constraintJac in
  let A := set_block A 0 n n (size cs) (transpose constraintJac) in
  let b := set_segment (as_b st) n (vopp (as_e st)) in
  x <- SolveLinearSystem A b (as_x st) (CS.linear_solver cs) ;;
  let d := segment x 0 n in
  QInit <- update_QInit model d (as_QInit st) ;;
  '(model, cs, e) <- CalcConstraintsPositionError model QInit cs (as_e st)
                       true ;;
  ret {| as_model := model; as_cs := cs; as_QInit := QInit; as_A := A;
         as_b := b; as_x := x; as_d := d; as_e := e;
         as_constraintJac := constraintJac |}.

(** [e.norm() < tolerance && d.norm() < tolerance] *)
Definition converged (tolerance : R) (st : AssemblyState) : bool :=
  ltb (norm (as_e st)) tolerance && ltb (norm (as_d st)) tolerance.

(** [for (it = 0; it < max_iter; ++it) { ...; if (...) return true; }
     return false;] with the state at the return. *)
Fixpoint assembly_loop (tolerance : R) (max_iter : nat) (st : AssemblyState)
  : Run (AssemblyState * bool) :=
  match max_iter with
  | 0 => ret (st, false)
  | S k =>
      st <- assembly_step st ;;
      if converged tolerance st then ret (st, true)
      else assembly_loop tolerance k st
  end.

(** The state at the entry of the loop: the workspace as it is declared in
    lines 856-867 ([A] zero with the weights on its diagonal, [b], [x] and
    [d] zero, the Jacobian not initialised), and the model, the registry and
    the error as the first [CalcConstraintsPositionError] left them. *)
Definition assembly_start (model : Model R Dyn) (cs : CS.ConstraintSet R)
  (QInit weights : VectorNd R) (model1 : Model R Dyn)
  (cs1 : CS.ConstraintSet R) (e : VectorNd R) : AssemblyState :=
  let n := dof_count model in
  {| as_model := model1; as_cs := cs1; as_QInit := QInit;
     as_A := set_weights weights (MatrixNd_Zero (size cs + n) (size cs + n));
     as_b := VectorNd_Zero (size cs + n);
     as_x := VectorNd_Zero (size cs + n);
     as_d := VectorNd_Zero n;
     as_e := e;
     as_constraintJac := MatrixNd_uninit (size cs) n |}.

(** [n] passes of the loop, none of which ends it: every pass returns and
    leaves the error or the step at or above the tolerance. *)
Inductive passes (tolerance : R)
  : nat -> AssemblyState -> AssemblyState -> Prop :=
| passes_0 : forall st, passes tolerance 0 st st
| passes_S : forall n st st1 st',
    assembly_step st = Done st1 ->
    converged tolerance st1 = false ->
    passes tolerance n st1 st' ->
    passes tolerance (S n) st st'.

(** [CalcAssemblyQ (model, QInit, cs, Q, weights, tolerance, max_iter)],
    lines 829-931.  The position error and the Jacobian are computed with the
    default of their last parameter, [update_kinematics = true].  The result
    is the model, the registry, [Q] and the returned flag. *)
Definition CalcAssemblyQ (model : Model R Dyn) (QInit : VectorNd R)
  (cs : CS.ConstraintSet R) (Q weights : VectorNd R) (tolerance : R)
  (max_iter : nat)
  : Run (Model R Dyn * CS.ConstraintSet R * VectorNd R * bool) :=
  (if negb (length Q =? q_size model)
   then cerr "Incorrect Q vector size." (assert_ bc false ;; abort_)
   else ret tt) ;;
  (if negb (length QInit =? q_size model)
   then cerr "Incorrect QInit vector size." (assert_ bc false ;; abort_)
   else ret tt) ;;
  (if negb (length weights =? dof_count model)
   then cerr "Incorrect weights vector size." (assert_ bc false ;; abort_)
   else ret tt) ;;
  '(model1, cs1, e) <-
    CalcConstraintsPositionError model QInit cs (VectorNd_Zero (size cs))
      true ;;
  if ltb (norm e) tolerance then ret (model1, cs1, QInit, true)
  else
    '(st, ok) <-
      assembly_loop tolerance max_iter
        (assembly_start model cs QInit weights model1 cs1 e) ;;
    ret (as_model st, as_cs st, as_QInit st, ok).

(** [for (i...) { A(i,i) = weights[i]; b[i] = weights[i] * QDotInit[i]; }] *)
Definition set_weights_rhs (weights QDotInit : VectorNd R)
  (Ab : MatrixNd R * VectorNd R) : Run (MatrixNd R * VectorNd R) :=
  for_ (length weights)
    (fun i '(A, b) =>
       w <- vec_get weights i ;;
       q <- vec_get QDotInit i ;;
       b <- vec_set bc b i (mul w q) ;;
       ret (set_coeff A i i w, b))
    Ab.

(** [CalcAssemblyQDot (model, Q, QDotInit, cs, QDot, weights)],
    lines 935-986. *)
Definition CalcAssemblyQDot (model : Model R Dyn) (Q QDotInit : VectorNd R)
  (cs : CS.ConstraintSet R) (QDot weights : VectorNd R)
  : Run (Model R Dyn * CS.ConstraintSet R * VectorNd R) :=
  (if negb (length QDot =? dof_count model)
   then cerr "Incorrect QDot vector size." (assert_ bc false ;; abort_)
   else ret tt) ;;
  (if negb (length Q =? q_size model)
   then cerr "Incorrect Q vector size." (assert_ bc false ;; abort_)
   else ret tt) ;;
  (if negb (length QDotInit =? length QDot)
   then cerr "Incorrect QDotInit vector size." (assert_ bc false ;; abort_)
   else ret tt) ;;
  (if negb (length weights =? length QDot)
   then cerr "Incorrect weight vector size." (assert_ bc false ;; abort_)
   else ret tt) ;;
  let n := dof_count model in
  let constraintJac := MatrixNd_Zero (size cs) n in
  let A := MatrixNd_Zero (size cs + n) (size cs + n) in
  let b := VectorNd_Zero (size cs + n) in
  let x := VectorNd_Zero (size cs + n) in
  '(A, b) <- set_weights_rhs weights QDotInit (A, b) ;;
  '(model, cs, constraintJac) <-
    CalcConstraintsJacobian model Q cs constraintJac true ;;
  let A := set_block A n 0 (size cs) n constraintJac in
  let A := set_block A 0 n n (size cs) (transpose constraintJac) in
  x <- SolveLinearSystem A b x (CS.linear_solver cs) ;;
  ret (model, cs, segment x 0 n).

End Solvers.

(* ===================================================================== *)
(** ** Carriers: IEEE binary64 numbers and rationals *)
(* ===================================================================== *)

(** The C++ [double]: Rocq's primitive binary64 floats. *)
#[export] Instance Scalar_float : Scalar float := {|
  zero := 0%float;
  one := 1%float;
  add := PrimFloat.add;
  sub := PrimFloat.sub;
  mul := PrimFloat.mul;
  opp := PrimFloat.opp
|}.

#[export] Instance ScalarOrd_float : ScalarOrd float := {|
  ltb := PrimFloat.ltb;
  fabs := PrimFloat.abs;
  sqrt := PrimFloat.sqrt;
  epsilon := 0x1p-52%float;
  of_nat := fun n => Nat.iter n (fun y => PrimFloat.add y 1%float) 0%float
|}.

(** Exact arithmetic, for what the solvers compute up to rounding. *)
#[export] Instance Scalar_Q : Scalar Q := {|
  zero := 0%Q;
  one := 1%Q;
  add := Qplus;
  sub := Qminus;
  mul := Qmult;
  opp := Qopp
|}.

(** A registry as its constructor leaves it: nothing registered, unbound,
    every vector and matrix empty. *)
Definition empty_cache {R : Type} {SR : Scalar R} : ConstraintCache R := {|
  vecNZeros := []; vecNA := []; vecNB := []; vecNC := []; vecND := [];
  mat3NA := MatrixNd_Zero 0 0; mat3NB := MatrixNd_Zero 0 0;
  mat3NC := MatrixNd_Zero 0 0; mat3ND := MatrixNd_Zero 0 0;
  mat6NA := MatrixNd_Zero 0 0; mat6NB := MatrixNd_Zero 0 0;
  mat6NC := MatrixNd_Zero 0 0; mat6ND := MatrixNd_Zero 0 0;
  vec3A := Vector3d_Zero; vec3B := Vector3d_Zero; vec3C := Vector3d_Zero;
  vec3D := Vector3d_Zero; vec3E := Vector3d_Zero; vec3F := Vector3d_Zero;
  svecA := SpatialVector_Zero; svecB := SpatialVector_Zero;
  svecC := SpatialVector_Zero; svecD := SpatialVector_Zero;
  svecE := SpatialVector_Zero; svecF := SpatialVector_Zero;
  stA := SpatialTransform_Identity; stB := SpatialTransform_Identity;
  stC := SpatialTransform_Identity; stD := SpatialTransform_Identity;
  mat3A := MatrixNd_Zero 3 3; mat3B := MatrixNd_Zero 3 3;
  mat3C := MatrixNd_Zero 3 3; mat3D := MatrixNd_Zero 3 3;
  mat3E := MatrixNd_Zero 3 3; mat3F := MatrixNd_Zero 3 3
|}.

Definition empty_set {R : Type} {SR : Scalar R} (ls : LinearSolver)
  : CS.ConstraintSet R := {|
  CS.store := []; CS.constraints := []; CS.contactConstraints := [];
  CS.loopConstraints := []; CS.name := []; CS.constraintType := [];
  CS.bound := false; CS.linear_solver := ls;
  CS.err := []; CS.errd := []; CS.force := []; CS.impulse := [];
  CS.v_plus := [];
  CS.H := MatrixNd_Zero 0 0; CS.C := []; CS.gamma := [];
  CS.G := MatrixNd_Zero 0 0; CS.A := MatrixNd_Zero 0 0; CS.b := [];
  CS.x := [];
  CS.GT_qr := MatrixNd_Zero 0 0; CS.GT_qr_Q := MatrixNd_Zero 0 0;
  CS.Y := MatrixNd_Zero 0 0; CS.Z := MatrixNd_Zero 0 0;
  CS.qddot_y := []; CS.qddot_z := [];
  CS.K := MatrixNd_Zero 0 0; CS.a := []; CS.QDDot_t := []; CS.QDDot_0 := [];
  CS.f_t := []; CS.f_ext_constraints := []; CS.point_accel_0 := [];
  CS.d_pA := []; CS.d_a := []; CS.d_u := []; CS.d_IA := []; CS.d_U := [];
  CS.d_d := []; CS.d_multdof3_u := [];
  CS.cache := empty_cache
|}.

(* ===================================================================== *)
(** ** A small mechanism to run the code on *)
(* ===================================================================== *)

(** Division and the test for zero, which Gaussian elimination needs. *)
Class ScalarDiv (R : Type) : Type := {
  div : R -> R -> R;
  is_zero : R -> bool
}.

#[export] Instance ScalarDiv_float : ScalarDiv float := {|
  div := PrimFloat.div;
  is_zero := fun t => PrimFloat.eqb t 0%float
|}.

#[export] Instance ScalarDiv_Q : ScalarDiv Q := {|
  div := fun p q => Qred (Qdiv p q);
  is_zero := fun t => Qeq_bool t 0%Q
|}.

Section Fixture.
Context {R : Type} {SR : Scalar R} {SD : ScalarDiv R}.

(** *** Gauss-Jordan elimination on the rows of the augmented matrix *)

Definition scale_row (t : R) (row : list R) : list R :=
  map (fun c => div c t) row.

(** [row - row[k] * pivot_row] *)
Definition eliminate (k : nat) (pivot_row row : list R) : list R :=
  zipWith sub row (map (mul (nth k row zero)) pivot_row).

(** The first row with a non-zero entry in column [k], and the others. *)
Fixpoint find_pivot (k : nat) (rs : list (list R))
  : option (list R * list (list R)) :=
  match rs with
  | [] => None
  | row :: rs' =>
      if is_zero (nth k row zero) then
        match find_pivot k rs' with
        | Some (p, others) => Some (p, row :: others)
        | None => None
        end
      else Some (row, rs')
  end.

(** Columns [k], [k+1], ... of the rows still to do; [done] holds the rows
    already reduced, in order. *)
Fixpoint gauss_jordan_from (n k : nat) (done todo : list (list R))
  : list (list R) :=
  match n with
  | 0 => done ++ todo
  | S n' =>
      match find_pivot k todo with
      | None => done ++ todo
      | Some (p, others) =>
          let p := scale_row (nth k p zero) p in
          gauss_jordan_from n' (S k)
            (map (eliminate k p) done ++ [p])
            (map (eliminate k p) others)
      end
  end.

(** The solution of [A * x = b] for a square, regular [A]. *)
Definition gauss_jordan (A : MatrixNd R) (b : VectorNd R) : VectorNd R :=
  let augmented :=
    map (fun i => row_of A i ++ [nth i b zero]) (seq 0 (rows A)) in
  map (fun row => nth (cols A) row zero)
    (gauss_jordan_from (rows A) 0 [] augmented).

(** *** A unit point mass on three prismatic joints

    The body hangs on three prismatic joints along x, y and z (the two
    intermediate bodies have no mass), so the generalised coordinates are the
    position of the mass: the joint-space inertia matrix is the identity, the
    bias force is minus the weight, and the Jacobian of a point of the body
    is the identity.  [dyn] holds the gravity vector.

    A contact constraint on the body has, for every normal, that normal as
    its row of the Jacobian, and no position error and no bias.  The custom
    constraint number [k] holds coordinate [k] at one: its error is
    [Q[k] - 1] and its row of the Jacobian is the [k]-th unit vector. *)

Definition point_mass (gravity : Vector3d R) : Model R (Vector3d R) := {|
  dof_count := 3;
  q_size := 3;
  qdot_size := 3;
  mBodies_size := 4;
  mJoints := [ {| mJointType := JointTypeOther; mDoFCount := 0; q_index := 0 |};
               {| mJointType := JointTypeOther; mDoFCount := 1; q_index := 0 |};
               {| mJointType := JointTypeOther; mDoFCount := 1; q_index := 1 |};
               {| mJointType := JointTypeOther; mDoFCount := 1; q_index := 2 |} ];
  lambda := [0; 0; 1; 2];
  X_lambda := repeat SpatialTransform_Identity 4;
  X_base := repeat SpatialTransform_Identity 4;
  dyn := gravity
|}.

(** The rows of the Jacobian a constraint contributes. *)
Definition pm_rows (c : Constraint R) : list (list R) :=
  match c with
  | Contact c => cc_normals c
  | Loop l => map (fun _ => [zero; zero; zero]) (lc_axes l)
  | Custom u =>
      map (fun _ => set_nth [zero; zero; zero] (cu_impl u) one)
        (seq 0 (cu_size u))
  end.

(** Writes [f i] to the rows [row + i] of [v], for [i < n]. *)
Definition write_rows (row n : nat) (f : nat -> R) (v : VectorNd R)
  : VectorNd R :=
  fold_left (fun v i => set_nth v (row + i) (f i)) (seq 0 n) v.

Definition pm_Jacobian (c : Constraint R) (G : MatrixNd R) : MatrixNd R :=
  set_block G (getConstraintIndex c) 0 (getConstraintSize c) 3
    (of_rows (pm_rows c)).

Definition pm_position_error (c : Constraint R) (Q err : VectorNd R)
  : VectorNd R :=
  write_rows (getConstraintIndex c) (getConstraintSize c)
    (fun _ =>
       match c with
       | Custom u => sub (nth (cu_impl u) Q zero) one
       | _ => zero
       end)
    err.

Definition pm_velocity_error (c : Constraint R) (QDot : VectorNd R)
  (G : MatrixNd R) (errd : VectorNd R) : VectorNd R :=
  write_rows (getConstraintIndex c) (getConstraintSize c)
    (fun i => dot (row_of G (getConstraintIndex c + i)) QDot)
    errd.

#[export] Instance PointMass : Collaborators R (Vector3d R) := {|
  partialPivLu_solve := gauss_jordan;
  colPivHouseholderQr_solve := gauss_jordan;
  householderQr_solve := gauss_jordan;
  llt_solve := gauss_jordan;
  (* the Jacobians used below have a transpose that is upper triangular
     already: every Householder reflection is the identity *)
  householderQ := fun M => MatrixNd_Identity (rows M);
  LinSolveGaussElimPivot := fun A b _ => (true, gauss_jordan A b);
  (* the inertia matrix is the identity, and so is its factor *)
  SparseFactorizeLTL := fun _ H => H;
  SparseSolveLTx := fun _ _ v => v;
  SparseSolveLx := fun _ _ v => v;
  (* no joint rotates: the translations add up *)
  st_mul := fun X1 X2 => {| E := E X1; r := vadd (r X2) (r X1) |};
  UpdateKinematicsCustom := fun model _ _ _ => model;
  NonlinearEffects := fun model _ _ _ _ => (model, vopp (dyn model));
  CompositeRigidBodyAlgorithm := fun model _ H =>
    (model, set_block H 0 0 3 3 (MatrixNd_Identity 3));
  bind_constraint := fun _ c => c;
  calcPositionError := fun c model Q err cache _ =>
    (model, pm_position_error c Q err, cache);
  calcConstraintJacobian := fun c model _ _ G cache _ =>
    (model, pm_Jacobian c G, cache);
  calcVelocityError := fun c model _ QDot G errd cache _ =>
    (model, pm_velocity_error c QDot G errd, cache);
  calcGamma := fun c model _ _ _ gamma cache =>
    (model,
     write_rows (getConstraintIndex c) (getConstraintSize c)
       (fun _ => zero) gamma,
     cache);
  addInBaumgarteStabilizationForces := fun _ _ _ gamma => gamma;
  quaternion_step := fun _ _ QInit _ => QInit
|}.

End Fixture.

(* ===================================================================== *)
(** ** Invariants of the registry *)
(* ===================================================================== *)

Section Invariants.
Context {R : Type}.

(** The row count of every registered constraint, in registration order (a
    pointer to nothing counts for no row). *)
Definition constraint_rows (cs : CS.ConstraintSet R) : list nat :=
  map (fun p =>
         match nth_error (CS.store cs) p with
         | Some c => getConstraintSize c
         | None => 0
         end)
      (CS.constraints cs).

Definition total_rows (cs : CS.ConstraintSet R) : nat :=
  list_sum (constraint_rows cs).

(** Row accounting: the rows of the registered constraints add up to the
    length of every per-row array. *)
Definition row_accounting (cs : CS.ConstraintSet R) : Prop :=
  length (CS.err cs) = total_rows cs /\
  length (CS.errd cs) = total_rows cs /\
  length (CS.force cs) = total_rows cs /\
  length (CS.impulse cs) = total_rows cs /\
  length (CS.v_plus cs) = total_rows cs /\
  length (CS.name cs) = total_rows cs /\
  length (CS.constraintType cs) = total_rows cs.

Definition is_contact_at (cs : CS.ConstraintSet R) (p : nat) : bool :=
  match nth_error (CS.store cs) p with
  | Some (Contact _) => true
  | _ => false
  end.

Definition is_loop_at (cs : CS.ConstraintSet R) (p : nat) : bool :=
  match nth_error (CS.store cs) p with
  | Some (Loop _) => true
  | _ => false
  end.

(** The typed lists hold the contact and the loop constraints of
    [constraints], in the same order, and every pointer is to an object. *)
Definition registry_wf (cs : CS.ConstraintSet R) : Prop :=
  CS.contactConstraints cs = filter (is_contact_at cs) (CS.constraints cs) /\
  CS.loopConstraints cs = filter (is_loop_at cs) (CS.constraints cs) /\
  Forall (fun p => p < length (CS.store cs)) (CS.constraints cs).

(** Every registered constraint has at least one row. *)
Definition rows_positive (cs : CS.ConstraintSet R) : Prop :=
  Forall (fun k => 1 <= k) (constraint_rows cs).

(** The five per-row vectors all have length [k]. *)
Definition rows_len (k : nat) (cs : CS.ConstraintSet R) : Prop :=
  length (CS.err cs) = k /\ length (CS.errd cs) = k /\
  length (CS.force cs) = k /\ length (CS.impulse cs) = k /\
  length (CS.v_plus cs) = k.

(** The objects, the three pointer lists and the two flags agree. *)
Definition same_registry (cs cs' : CS.ConstraintSet R) : Prop :=
  CS.store cs' = CS.store cs /\
  CS.constraints cs' = CS.constraints cs /\
  CS.contactConstraints cs' = CS.contactConstraints cs /\
  CS.loopConstraints cs' = CS.loopConstraints cs /\
  CS.bound cs' = CS.bound cs /\
  CS.linear_solver cs' = CS.linear_solver cs.

End Invariants.

(* ===================================================================== *)
(** ** What it is to be zero *)
(* ===================================================================== *)

Section Zero.
Context {R : Type} {SR : Scalar R}.

(** Every coefficient of the vector is zero. *)
Definition zero_vector (v : list R) : Prop := v = repeat zero (length v).

(** Every coefficient of the matrix is zero. *)
Definition zero_matrix (M : MatrixNd R) : Prop :=
  forall i j, coeff M i j = zero.

(** The parts of the cache that [clear] sets to zero: the N-vectors, the 3xN
    matrices, the 3-vectors, the spatial vectors, the translations of the
    four transforms and the 3x3 matrices. *)
Definition cache_cleared (c : ConstraintCache R) : Prop :=
  zero_vector (vecNZeros c) /\
  zero_vector (vecNA c) /\ zero_vector (vecNB c) /\
  zero_vector (vecNC c) /\ zero_vector (vecND c) /\
  zero_matrix (mat3NA c) /\ zero_matrix (mat3NB c) /\
  zero_matrix (mat3NC c) /\ zero_matrix (mat3ND c) /\
  zero_vector (vec3A c) /\ zero_vector (vec3B c) /\ zero_vector (vec3C c) /\
  zero_vector (vec3D c) /\ zero_vector (vec3E c) /\ zero_vector (vec3F c) /\
  zero_vector (svecA c) /\ zero_vector (svecB c) /\ zero_vector (svecC c) /\
  zero_vector (svecD c) /\ zero_vector (svecE c) /\ zero_vector (svecF c) /\
  zero_vector (r (stA c)) /\ zero_vector (r (stB c)) /\
  zero_vector (r (stC c)) /\ zero_vector (r (stD c)) /\
  zero_matrix (mat3A c) /\ zero_matrix (mat3B c) /\ zero_matrix (mat3C c) /\
  zero_matrix (mat3D c) /\ zero_matrix (mat3E c) /\ zero_matrix (mat3F c).

(** The whole cache is zero: the parts above, the 6xN matrices and the
    rotations of the four transforms. *)
Definition cache_zero (c : ConstraintCache R) : Prop :=
  cache_cleared c /\
  zero_matrix (mat6NA c) /\ zero_matrix (mat6NB c) /\
  zero_matrix (mat6NC c) /\ zero_matrix (mat6ND c) /\
  zero_matrix (E (stA c)) /\ zero_matrix (E (stB c)) /\
  zero_matrix (E (stC c)) /\ zero_matrix (E (stD c)).

(** The force-like state and the workspaces that [clear] sets to zero. *)
Definition workspaces_cleared (cs : CS.ConstraintSet R) : Prop :=
  zero_vector (CS.force cs) /\ zero_vector (CS.impulse cs) /\
  zero_matrix (CS.H cs) /\ zero_vector (CS.C cs) /\
  zero_vector (CS.gamma cs) /\ zero_matrix (CS.G cs) /\
  zero_matrix (CS.A cs) /\ zero_vector (CS.b cs) /\ zero_vector (CS.x cs) /\
  zero_matrix (CS.K cs) /\ zero_vector (CS.a cs) /\
  zero_vector (CS.QDDot_t cs) /\ zero_vector (CS.QDDot_0 cs) /\
  Forall zero_vector (CS.f_t cs) /\
  Forall zero_vector (CS.f_ext_constraints cs) /\
  Forall zero_vector (CS.point_accel_0 cs) /\
  Forall zero_vector (CS.d_pA cs) /\ Forall zero_vector (CS.d_a cs) /\
  zero_vector (CS.d_u cs).

(** The registered constraints and the row layout agree, and so do the sizes
    of everything [clear] writes. *)
Definition same_layout (cs cs' : CS.ConstraintSet R) : Prop :=
  CS.store cs' = CS.store cs /\
  CS.constraints cs' = CS.constraints cs /\
  CS.contactConstraints cs' = CS.contactConstraints cs /\
  CS.loopConstraints cs' = CS.loopConstraints cs /\
  CS.name cs' = CS.name cs /\
  CS.constraintType cs' = CS.constraintType cs /\
  CS.bound cs' = CS.bound cs /\
  CS.linear_solver cs' = CS.linear_solver cs /\
  CS.err cs' = CS.err cs /\ CS.errd cs' = CS.errd cs /\
  CS.v_plus cs' = CS.v_plus cs /\
  length (CS.force cs') = length (CS.force cs) /\
  length (CS.impulse cs') = length (CS.impulse cs) /\
  rows (CS.H cs') = rows (CS.H cs) /\ cols (CS.H cs') = cols (CS.H cs) /\
  rows (CS.G cs') = rows (CS.G cs) /\ cols (CS.G cs') = cols (CS.G cs) /\
  rows (CS.A cs') = rows (CS.A cs) /\ cols (CS.A cs') = cols (CS.A cs) /\
  rows (CS.K cs') = rows (CS.K cs) /\ cols (CS.K cs') = cols (CS.K cs) /\
  length (CS.C cs') = length (CS.C cs) /\
  length (CS.gamma cs') = length (CS.gamma cs) /\
  length (CS.b cs') = length (CS.b cs) /\
  length (CS.x cs') = length (CS.x cs) /\
  length (CS.a cs') = length (CS.a cs) /\
  length (CS.f_t cs') = length (CS.f_t cs) /\
  length (CS.point_accel_0 cs') = length (CS.point_accel_0 cs) /\
  length (CS.f_ext_constraints cs') = length (CS.f_ext_constraints cs).

End Zero.

(* ===================================================================== *)
(** ** The augmented system of the direct solve, in the claim's words *)
(* ===================================================================== *)

Section Augmented.
Context {R Dyn : Type} {SR : Scalar R} {CO : Collaborators R Dyn}.

(** The matrix [[H, G^T], [G, 0]] for [n] degrees of freedom and [m]
    constraint rows. *)
Definition KKT_matrix (H G : MatrixNd R) (n m : nat) : MatrixNd R :=
  {| rows := n + m; cols := n + m;
     coeff := fun i j =>
       if i <? n
       then (if j <? n then coeff H i j else coeff G (j - n) i)
       else (if j <? n then coeff G (i - n) j else zero) |}.

(** The two matrices have the same size and the same coefficients. *)
Definition same_matrix (M N : MatrixNd R) : Prop :=
  rows M = rows N /\ cols M = cols N /\
  forall i j, i < rows M -> j < cols M -> coeff M i j = coeff N i j.

(** The dense factorisation a selector stands for, in the given build: LU
    falls back to Householder QR under the reduced backend. *)
Definition configured_solve (bc : Build) (ls : LinearSolver)
  : option (MatrixNd R -> VectorNd R -> VectorNd R) :=
  match ls with
  | LinearSolverPartialPivLU =>
      Some (if RBDL_USE_SIMPLE_MATH bc
            then householderQr_solve else partialPivLu_solve)
  | LinearSolverColPivHouseholderQR => Some colPivHouseholderQr_solve
  | LinearSolverHouseholderQR => Some householderQr_solve
  | LinearSolverOther _ => None
  end.

(** The solution of a dense solve has as many entries as the matrix has
    columns. *)
Definition solvers_sized : Prop :=
  forall (A : MatrixNd R) (b : VectorNd R),
    rows A = cols A ->
    length (partialPivLu_solve A b) = cols A /\
    length (colPivHouseholderQr_solve A b) = cols A /\
    length (householderQr_solve A b) = cols A.

(** The KKT workspace of a registry with [n] degrees of freedom: [A] is
    square of size [n] plus the row count, [b] has that length, and the
    lower right block of [A] is zero. *)
Definition kkt_ready (n : nat) (cs : CS.ConstraintSet R) : Prop :=
  rows (CS.A cs) = n + size cs /\
  cols (CS.A cs) = n + size cs /\
  length (CS.b cs) = n + size cs /\
  forall i j, n <= i -> n <= j -> coeff (CS.A cs) i j = zero.

End Augmented.

(* ===================================================================== *)
(** ** More invariants: objects, workspaces, frames *)
(* ===================================================================== *)

Section RegistryShape.
Context {R : Type}.

Definition is_contact (c : Constraint R) : bool :=
  match c with
  | Contact _ => true
  | _ => false
  end.

Definition is_loop (c : Constraint R) : bool :=
  match c with
  | Loop _ => true
  | _ => false
  end.

(** No constraint object is registered twice. *)
Definition registered_once (cs : CS.ConstraintSet R) : Prop :=
  NoDup (CS.constraints cs).

(** Every registered constraint is a contact constraint. *)
Definition contacts_only (cs : CS.ConstraintSet R) : Prop :=
  length (CS.contactConstraints cs) = length (CS.constraints cs).

(** The rows [first, first + count) a constraint object says it occupies. *)
Definition claims_row (c : Constraint R) (row : nat) : Prop :=
  getConstraintIndex c <= row < getConstraintIndex c + getConstraintSize c.

(** The registry [cs] with the selector [ls]: [cs.linear_solver = ls]. *)
Definition with_linear_solver (ls : LinearSolver) (cs : CS.ConstraintSet R)
  : CS.ConstraintSet R :=
  {| CS.store := CS.store cs; CS.constraints := CS.constraints cs;
     CS.contactConstraints := CS.contactConstraints cs;
     CS.loopConstraints := CS.loopConstraints cs; CS.name := CS.name cs;
     CS.constraintType := CS.constraintType cs; CS.bound := CS.bound cs;
     CS.linear_solver := ls; CS.err := CS.err cs; CS.errd := CS.errd cs;
     CS.force := CS.force cs; CS.impulse := CS.impulse cs;
     CS.v_plus := CS.v_plus cs; CS.H := CS.H cs; CS.C := CS.C cs;
     CS.gamma := CS.gamma cs; CS.G := CS.G cs; CS.A := CS.A cs;
     CS.b := CS.b cs; CS.x := CS.x cs; CS.GT_qr := CS.GT_qr cs;
     CS.GT_qr_Q := CS.GT_qr_Q cs; CS.Y := CS.Y cs; CS.Z := CS.Z cs;
     CS.qddot_y := CS.qddot_y cs; CS.qddot_z := CS.qddot_z cs;
     CS.K := CS.K cs; CS.a := CS.a cs; CS.QDDot_t := CS.QDDot_t cs;
     CS.QDDot_0 := CS.QDDot_0 cs; CS.f_t := CS.f_t cs;
     CS.f_ext_constraints := CS.f_ext_constraints cs;
     CS.point_accel_0 := CS.point_accel_0 cs; CS.d_pA := CS.d_pA cs;
     CS.d_a := CS.d_a cs; CS.d_u := CS.d_u cs; CS.d_IA := CS.d_IA cs;
     CS.d_U := CS.d_U cs; CS.d_d := CS.d_d cs;
     CS.d_multdof3_u := CS.d_multdof3_u cs; CS.cache := CS.cache cs |}.

End RegistryShape.

Section WorkspaceShape.
Context {R : Type} {SR : Scalar R}.




(** The diagonal matrix of the weights. *)
Definition diagonal (w : VectorNd R) : MatrixNd R :=
  {| rows := length w; cols := length w;
     coeff := fun i j => if i =? j then nth i w zero else zero |}.


(** What the assembly of the constrained system leaves alone: everything but
    [H], [C], [G], [gamma], [err], [errd], [QDDot_0] and the cache. *)
Definition assembly_frame (cs cs' : CS.ConstraintSet R) : Prop :=
  same_registry cs cs' /\
  CS.name cs' = CS.name cs /\
  CS.constraintType cs' = CS.constraintType cs /\
  CS.force cs' = CS.force cs /\ CS.impulse cs' = CS.impulse cs /\
  CS.v_plus cs' = CS.v_plus cs /\
  CS.A cs' = CS.A cs /\ CS.b cs' = CS.b cs /\ CS.x cs' = CS.x cs /\
  CS.GT_qr cs' = CS.GT_qr cs /\ CS.GT_qr_Q cs' = CS.GT_qr_Q cs /\
  CS.Y cs' = CS.Y cs /\ CS.Z cs' = CS.Z cs /\
  CS.qddot_y cs' = CS.qddot_y cs /\ CS.qddot_z cs' = CS.qddot_z cs /\
  CS.K cs' = CS.K cs /\ CS.a cs' = CS.a cs /\
  CS.QDDot_t cs' = CS.QDDot_t cs /\
  CS.f_t cs' = CS.f_t cs /\
  CS.f_ext_constraints cs' = CS.f_ext_constraints cs /\
  CS.point_accel_0 cs' = CS.point_accel_0 cs /\
  CS.d_pA cs' = CS.d_pA cs /\ CS.d_a cs' = CS.d_a cs /\
  CS.d_u cs' = CS.d_u cs /\ CS.d_IA cs' = CS.d_IA cs /\
  CS.d_U cs' = CS.d_U cs /\ CS.d_d cs' = CS.d_d cs /\
  CS.d_multdof3_u cs' = CS.d_multdof3_u cs.

End WorkspaceShape.

(* ===================================================================== *)
(** ** Registries to run the code on *)
(* ===================================================================== *)

Definition debug_build : Build :=
  {| NDEBUG := false; RBDL_USE_SIMPLE_MATH := false |}.

Definition release_build : Build :=
  {| NDEBUG := true; RBDL_USE_SIMPLE_MATH := false |}.

(** What a call left behind, if it returned. *)
Definition registry_of {R : Type}
  (run : Run (CS.ConstraintSet R * Z)) (otherwise : CS.ConstraintSet R)
  : CS.ConstraintSet R :=
  match run with
  | Done (cs, _) => cs
  | _ => otherwise
  end.

Definition bound_registry_of {R : Type}
  (run : Run (CS.ConstraintSet R * bool)) (otherwise : CS.ConstraintSet R)
  : CS.ConstraintSet R :=
  match run with
  | Done (cs, _) => cs
  | _ => otherwise
  end.

(** One contact constraint on body 3 at the origin of the body, along z. *)
Definition one_contact : CS.ConstraintSet float :=
  registry_of
    (AddContactConstraint debug_build 0%float
       (empty_set LinearSolverPartialPivLU) 3
       [0; 0; 0]%float [0; 0; 1]%float (Some "ground"%string) true)
    (empty_set LinearSolverPartialPivLU).

(** The same registry, bound to the point mass under gravity along -y. *)
Definition one_contact_bound : CS.ConstraintSet float :=
  bound_registry_of
    (Bind debug_build 0%float (point_mass [0; -1; 0]%float) one_contact)
    one_contact.

(** [c.mat6NA = M] *)
Definition set_mat6NA {R : Type} (M : MatrixNd R) (c : ConstraintCache R)
  : ConstraintCache R :=
  {| vecNZeros := vecNZeros c;
     vecNA := vecNA c; vecNB := vecNB c; vecNC := vecNC c; vecND := vecND c;
     mat3NA := mat3NA c; mat3NB := mat3NB c;
     mat3NC := mat3NC c; mat3ND := mat3ND c;
     mat6NA := M; mat6NB := mat6NB c; mat6NC := mat6NC c; mat6ND := mat6ND c;
     vec3A := vec3A c; vec3B := vec3B c; vec3C := vec3C c;
     vec3D := vec3D c; vec3E := vec3E c; vec3F := vec3F c;
     svecA := svecA c; svecB := svecB c; svecC := svecC c;
     svecD := svecD c; svecE := svecE c; svecF := svecF c;
     stA := stA c; stB := stB c; stC := stC c; stD := stD c;
     mat3A := mat3A c; mat3B := mat3B c; mat3C := mat3C c;
     mat3D := mat3D c; mat3E := mat3E c; mat3F := mat3F c |}.

(** [one_contact_bound] after a constraint has left a 6x3 body Jacobian, here
    with a one in its corner, in the scratch matrix [cache.mat6NA]; the
    scratch transforms are the identity, as they are constructed. *)
Definition used_scratch : CS.ConstraintSet float :=
  CS.set_cache
    (set_mat6NA (set_coeff (MatrixNd_Zero 6 3) 0 0 1%float)
       (CS.cache one_contact_bound))
    one_contact_bound.

(** The registry of [one_contact_bound] with a selector that is none of the
    three solvers. *)
Definition invalid_selector_bound : CS.ConstraintSet float :=
  bound_registry_of
    (Bind debug_build 0%float (point_mass [0; -1; 0]%float)
       (registry_of
          (AddContactConstraint debug_build 0%float
             (empty_set (LinearSolverOther 7)) 3
             [0; 0; 0]%float [0; 0; 1]%float (Some "ground"%string) true)
          (empty_set (LinearSolverOther 7))))
    (empty_set (LinearSolverOther 7)).

Definition assembled_of {R Dyn : Type}
  (run : Run (Model R Dyn * CS.ConstraintSet R))
  (otherwise : CS.ConstraintSet R) : CS.ConstraintSet R :=
  match run with
  | Done (_, cs) => cs
  | _ => otherwise
  end.

(** [one_contact_bound] with the system of the point mass at rest
    assembled. *)
Definition one_contact_assembled : CS.ConstraintSet float :=
  assembled_of
    (CalcConstrainedSystemVariables (CO := PointMass) debug_build
       (point_mass [0; -1; 0]%float) [0; 0; 0]%float [0; 0; 0]%float
       [0; 0; 0]%float one_contact_bound None)
    one_contact_bound.

(** The inertia matrix of the point mass (the identity), written over the
    [H] of [one_contact_bound], and the registry and Jacobian that
    [CalcConstraintsJacobian] then returns. *)
Definition one_contact_inertia : MatrixNd float :=
  snd (CompositeRigidBodyAlgorithm (Collaborators := PointMass)
         (point_mass [0; -1; 0]%float) [0; 0; 0]%float
         (CS.H one_contact_bound)).

Definition one_contact_jacobian : CS.ConstraintSet float * MatrixNd float :=
  match CalcConstraintsJacobian (CO := PointMass)
          (point_mass [0; -1; 0]%float) [0; 0; 0]%float
          (CS.set_H one_contact_inertia one_contact_bound)
          (CS.G one_contact_bound) false
  with
  | Done (_, cs, G) => (cs, G)
  | _ => (one_contact_bound, CS.G one_contact_bound)
  end.

(** The point mass with the custom constraint that holds its first
    coordinate at one, bound. *)
Definition hold_x_bound : CS.ConstraintSet float :=
  bound_registry_of
    (Bind debug_build 0%float (point_mass [0; -1; 0]%float)
       (registry_of
          (AddCustomConstraint debug_build 0%float
             (empty_set LinearSolverPartialPivLU)
             {| cu_impl := 0; cu_size := 1; cu_name := Some "hold x"%string;
                cu_baumgarteEnabled := false; cu_rowInSystem := 0 |})
          (empty_set LinearSolverPartialPivLU)))
    (empty_set LinearSolverPartialPivLU).

(** Exact arithmetic: the point mass under gravity along -y, with one contact
    constraint on the body that has the two normals (1, 0, 0) and (1, 1, 0),
    bound.  The Jacobian has the rows (1, 0, 0) and (1, 1, 0): full row rank,
    rows not orthogonal.  Its transpose is upper triangular, so the
    Householder reflections are the identity. *)
Definition two_normals_bound : CS.ConstraintSet Q :=
  bound_registry_of
    (Bind (CO := PointMass) debug_build 0%Q (point_mass [0; -1; 0]%Q)
       (registry_of
          (AddContactConstraint_normals debug_build 0%Q
             (empty_set LinearSolverPartialPivLU) 3 [0; 0; 0]%Q
             [[1; 0; 0]%Q; [1; 1; 0]%Q] (Some "wedge"%string))
          (empty_set LinearSolverPartialPivLU)))
    (empty_set LinearSolverPartialPivLU).

(* ===================================================================== *)
(** ** More registries to run the code on *)
(* ===================================================================== *)

(** [one_contact] followed by a loop constraint with one axis between the
    base and body 3, with identity frames. *)
Definition contact_then_loop : CS.ConstraintSet float :=
  registry_of
    (AddLoopConstraint debug_build 0%float one_contact 0 3
       SpatialTransform_Identity SpatialTransform_Identity
       (set_nth SpatialVector_Zero 3 1%float)
       false 0%float (Some "loop"%string) true true true)
    one_contact.

(** One loop constraint with one axis between the base and body 3, with
    identity frames and stabilisation switched on with time constant 1/2. *)
Definition one_loop : CS.ConstraintSet float :=
  registry_of
    (AddLoopConstraint debug_build 0%float
       (empty_set LinearSolverPartialPivLU) 0 3
       SpatialTransform_Identity SpatialTransform_Identity
       (set_nth SpatialVector_Zero 3 1%float)
       true 0.5%float (Some "loop"%string) true true true)
    (empty_set LinearSolverPartialPivLU).

(** The model and the registry that [CalcAssemblyQ] leaves after two passes
    from (0, 0, 0) on [hold_x_bound], with unit weights and the tolerance
    2^-30. *)
Definition two_passes
  : Model float (Vector3d float) * CS.ConstraintSet float :=
  match CalcAssemblyQ (CO := PointMass) debug_build 0%float
          (point_mass [0; -1; 0]%float) [0; 0; 0]%float hold_x_bound
          [0; 0; 0]%float [1; 1; 1]%float 0x1p-30%float 2
  with
  | Done (m, c, _, _) => (m, c)
  | _ => (point_mass [0; -1; 0]%float, hold_x_bound)
  end.

(** A build with asserts and the reduced math backend. *)
Definition reduced_build : Build :=
  {| NDEBUG := false; RBDL_USE_SIMPLE_MATH := true |}.

(* ===================================================================== *)
(** * Properties of the registration calls *)
(* ===================================================================== *)

Section ListFacts.
Context {T : Type}.

Lemma length_set_nth (l : list T) (i : nat) (t : T) :
  length (set_nth l i t) = length l.
Proof.
  revert i; induction l as [|c l IH]; intros [|i]; simpl; auto.
Qed.

Lemma nth_error_set_nth_eq (l : list T) (i : nat) (t : T) :
  i < length l -> nth_error (set_nth l i t) i = Some t.
Proof.
  revert i; induction l as [|c l IH]; intros [|i] Hi; simpl in *;
    try lia; auto.
  apply IH; lia.
Qed.

Lemma nth_error_set_nth_ne (l : list T) (i j : nat) (t : T) :
  i <> j -> nth_error (set_nth l i t) j = nth_error l j.
Proof.
  revert i j; induction l as [|c l IH]; intros [|i] [|j] Hne; simpl;
    auto; try congruence.
Qed.

Lemma at_app_last (l : list T) (p : T) : at_ (l ++ [p]) (length l) = Done p.
Proof.
  unfold at_. rewrite nth_error_app2 by lia.
  rewrite Nat.sub_diag. reflexivity.
Qed.

Lemma at_Some (l : list T) (i : nat) (t : T) :
  nth_error l i = Some t -> at_ l i = Done t.
Proof. unfold at_; intros ->; reflexivity. Qed.

Lemma set_nth_app_last (l : list T) (c t : T) :
  set_nth (l ++ [c]) (length l) t = l ++ [t].
Proof. induction l as [|d l IH]; simpl; congruence. Qed.

End ListFacts.

Section VectorFacts.
Context {R : Type} {SR : Scalar R}.

Lemma length_conservativeResize (u : R) (v : VectorNd R) (n : nat) :
  length (conservativeResize u v n) = n.
Proof.
  unfold conservativeResize.
  rewrite length_app, length_firstn, repeat_length. lia.
Qed.

Lemma length_setZero (v : list R) : length (setZero v) = length v.
Proof. apply repeat_length. Qed.

Lemma setZero_idem (v : list R) : setZero (setZero v) = setZero v.
Proof. unfold setZero. rewrite repeat_length. reflexivity. Qed.

Lemma vec_set_Done (bc : Build) (v : VectorNd R) (i : nat) (t : R) :
  i < length v -> vec_set bc v i t = Done (set_nth v i t).
Proof.
  intros Hi. unfold vec_set, eigen_assert.
  apply Nat.ltb_lt in Hi. rewrite Hi. reflexivity.
Qed.

End VectorFacts.

(** A loop whose body returns and keeps an invariant returns, with the
    invariant at the final index. *)
Lemma for_from_inv {S : Type} (P : nat -> S -> Prop)
  (body : nat -> S -> Run S) (n i : nat) (s : S) :
  P i s ->
  (forall j t, i <= j < i + n -> P j t ->
     exists t', body j t = Done t' /\ P (Datatypes.S j) t') ->
  exists s', for_from i n body s = Done s' /\ P (i + n) s'.
Proof.
  revert i s; induction n as [|n IH]; intros i s HP Hbody; simpl.
  - exists s. rewrite Nat.add_0_r. auto.
  - destruct (Hbody i s ltac:(lia) HP) as (t' & Hb & HP').
    rewrite Hb.
    destruct (IH (Datatypes.S i) t' HP') as (s' & Hs & HP'').
    + intros j t Hj. apply Hbody. lia.
    + exists s'. split; [exact Hs|].
      replace (i + Datatypes.S n) with (Datatypes.S i + n) by lia.
      exact HP''.
Qed.

Section RegistrationFacts.
Context {R : Type} {SR : Scalar R} {SO : ScalarOrd R}.
Variable bc : Build.
Variable uninit : R.

Lemma same_registry_refl (cs : CS.ConstraintSet R) : same_registry cs cs.
Proof. repeat split. Qed.

Lemma same_registry_trans (cs1 cs2 cs3 : CS.ConstraintSet R) :
  same_registry cs1 cs2 -> same_registry cs2 cs3 -> same_registry cs1 cs3.
Proof.
  unfold same_registry; intros (?&?&?&?&?&?) (?&?&?&?&?&?).
  repeat split; congruence.
Qed.

Lemma rows_len_resize_rows (k : nat) (cs : CS.ConstraintSet R) :
  rows_len k (resize_rows uninit k cs).
Proof.
  unfold rows_len, resize_rows; simpl.
  rewrite !length_conservativeResize. repeat split.
Qed.

Lemma rows_len_reset_d_multdof3_u (k n : nat) (cs : CS.ConstraintSet R) :
  rows_len k cs -> rows_len k (reset_d_multdof3_u n cs).
Proof. intros H. exact H. Qed.

Lemma zero_row_Done (k row : nat) (cs : CS.ConstraintSet R) :
  rows_len k cs -> row < k ->
  exists cs',
    zero_row bc row cs = Done cs' /\ rows_len k cs' /\
    same_registry cs cs' /\
    CS.name cs' = CS.name cs /\
    CS.constraintType cs' = CS.constraintType cs /\
    CS.d_multdof3_u cs' = CS.d_multdof3_u cs.
Proof.
  intros (H1 & H2 & H3 & H4 & H5) Hrow.
  unfold zero_row.
  rewrite vec_set_Done by lia. simpl.
  rewrite vec_set_Done by lia. simpl.
  rewrite vec_set_Done by lia. simpl.
  rewrite vec_set_Done by lia. simpl.
  rewrite vec_set_Done by lia. simpl.
  eexists; split; [reflexivity|].
  unfold rows_len, same_registry; simpl.
  rewrite !length_set_nth. repeat split; assumption.
Qed.

Lemma repeat_snoc {T : Type} (t : T) (n : nat) :
  repeat t n ++ [t] = repeat t (S n).
Proof.
  induction n as [|n IH]; simpl; [reflexivity|].
  rewrite IH. reflexivity.
Qed.

(** The loop that every multi-row registration ends with: [pre] pushes the
    type and the name of the row, then the row is zeroed. *)
Lemma rows_loop_Done (pre : CS.ConstraintSet R -> CS.ConstraintSet R)
  (t : ConstraintType) (s : string) (insert n L : nat)
  (cs : CS.ConstraintSet R) :
  (forall c, rows_len L c -> rows_len L (pre c)) ->
  (forall c, same_registry c (pre c)) ->
  (forall c, CS.name (pre c) = CS.name c ++ [s]) ->
  (forall c, CS.constraintType (pre c) = CS.constraintType c ++ [t]) ->
  (forall c, CS.d_multdof3_u (pre c) = CS.d_multdof3_u c) ->
  rows_len L cs -> insert + n <= L ->
  exists cs',
    for_ n (fun i c => zero_row bc (insert + i) (pre c)) cs = Done cs' /\
    rows_len L cs' /\ same_registry cs cs' /\
    CS.name cs' = CS.name cs ++ repeat s n /\
    CS.constraintType cs' = CS.constraintType cs ++ repeat t n /\
    CS.d_multdof3_u cs' = CS.d_multdof3_u cs.
Proof.
  intros Hlen Hsame Hname Htype Hd Hcs Hn.
  unfold for_.
  destruct (@for_from_inv _
              (fun j c =>
                 rows_len L c /\ same_registry cs c /\
                 CS.name c = CS.name cs ++ repeat s j /\
                 CS.constraintType c = CS.constraintType cs ++ repeat t j /\
                 CS.d_multdof3_u c = CS.d_multdof3_u cs)
              (fun i c => zero_row bc (insert + i) (pre c)) n 0 cs)
    as (cs' & Hrun & HP).
  - simpl. rewrite !app_nil_r. auto using same_registry_refl.
  - intros j c Hj (Hl & Hs & Hnm & Hty & Hdm).
    destruct (@zero_row_Done L (insert + j) (pre c))
      as (c' & Hz & Hl' & Hs' & Hnm' & Hty' & Hdm'); [auto | lia |].
    exists c'. split; [exact Hz|].
    split; [exact Hl'|].
    split; [eauto using same_registry_trans|].
    rewrite Hnm', Hty', Hdm', Hname, Htype, Hd, Hnm, Hty, Hdm.
    rewrite <- !app_assoc, !repeat_snoc. auto.
  - exists cs'. split; [exact Hrun|]. simpl in HP. exact HP.
Qed.

(** [AddCustomConstraint] returns on every registry, bound or not, in every
    build: the constraint is taken over and its rows are added. *)
Lemma AddCustomConstraint_Done (cs : CS.ConstraintSet R)
  (u : CustomConstraint) :
  exists cs' row,
    AddCustomConstraint bc uninit cs u = Done (cs', row) /\
    CS.bound cs' = CS.bound cs /\
    CS.constraints cs' = CS.constraints cs ++ [length (CS.store cs)] /\
    CS.store cs' =
      CS.store cs ++ [addToConstraintSet (size cs) (Custom u)] /\
    CS.contactConstraints cs' = CS.contactConstraints cs /\
    CS.loopConstraints cs' = CS.loopConstraints cs /\
    rows_len (size cs + cu_size u) cs' /\
    CS.name cs' = CS.name cs ++ repeat (nameStr_of (cu_name u)) (cu_size u) /\
    CS.constraintType cs' =
      CS.constraintType cs ++ repeat ConstraintTypeCustom (cu_size u).
Proof.
  unfold AddCustomConstraint, make_shared, deref, store_at. simpl.
  rewrite at_app_last. simpl.
  rewrite at_app_last. simpl.
  rewrite set_nth_app_last.
  match goal with
  | |- context [for_ ?n ?body ?c0] =>
      assert (Hloop :
        exists cs',
          for_ n body c0 = Done cs' /\
          rows_len (size cs + cu_size u) cs' /\ same_registry c0 cs' /\
          CS.name cs' =
            CS.name c0 ++ repeat (nameStr_of (cu_name u)) (cu_size u) /\
          CS.constraintType cs' =
            CS.constraintType c0 ++ repeat ConstraintTypeCustom (cu_size u) /\
          CS.d_multdof3_u cs' = CS.d_multdof3_u c0)
  end.
  { apply (@rows_loop_Done
             (fun c => CS.set_constraintType
                         (CS.constraintType c ++ [ConstraintTypeCustom])
                         (CS.set_name
                            (CS.name c ++ [nameStr_of (cu_name u)]) c))
             ConstraintTypeCustom (nameStr_of (cu_name u))
             (size cs) (cu_size u) (size cs + cu_size u)).
    - intros c Hc; exact Hc.
    - intros c; repeat split.
    - reflexivity.
    - reflexivity.
    - reflexivity.
    - apply rows_len_reset_d_multdof3_u, rows_len_resize_rows.
    - lia. }
  destruct Hloop as (cs' & Hrun & Hl & Hs & Hnm & Hty & _).
  rewrite Hrun. simpl.
  destruct Hs as (Hst & Hc & Hcc & Hlc & Hb & _).
  simpl in Hst, Hc, Hcc, Hlc, Hb, Hnm, Hty.
  exists cs', (unsigned_pred (size cs + cu_size u)).
  destruct Hl as (?&?&?&?&?).
  repeat split; assumption.
Qed.

(** The loop of the multi-normal contact overload, which also writes
    [d_multdof3_u]. *)
Lemma contact_loop_Done (s : string) (insert n L : nat)
  (cs : CS.ConstraintSet R) :
  rows_len L cs -> length (CS.d_multdof3_u cs) = L -> insert + n <= L ->
  exists cs',
    for_ n
      (fun i c =>
         let c := push_row ConstraintTypeContact s c in
         c <- zero_row bc (insert + i) c ;;
         d <- stdvec_set (CS.d_multdof3_u c) (insert + i) Vector3d_Zero ;;
         ret (CS.set_d_multdof3_u d c)) cs = Done cs' /\
    rows_len L cs' /\ same_registry cs cs' /\
    CS.name cs' = CS.name cs ++ repeat s n /\
    CS.constraintType cs' =
      CS.constraintType cs ++ repeat ConstraintTypeContact n.
Proof.
  intros Hcs Hd Hn. unfold for_.
  match goal with
  | |- exists cs', for_from 0 n ?body cs = _ /\ _ =>
      destruct (@for_from_inv _
                  (fun j c =>
                     rows_len L c /\ length (CS.d_multdof3_u c) = L /\
                     same_registry cs c /\
                     CS.name c = CS.name cs ++ repeat s j /\
                     CS.constraintType c =
                       CS.constraintType cs ++ repeat ConstraintTypeContact j)
                  body n 0 cs)
        as (cs' & Hrun & HP)
  end.
  - simpl. rewrite !app_nil_r. auto using same_registry_refl.
  - intros j c Hj (Hl & Hdl & Hs & Hnm & Hty).
    destruct (@zero_row_Done L (insert + j)
                (push_row ConstraintTypeContact s c))
      as (c' & Hz & Hl' & Hs' & Hnm' & Hty' & Hdm'); [exact Hl | lia |].
    cbv zeta. rewrite Hz. simpl.
    unfold stdvec_set.
    assert (Hlt : (insert + j <? length (CS.d_multdof3_u c')) = true).
    { apply Nat.ltb_lt. rewrite Hdm'. simpl. lia. }
    rewrite Hlt. simpl.
    eexists; split; [reflexivity|]. simpl.
    destruct Hl' as (?&?&?&?&?).
    destruct Hs' as (?&?&?&?&?&?). destruct Hs as (?&?&?&?&?&?).
    simpl in *.
    repeat split; simpl; try assumption; try congruence.
    + rewrite length_set_nth, Hdm'. exact Hdl.
    + rewrite Hnm', Hnm, <- app_assoc, repeat_snoc. reflexivity.
    + rewrite Hty', Hty, <- app_assoc, repeat_snoc. reflexivity.
  - exists cs'. split; [exact Hrun|]. simpl in HP.
    destruct HP as (?&?&?&?&?). auto.
Qed.

(** [AddContactConstraint (bodyId, bodyPoint, worldNormals, name)] returns
    when the constraint found at index [ccIndex] of [constraints] has at
    least as many rows as there are normals. *)
Lemma AddContactConstraint_normals_Done (cs : CS.ConstraintSet R)
  (bodyId : nat) (bodyPoint : Vector3d R) (worldNormals : list (Vector3d R))
  (constraintName : option string) (q : nat) (c_cc : Constraint R) :
  let new := Contact {| cc_bodyId := bodyId; cc_point := bodyPoint;
                        cc_normals := worldNormals;
                        cc_name := constraintName;
                        cc_rowInSystem := size cs |} in
  nth_error (CS.constraints cs ++ [length (CS.store cs)])
    (length (CS.contactConstraints cs)) = Some q ->
  nth_error (CS.store cs ++ [new]) q = Some c_cc ->
  length worldNormals <= getConstraintSize c_cc ->
  exists cs',
    AddContactConstraint_normals bc uninit cs bodyId bodyPoint worldNormals
      constraintName
    = Done (cs', unsigned_pred (size cs + getConstraintSize c_cc)) /\
    CS.bound cs' = CS.bound cs /\
    CS.constraints cs' = CS.constraints cs ++ [length (CS.store cs)] /\
    CS.contactConstraints cs' =
      CS.contactConstraints cs ++ [length (CS.store cs)] /\
    CS.loopConstraints cs' = CS.loopConstraints cs /\
    CS.store cs' = CS.store cs ++ [new] /\
    rows_len (size cs + getConstraintSize c_cc) cs' /\
    CS.name cs' =
      CS.name cs ++ repeat (nameStr_of constraintName) (length worldNormals) /\
    CS.constraintType cs' =
      CS.constraintType cs
      ++ repeat ConstraintTypeContact (length worldNormals).
Proof.
  intros new Hq Hc Hsz.
  unfold AddContactConstraint_normals, make_shared, deref, store_at. simpl.
  rewrite at_app_last. simpl.
  rewrite set_nth_app_last.
  rewrite (at_Some _ _ Hq). simpl.
  fold new. rewrite (at_Some _ _ Hc). simpl.
  rewrite length_app. simpl.
  replace (length (CS.constraints cs) + 1 - 1)
    with (length (CS.constraints cs)) by lia.
  rewrite at_app_last. simpl.
  rewrite at_app_last. simpl.
  match goal with
  | |- context [for_ ?n ?body ?c0] =>
      assert (Hloop :
        exists cs',
          for_ n body c0 = Done cs' /\
          rows_len (size cs + getConstraintSize c_cc) cs' /\
          same_registry c0 cs' /\
          CS.name cs' =
            CS.name c0
            ++ repeat (nameStr_of constraintName) (length worldNormals) /\
          CS.constraintType cs' =
            CS.constraintType c0
            ++ repeat ConstraintTypeContact (length worldNormals))
  end.
  { apply (@contact_loop_Done (nameStr_of constraintName) (size cs)
             (length worldNormals) (size cs + getConstraintSize c_cc)).
    - apply rows_len_reset_d_multdof3_u, rows_len_resize_rows.
    - simpl. apply repeat_length.
    - lia. }
  destruct Hloop as (cs' & Hrun & Hl & Hs & Hnm & Hty).
  rewrite Hrun. simpl.
  destruct Hs as (Hst & Hcn & Hcc & Hlc & Hb & _).
  simpl in Hst, Hcn, Hcc, Hlc, Hb, Hnm, Hty.
  exists cs'. destruct Hl as (?&?&?&?&?).
  repeat split; assumption.
Qed.

Lemma assert_unbound (cs : CS.ConstraintSet R) :
  CS.bound cs = false -> assert_ bc (negb (CS.bound cs)) = Done tt.
Proof. intros ->. unfold assert_. destruct (NDEBUG bc); reflexivity. Qed.

Lemma vec_set_resized (v : VectorNd R) (n : nat) (t : R) :
  vec_set bc (conservativeResize uninit v (n + 1)) n t
  = Done (set_nth (conservativeResize uninit v (n + 1)) n t).
Proof. apply vec_set_Done. rewrite length_conservativeResize. lia. Qed.

Lemma length_set_resized (v : VectorNd R) (n : nat) (t : R) :
  length (set_nth (conservativeResize uninit v (n + 1)) n t) = n + 1.
Proof. rewrite length_set_nth. apply length_conservativeResize. Qed.

(** The merge of [AddContactConstraint]: the last contact constraint is on
    the same body and its point is within the tolerance. *)
Lemma AddContactConstraint_merge (cs : CS.ConstraintSet R)
  (body_id : nat) (body_point world_normal : Vector3d R)
  (constraint_name : option string) (l : list nat) (p : nat)
  (c : ContactConstraint R) :
  CS.bound cs = false ->
  CS.contactConstraints cs = l ++ [p] ->
  nth_error (CS.store cs) p = Some (Contact c) ->
  cc_bodyId c = body_id ->
  ltb (norm (vsub body_point (cc_point c))) (mul epsilon (of_nat 100))
  = true ->
  exists cs',
    AddContactConstraint bc uninit cs body_id body_point world_normal
      constraint_name true
    = Done (cs', unsigned_pred (size cs + 1)) /\
    CS.bound cs' = CS.bound cs /\
    CS.constraints cs' = CS.constraints cs /\
    CS.contactConstraints cs' = CS.contactConstraints cs /\
    CS.loopConstraints cs' = CS.loopConstraints cs /\
    CS.store cs' =
      set_nth (CS.store cs) p (Contact (appendNormalVector world_normal c)) /\
    rows_len (size cs + 1) cs' /\
    CS.name cs' = CS.name cs ++ [nameStr_of constraint_name] /\
    CS.constraintType cs' = CS.constraintType cs ++ [ConstraintTypeContact].
Proof.
  intros Hb Hcc Hp Hbody Hnear.
  unfold AddContactConstraint.
  rewrite (assert_unbound _ Hb). cbn [bind Monad_Run].
  rewrite Hcc, length_app. cbn [length].
  replace (0 <? length l + 1) with true
    by (symmetry; apply Nat.ltb_lt; lia).
  cbn [andb].
  replace (length l + 1 - 1) with (length l) by lia.
  rewrite at_app_last. cbn [bind Monad_Run].
  unfold deref_contact, deref. rewrite (at_Some _ _ Hp).
  cbn [bind Monad_Run ret].
  rewrite Hbody, Nat.eqb_refl, Hnear.
  unfold push_row, store_at, reset_d_multdof3_u.
  cbn [CS.err CS.errd CS.force CS.impulse CS.v_plus CS.set_err CS.set_errd
       CS.set_force CS.set_impulse CS.set_v_plus CS.set_store CS.set_name
       CS.set_constraintType CS.set_d_multdof3_u].
  fold (size cs).
  rewrite !vec_set_resized. cbn [bind Monad_Run ret].
  eexists. split; [reflexivity|].
  unfold rows_len. cbn.
  rewrite !length_set_resized.
  repeat split; exact Hcc.
Qed.

(** Without the merge flag the single-normal overload is the multi-normal
    overload on a list of one normal. *)
Lemma AddContactConstraint_no_merge (cs : CS.ConstraintSet R)
  (body_id : nat) (body_point world_normal : Vector3d R)
  (constraint_name : option string) (q : nat) (c_cc : Constraint R) :
  let new := Contact {| cc_bodyId := body_id; cc_point := body_point;
                        cc_normals := [world_normal];
                        cc_name := constraint_name;
                        cc_rowInSystem := size cs |} in
  CS.bound cs = false ->
  nth_error (CS.constraints cs ++ [length (CS.store cs)])
    (length (CS.contactConstraints cs)) = Some q ->
  nth_error (CS.store cs ++ [new]) q = Some c_cc ->
  1 <= getConstraintSize c_cc ->
  exists cs' row,
    AddContactConstraint bc uninit cs body_id body_point world_normal
      constraint_name false = Done (cs', row) /\
    CS.bound cs' = CS.bound cs /\
    CS.constraints cs' = CS.constraints cs ++ [length (CS.store cs)] /\
    CS.contactConstraints cs' =
      CS.contactConstraints cs ++ [length (CS.store cs)] /\
    CS.loopConstraints cs' = CS.loopConstraints cs /\
    CS.store cs' = CS.store cs ++ [new] /\
    rows_len (size cs + getConstraintSize c_cc) cs' /\
    CS.name cs' = CS.name cs ++ [nameStr_of constraint_name] /\
    CS.constraintType cs' = CS.constraintType cs ++ [ConstraintTypeContact].
Proof.
  intros new Hb Hq Hc Hsz.
  destruct (@AddContactConstraint_normals_Done cs body_id body_point
              [world_normal] constraint_name q c_cc Hq Hc Hsz)
    as (cs' & Hrun & Hrest).
  unfold AddContactConstraint.
  rewrite (assert_unbound _ Hb). cbn [bind Monad_Run].
  rewrite andb_false_r. cbn [bind Monad_Run ret].
  rewrite Hrun. cbn [bind Monad_Run ret].
  eexists; eexists. split; [reflexivity|]. exact Hrest.
Qed.

Lemma filter_snoc {T : Type} (f : T -> bool) (l : list T) (t : T) :
  f t = true -> filter f (l ++ [t]) = filter f l ++ [t].
Proof. intros Ht. rewrite filter_app. simpl. rewrite Ht. reflexivity. Qed.

(** In a well-formed registry, a contact constraint that was registered last
    is the last of the contact list. *)
Lemma last_contact (cs : CS.ConstraintSet R) (l : list nat) (p : nat)
  (c : ContactConstraint R) :
  registry_wf cs ->
  CS.constraints cs = l ++ [p] ->
  nth_error (CS.store cs) p = Some (Contact c) ->
  CS.contactConstraints cs = filter (is_contact_at cs) l ++ [p].
Proof.
  intros (Hcc & _) Hl Hp. rewrite Hcc, Hl.
  apply filter_snoc. unfold is_contact_at. rewrite Hp. reflexivity.
Qed.

(** In a well-formed registry whose constraints all have a row, the
    constraint that the multi-normal overload reads its row count from
    exists and has a row. *)
Lemma row_count_source (cs : CS.ConstraintSet R) (new : Constraint R) :
  registry_wf cs -> rows_positive cs -> 1 <= getConstraintSize new ->
  exists q c_cc,
    nth_error (CS.constraints cs ++ [length (CS.store cs)])
      (length (CS.contactConstraints cs)) = Some q /\
    nth_error (CS.store cs ++ [new]) q = Some c_cc /\
    1 <= getConstraintSize c_cc.
Proof.
  intros (Hcc & _ & Hvalid) Hpos Hnew.
  assert (Hle : length (CS.contactConstraints cs)
                <= length (CS.constraints cs)).
  { rewrite Hcc. apply filter_length_le. }
  destruct (Nat.eq_dec (length (CS.contactConstraints cs))
              (length (CS.constraints cs))) as [Heq|Hne].
  - exists (length (CS.store cs)), new. rewrite Heq.
    rewrite !nth_error_app2, !Nat.sub_diag by lia. auto.
  - destruct (nth_error (CS.constraints cs)
                (length (CS.contactConstraints cs))) as [q|] eqn:Hq.
    2:{ apply nth_error_None in Hq. lia. }
    pose proof (nth_error_In _ _ Hq) as Hin.
    rewrite Forall_forall in Hvalid. specialize (Hvalid q Hin).
    unfold rows_positive, constraint_rows in Hpos.
    rewrite Forall_map, Forall_forall in Hpos. specialize (Hpos q Hin).
    destruct (nth_error (CS.store cs) q) as [c_cc|] eqn:Hc; [|lia].
    exists q, c_cc.
    rewrite nth_error_app1 by lia.
    rewrite nth_error_app1 by lia. auto.
Qed.

End RegistrationFacts.

(* ===================================================================== *)
(** * Facts about vectors, blocks and the copy-back loops *)
(* ===================================================================== *)

Section CopyFacts.
Context {R : Type} {SR : Scalar R}.
Variable bc : Build.

Lemma firstn_set_nth_snoc {T : Type} (l : list T) (i : nat) (t : T) :
  i < length l -> firstn (S i) (set_nth l i t) = firstn i l ++ [t].
Proof.
  revert i; induction l as [|c l IH]; intros [|i] Hi; simpl in *;
    try lia; auto.
  rewrite IH by lia. reflexivity.
Qed.

Lemma skipn_set_nth_after {T : Type} (l : list T) (i k : nat) (t : T) :
  i < k -> skipn k (set_nth l i t) = skipn k l.
Proof.
  revert i k; induction l as [|c l IH]; intros [|i] [|k] Hk; simpl;
    try lia; auto.
  apply IH. lia.
Qed.

Lemma skipn_cons_nth {T : Type} (l : list T) (k : nat) (d : T) :
  k < length l -> skipn k l = nth k l d :: skipn (S k) l.
Proof.
  revert k; induction l as [|c l IH]; intros [|k] Hk; simpl in *;
    try lia; auto.
  apply IH. lia.
Qed.

Lemma vec_get_Done (v : VectorNd R) (i : nat) :
  i < length v -> vec_get bc v i = Done (nth i v zero).
Proof.
  intros Hi. unfold vec_get, eigen_assert.
  apply Nat.ltb_lt in Hi. rewrite Hi. reflexivity.
Qed.

(** The loop [for (i...) dst[i] = f (src[off + i])], started at [i]. *)
Lemma copy_back_from (f : R -> R) (off : nat) (src : VectorNd R) (n i : nat)
  (dst : VectorNd R) :
  off + i + n <= length src -> i + n <= length dst ->
  for_from i n
    (fun i dst => t <- vec_get bc src (off + i) ;; vec_set bc dst i (f t))
    dst
  = Done (firstn i dst ++ map f (firstn n (skipn (off + i) src))
          ++ skipn (i + n) dst).
Proof.
  revert i dst; induction n as [|n IH]; intros i dst Hs Hd.
  - simpl. rewrite Nat.add_0_r, firstn_skipn. reflexivity.
  - cbn [for_from]. rewrite vec_get_Done by lia.
    cbn [bind Monad_Run]. rewrite vec_set_Done by lia.
    cbn [bind Monad_Run].
    rewrite IH by (rewrite ?length_set_nth; lia).
    rewrite firstn_set_nth_snoc by lia.
    rewrite skipn_set_nth_after by lia.
    rewrite (skipn_cons_nth src zero (k := off + i)) by lia.
    cbn [firstn map].
    replace (off + S i) with (S (off + i)) by lia.
    replace (S i + n) with (i + S n) by lia.
    rewrite <- app_assoc. reflexivity.
Qed.

Lemma copy_back_Done (f : R -> R) (n off : nat) (src dst : VectorNd R) :
  off + n <= length src -> n <= length dst ->
  copy_back bc f n off src dst
  = Done (map f (firstn n (skipn off src)) ++ skipn n dst).
Proof.
  intros Hs Hd. unfold copy_back, for_.
  rewrite copy_back_from by lia.
  rewrite Nat.add_0_r. reflexivity.
Qed.

(** Writing a whole vector over a prefix or a suffix. *)
Lemma set_segment_prefix (v w : VectorNd R) :
  length w <= length v -> set_segment v 0 w = w ++ skipn (length w) v.
Proof.
  intros H. unfold set_segment. simpl.
  rewrite Nat.sub_0_r, firstn_all2 by lia. reflexivity.
Qed.

Lemma set_segment_suffix (v w : VectorNd R) (i0 : nat) :
  i0 + length w = length v -> set_segment v i0 w = firstn i0 v ++ w.
Proof.
  intros H. unfold set_segment.
  rewrite (@firstn_all2 _ (length v - i0) w) by lia.
  rewrite skipn_all2 by lia. rewrite app_nil_r. reflexivity.
Qed.

End CopyFacts.

Section DirectFacts.
Context {R Dyn : Type} {SR : Scalar R} {CO : Collaborators R Dyn}.
Variable bc : Build.

(** The three block assignments of the direct solve give the augmented
    matrix, when the block they leave alone is zero. *)
Lemma assembled_is_KKT (A H G : MatrixNd R) (n m : nat) :
  rows A = n + m -> cols A = n + m ->
  (forall i j, n <= i -> n <= j -> coeff A i j = zero) ->
  same_matrix
    (set_block
       (set_block (set_block A 0 0 n n H) 0 n n m (transpose G)) n 0 m n G)
    (KKT_matrix H G n m).
Proof.
  intros Hr Hc Hz. unfold same_matrix. simpl.
  split; [exact Hr|]. split; [exact Hc|].
  intros i j Hi Hj.
  destruct (Nat.ltb_spec i n) as [Hin|Hin];
    destruct (Nat.ltb_spec j n) as [Hjn|Hjn].
  - replace (n <=? i) with false by (symmetry; apply Nat.leb_gt; lia).
    replace (n <=? j) with false by (symmetry; apply Nat.leb_gt; lia).
    simpl. rewrite !Nat.sub_0_r. reflexivity.
  - replace (n <=? i) with false by (symmetry; apply Nat.leb_gt; lia).
    replace (n <=? j) with true by (symmetry; apply Nat.leb_le; lia).
    replace (j <? n + m) with true by (symmetry; apply Nat.ltb_lt; lia).
    replace (i <? n) with true by (symmetry; apply Nat.ltb_lt; lia).
    simpl. rewrite Nat.sub_0_r. reflexivity.
  - replace (n <=? i) with true by (symmetry; apply Nat.leb_le; lia).
    replace (i <? n + m) with true by (symmetry; apply Nat.ltb_lt; lia).
    replace (j <? n) with true by (symmetry; apply Nat.ltb_lt; lia).
    simpl. rewrite Nat.sub_0_r. reflexivity.
  - replace (n <=? i) with true by (symmetry; apply Nat.leb_le; lia).
    replace (n <=? j) with true by (symmetry; apply Nat.leb_le; lia).
    replace (i <? n + m) with true by (symmetry; apply Nat.ltb_lt; lia).
    replace (j <? n) with false by (symmetry; apply Nat.ltb_ge; lia).
    replace (i <? n) with false by (symmetry; apply Nat.ltb_ge; lia).
    simpl. rewrite ?andb_false_r. simpl. apply Hz; lia.
Qed.

(** With one of the three selectors, the direct solve returns the assembled
    [A] and [b] and what the configured factorisation makes of them. *)
Lemma SolveConstrainedSystemDirect_valid (H G : MatrixNd R)
  (c gamma lambda : VectorNd R) (A : MatrixNd R) (b x : VectorNd R)
  (ls : LinearSolver) (solve : MatrixNd R -> VectorNd R -> VectorNd R) :
  configured_solve bc ls = Some solve ->
  SolveConstrainedSystemDirect bc H G c gamma lambda A b x ls
  = Done (set_block
            (set_block (set_block A 0 0 (length c) (length c) H)
               0 (length c) (length c) (length gamma) (transpose G))
            (length c) 0 (length gamma) (length c) G,
          set_segment (set_segment b 0 c) (length c) gamma,
          solve
            (set_block
               (set_block (set_block A 0 0 (length c) (length c) H)
                  0 (length c) (length c) (length gamma) (transpose G))
               (length c) 0 (length gamma) (length c) G)
            (set_segment (set_segment b 0 c) (length c) gamma)).
Proof.
  intros Hs. unfold SolveConstrainedSystemDirect.
  destruct ls; simpl in Hs; inversion Hs; subst; simpl;
    try destruct (RBDL_USE_SIMPLE_MATH bc); reflexivity.
Qed.

(** [b] after the two segment assignments. *)
Lemma assembled_rhs (b c gamma : VectorNd R) :
  length b = length c + length gamma ->
  set_segment (set_segment b 0 c) (length c) gamma = c ++ gamma.
Proof.
  intros Hb.
  rewrite set_segment_prefix by lia.
  rewrite set_segment_suffix.
  - rewrite firstn_app, Nat.sub_diag, firstn_all. simpl.
    rewrite app_nil_r. reflexivity.
  - rewrite length_app, length_skipn. lia.
Qed.

Lemma copy_all (f : R -> R) (n off : nat) (src dst : VectorNd R) :
  length src = off + n -> length dst = n ->
  copy_back bc f n off src dst = Done (map f (skipn off src)).
Proof.
  intros Hs Hd. rewrite copy_back_Done by lia.
  rewrite (@skipn_all2 _ n dst) by lia. rewrite app_nil_r.
  rewrite firstn_all2 by (rewrite length_skipn; lia). reflexivity.
Qed.

(** [ForwardDynamicsConstraintsDirect] once the system is assembled: the
    augmented matrix and right-hand side, the configured solve, the
    accelerations from the head of [x] and the negated tail as forces. *)
Lemma ForwardDynamicsConstraintsDirect_Done (model model1 : Model R Dyn)
  (Q QDot Tau QDDot : VectorNd R) (cs cs1 : CS.ConstraintSet R)
  (f_ext : option (list (SpatialVector R)))
  (solve : MatrixNd R -> VectorNd R -> VectorNd R) :
  solvers_sized ->
  CalcConstrainedSystemVariables bc model Q QDot Tau cs f_ext
  = Done (model1, cs1) ->
  configured_solve bc (CS.linear_solver cs1) = Some solve ->
  kkt_ready (dof_count model1) cs1 ->
  length (vsub Tau (CS.C cs1)) = dof_count model1 ->
  length (CS.gamma cs1) = size cs1 ->
  length (CS.force cs1) = size cs1 ->
  length QDDot = dof_count model1 ->
  exists cs',
    ForwardDynamicsConstraintsDirect bc model Q QDot Tau cs QDDot f_ext
    = Done (model1, cs', firstn (dof_count model1) (CS.x cs')) /\
    same_matrix (CS.A cs')
      (KKT_matrix (CS.H cs1) (CS.G cs1) (dof_count model1) (size cs1)) /\
    CS.b cs' = vsub Tau (CS.C cs1) ++ CS.gamma cs1 /\
    CS.x cs' = solve (CS.A cs') (CS.b cs') /\
    length (CS.x cs') = dof_count model1 + size cs1 /\
    CS.force cs' = map opp (skipn (dof_count model1) (CS.x cs')) /\
    kkt_ready (dof_count model1) cs' /\
    size cs' = size cs1.
Proof.
  intros Hsized Hcalc Hsolve (HAr & HAc & Hb & HA0) Hc Hg Hf HQ.
  unfold ForwardDynamicsConstraintsDirect.
  rewrite Hcalc. cbn [bind Monad_Run].
  erewrite SolveConstrainedSystemDirect_valid by exact Hsolve.
  cbn [bind Monad_Run].
  rewrite Hc, Hg.
  remember (set_block _ _ _ _ _ (CS.G cs1)) as A' eqn:HA'def.
  assert (HA' : same_matrix A'
                  (KKT_matrix (CS.H cs1) (CS.G cs1) (dof_count model1)
                     (size cs1)))
    by (rewrite HA'def; apply assembled_is_KKT; assumption).
  assert (Hb' : set_segment (set_segment (CS.b cs1) 0 (vsub Tau (CS.C cs1)))
                  (dof_count model1) (CS.gamma cs1)
                = vsub Tau (CS.C cs1) ++ CS.gamma cs1).
  { rewrite <- Hc. apply assembled_rhs. lia. }
  rewrite Hb'.
  remember (solve A' _) as x' eqn:Hx'def.
  assert (Hx : length x' = dof_count model1 + size cs1).
  { destruct HA' as (Hr' & Hc' & _).
    assert (Hsq : rows A' = cols A') by (rewrite Hr', Hc'; reflexivity).
    destruct (Hsized A' (vsub Tau (CS.C cs1) ++ CS.gamma cs1) Hsq)
      as (H1 & H2 & H3).
    change (cols (KKT_matrix (CS.H cs1) (CS.G cs1) (dof_count model1)
                    (size cs1)))
      with (dof_count model1 + size cs1) in Hc'.
    rewrite Hc' in H1, H2, H3.
    rewrite Hx'def. clear - Hsolve H1 H2 H3.
    destruct (CS.linear_solver cs1); simpl in Hsolve;
      inversion Hsolve; subst; try assumption.
    destruct (RBDL_USE_SIMPLE_MATH bc); assumption. }
  change (size (CS.set_x x' (CS.set_b (vsub Tau (CS.C cs1) ++ CS.gamma cs1)
                               (CS.set_A A' cs1))))
    with (size cs1).
  change (CS.x (CS.set_x x' (CS.set_b (vsub Tau (CS.C cs1) ++ CS.gamma cs1)
                               (CS.set_A A' cs1))))
    with x'.
  rewrite copy_back_Done with (dst := QDDot) by lia.
  cbn [bind Monad_Run].
  rewrite (@skipn_all2 _ (dof_count model1) QDDot) by lia.
  rewrite app_nil_r. cbn [skipn]. rewrite map_id.
  change (CS.force (CS.set_x x' (CS.set_b (vsub Tau (CS.C cs1)
                                           ++ CS.gamma cs1)
                                   (CS.set_A A' cs1))))
    with (CS.force cs1).
  rewrite copy_all by lia.
  cbn [bind Monad_Run ret].
  exists (CS.set_force (map opp (skipn (dof_count model1) x'))
            (CS.set_x x'
               (CS.set_b (vsub Tau (CS.C cs1) ++ CS.gamma cs1)
                  (CS.set_A A' cs1)))).
  split; [reflexivity|].
  cbn [CS.x CS.A CS.b CS.force CS.set_force CS.set_x CS.set_b CS.set_A
       CS.constraintType].
  split; [exact HA'|]. split; [reflexivity|]. split; [exact Hx'def|].
  split; [exact Hx|]. split; [reflexivity|].
  split; [|reflexivity].
  destruct HA' as (Hr' & Hc' & Hco).
  change (dof_count model1 + size cs1) with
    (rows (KKT_matrix (CS.H cs1) (CS.G cs1) (dof_count model1) (size cs1)))
    in Hr'.
  unfold kkt_ready, size.
  cbn [CS.x CS.A CS.b CS.force CS.set_force CS.set_x CS.set_b CS.set_A
       CS.constraintType].
  fold (size cs1).
  split; [exact Hr'|]. split; [exact Hc'|].
  split; [rewrite length_app; lia|].
  intros i j Hi Hj. rewrite HA'def. simpl.
  replace (i <? dof_count model1) with false
    by (symmetry; apply Nat.ltb_ge; lia).
  replace (j <? dof_count model1) with false
    by (symmetry; apply Nat.ltb_ge; lia).
  rewrite ?andb_false_r. simpl. rewrite ?andb_false_r. apply HA0; lia.
Qed.

(** [ComputeConstraintImpulsesDirect] once the inertia matrix and the
    Jacobian are there: the same augmented system with [H * QDotMinus] and
    [v_plus] on the right, and the tail of [x] as impulses, as it is. *)
Lemma ComputeConstraintImpulsesDirect_Done
  (model model1 model2 : Model R Dyn) (Q QDotMinus QDotPlus : VectorNd R)
  (cs cs2 : CS.ConstraintSet R) (H1 G2 : MatrixNd R)
  (solve : MatrixNd R -> VectorNd R -> VectorNd R) :
  solvers_sized ->
  CompositeRigidBodyAlgorithm
    (UpdateKinematicsCustom model (Some Q) None None) Q (CS.H cs)
  = (model1, H1) ->
  CalcConstraintsJacobian model1 Q (CS.set_H H1 cs) (CS.G cs) false
  = Done (model2, cs2, G2) ->
  configured_solve bc (CS.linear_solver cs2) = Some solve ->
  kkt_ready (dof_count model2) cs2 ->
  length (mvmul (CS.H cs2) QDotMinus) = dof_count model2 ->
  length (CS.v_plus cs2) = size cs2 ->
  length (CS.impulse cs2) = size cs2 ->
  length QDotPlus = dof_count model2 ->
  exists cs',
    ComputeConstraintImpulsesDirect bc model Q QDotMinus cs QDotPlus
    = Done (model2, cs', firstn (dof_count model2) (CS.x cs')) /\
    same_matrix (CS.A cs')
      (KKT_matrix (CS.H cs2) G2 (dof_count model2) (size cs2)) /\
    CS.b cs' = mvmul (CS.H cs2) QDotMinus ++ CS.v_plus cs2 /\
    CS.x cs' = solve (CS.A cs') (CS.b cs') /\
    length (CS.x cs') = dof_count model2 + size cs2 /\
    CS.impulse cs' = skipn (dof_count model2) (CS.x cs').
Proof.
  intros Hsized Hcrba Hjac Hsolve (HAr & HAc & Hb & HA0) Hc Hg Hf HQ.
  unfold ComputeConstraintImpulsesDirect.
  rewrite Hcrba. cbv zeta.
  change (CS.G (CS.set_H H1 cs)) with (CS.G cs).
  rewrite Hjac. cbn [bind Monad_Run].
  change (CS.H (CS.set_G G2 cs2)) with (CS.H cs2).
  change (CS.G (CS.set_G G2 cs2)) with G2.
  change (CS.v_plus (CS.set_G G2 cs2)) with (CS.v_plus cs2).
  change (CS.impulse (CS.set_G G2 cs2)) with (CS.impulse cs2).
  change (CS.A (CS.set_G G2 cs2)) with (CS.A cs2).
  change (CS.b (CS.set_G G2 cs2)) with (CS.b cs2).
  change (CS.x (CS.set_G G2 cs2)) with (CS.x cs2).
  change (CS.linear_solver (CS.set_G G2 cs2)) with (CS.linear_solver cs2).
  erewrite SolveConstrainedSystemDirect_valid by exact Hsolve.
  cbn [bind Monad_Run].
  rewrite Hc, Hg.
  remember (set_block _ _ _ _ _ G2) as A' eqn:HA'def.
  assert (HA' : same_matrix A'
                  (KKT_matrix (CS.H cs2) G2 (dof_count model2) (size cs2)))
    by (rewrite HA'def; apply assembled_is_KKT; assumption).
  assert (Hb' : set_segment
                  (set_segment (CS.b cs2) 0 (mvmul (CS.H cs2) QDotMinus))
                  (dof_count model2) (CS.v_plus cs2)
                = mvmul (CS.H cs2) QDotMinus ++ CS.v_plus cs2).
  { rewrite <- Hc. apply assembled_rhs. lia. }
  rewrite Hb'.
  remember (solve A' _) as x' eqn:Hx'def.
  assert (Hx : length x' = dof_count model2 + size cs2).
  { destruct HA' as (Hr' & Hc' & _).
    assert (Hsq : rows A' = cols A') by (rewrite Hr', Hc'; reflexivity).
    destruct (Hsized A' (mvmul (CS.H cs2) QDotMinus ++ CS.v_plus cs2) Hsq)
      as (E1 & E2 & E3).
    change (cols (KKT_matrix (CS.H cs2) G2 (dof_count model2) (size cs2)))
      with (dof_count model2 + size cs2) in Hc'.
    rewrite Hc' in E1, E2, E3.
    rewrite Hx'def. clear - Hsolve E1 E2 E3.
    destruct (CS.linear_solver cs2); simpl in Hsolve;
      inversion Hsolve; subst; try assumption.
    destruct (RBDL_USE_SIMPLE_MATH bc); assumption. }
  match goal with
  | |- context [copy_back bc _ (size ?c) _ _ _] =>
      change (size c) with (size cs2)
  end.
  match goal with
  | |- context [copy_back bc _ _ 0 (CS.x ?c) _] =>
      change (CS.x c) with x'
  end.
  match goal with
  | |- context [copy_back bc _ _ _ _ (CS.impulse ?c)] =>
      change (CS.impulse c) with (CS.impulse cs2)
  end.
  rewrite copy_back_Done with (dst := QDotPlus) by lia.
  cbn [bind Monad_Run].
  rewrite (@skipn_all2 _ (dof_count model2) QDotPlus) by lia.
  rewrite app_nil_r. cbn [skipn]. rewrite map_id.
  rewrite copy_all by lia.
  cbn [bind Monad_Run ret]. rewrite map_id.
  match goal with
  | |- exists cs', Done (_, ?c, _) = _ /\ _ => exists c
  end.
  split; [reflexivity|].
  cbn [CS.x CS.A CS.b CS.impulse CS.set_impulse CS.set_x CS.set_b CS.set_A
       CS.set_G].
  split; [exact HA'|]. split; [reflexivity|]. split; [exact Hx'def|].
  split; [exact Hx|]. reflexivity.
Qed.

End DirectFacts.

Section GaussJordanFacts.
Context {R : Type} {SR : Scalar R} {SD : ScalarDiv R}.

Lemma find_pivot_length (k : nat) (rs others : list (list R)) (p : list R) :
  find_pivot k rs = Some (p, others) -> length rs = S (length others).
Proof.
  revert p others; induction rs as [|row rs IH]; intros p others; simpl.
  - discriminate.
  - destruct (is_zero (nth k row zero)).
    + destruct (find_pivot k rs) as [[p' others']|] eqn:Hf; [|discriminate].
      intros Heq; inversion Heq; subst. simpl.
      rewrite (IH _ _ eq_refl). reflexivity.
    + intros Heq; inversion Heq; subst. reflexivity.
Qed.

Lemma gauss_jordan_from_length (n k : nat) (done todo : list (list R)) :
  length (gauss_jordan_from n k done todo) = length done + length todo.
Proof.
  revert k done todo; induction n as [|n IH]; intros k done todo; simpl.
  - apply length_app.
  - destruct (find_pivot k todo) as [[p others]|] eqn:Hf.
    + rewrite IH, length_app, !length_map. simpl.
      rewrite (find_pivot_length _ _ Hf). lia.
    + apply length_app.
Qed.

(** Gauss-Jordan elimination returns one entry per row. *)
Lemma gauss_jordan_length (A : MatrixNd R) (b : VectorNd R) :
  length (gauss_jordan A b) = rows A.
Proof.
  unfold gauss_jordan.
  rewrite length_map, gauss_jordan_from_length, length_map, length_seq.
  reflexivity.
Qed.

Lemma PointMass_solvers_sized :
  solvers_sized (CO := PointMass (R := R)).
Proof.
  intros A b Hsq. simpl. rewrite !gauss_jordan_length. auto.
Qed.

End GaussJordanFacts.

(* ===================================================================== *)
(** * Invariants of the registry under registration *)
(* ===================================================================== *)

Section RowFacts.
Context {R : Type}.

(** A new object behind a new pointer adds its row count at the end. *)
Lemma constraint_rows_append (cs cs' : CS.ConstraintSet R)
  (c : Constraint R) :
  Forall (fun p => p < length (CS.store cs)) (CS.constraints cs) ->
  CS.store cs' = CS.store cs ++ [c] ->
  CS.constraints cs' = CS.constraints cs ++ [length (CS.store cs)] ->
  constraint_rows cs' = constraint_rows cs ++ [getConstraintSize c].
Proof.
  intros Hv Hs Hc. unfold constraint_rows. rewrite Hs, Hc, map_app. simpl.
  rewrite nth_error_app2, Nat.sub_diag by lia. simpl. f_equal.
  apply map_ext_in. intros p Hp. rewrite Forall_forall in Hv.
  rewrite nth_error_app1 by auto. reflexivity.
Qed.

Lemma rows_unchanged (st : list (Constraint R)) (p : nat) (c : Constraint R)
  (ps : list nat) :
  ~ In p ps ->
  map (fun q => match nth_error (set_nth st p c) q with
                | Some d => getConstraintSize d
                | None => 0
                end) ps
  = map (fun q => match nth_error st q with
                  | Some d => getConstraintSize d
                  | None => 0
                  end) ps.
Proof.
  intros Hp. apply map_ext_in. intros q Hq.
  rewrite nth_error_set_nth_ne; [reflexivity|].
  intros ->. contradiction.
Qed.

Lemma rows_updated (st : list (Constraint R)) (p : nat)
  (old c : Constraint R) (ps : list nat) :
  NoDup ps -> In p ps -> nth_error st p = Some old ->
  list_sum (map (fun q => match nth_error (set_nth st p c) q with
                          | Some d => getConstraintSize d
                          | None => 0
                          end) ps)
  + getConstraintSize old
  = list_sum (map (fun q => match nth_error st q with
                            | Some d => getConstraintSize d
                            | None => 0
                            end) ps)
    + getConstraintSize c.
Proof.
  intros Hnd Hin Hold.
  assert (Hlt : p < length st).
  { apply nth_error_Some. congruence. }
  unfold list_sum.
  induction ps as [|q ps IH]; [contradiction|].
  inversion Hnd as [|? ? Hq Hnd']; subst.
  cbn [map fold_right].
  destruct (Nat.eq_dec q p) as [->|Hne].
  - rewrite rows_unchanged by exact Hq.
    rewrite nth_error_set_nth_eq by exact Hlt. rewrite Hold. lia.
  - destruct Hin as [Heq|Hin]; [congruence|].
    rewrite nth_error_set_nth_ne by congruence.
    specialize (IH Hnd' Hin). lia.
Qed.

(** A registered object that is replaced changes the total by the
    difference of the row counts. *)
Lemma total_rows_update (cs cs' : CS.ConstraintSet R) (p : nat)
  (old c : Constraint R) :
  NoDup (CS.constraints cs) -> In p (CS.constraints cs) ->
  nth_error (CS.store cs) p = Some old ->
  CS.store cs' = set_nth (CS.store cs) p c ->
  CS.constraints cs' = CS.constraints cs ->
  total_rows cs' + getConstraintSize old
  = total_rows cs + getConstraintSize c.
Proof.
  intros Hnd Hin Hold Hs Hc. unfold total_rows, constraint_rows.
  rewrite Hs, Hc. apply rows_updated; assumption.
Qed.

Lemma total_rows_append (cs cs' : CS.ConstraintSet R) (c : Constraint R) :
  Forall (fun p => p < length (CS.store cs)) (CS.constraints cs) ->
  CS.store cs' = CS.store cs ++ [c] ->
  CS.constraints cs' = CS.constraints cs ++ [length (CS.store cs)] ->
  total_rows cs' = total_rows cs + getConstraintSize c.
Proof.
  intros Hv Hs Hc. unfold total_rows.
  rewrite (@constraint_rows_append cs cs' c Hv Hs Hc), list_sum_app. simpl. lia.
Qed.

Lemma registered_once_append (cs cs' : CS.ConstraintSet R) :
  Forall (fun p => p < length (CS.store cs)) (CS.constraints cs) ->
  registered_once cs ->
  CS.constraints cs' = CS.constraints cs ++ [length (CS.store cs)] ->
  registered_once cs'.
Proof.
  unfold registered_once. intros Hv Hnd ->.
  apply NoDup_app; [exact Hnd | repeat constructor; simpl; tauto |].
  intros p Hp [<-|[]]. rewrite Forall_forall in Hv.
  specialize (Hv _ Hp). lia.
Qed.

Lemma registry_wf_append (cs cs' : CS.ConstraintSet R) (c : Constraint R) :
  registry_wf cs ->
  CS.store cs' = CS.store cs ++ [c] ->
  CS.constraints cs' = CS.constraints cs ++ [length (CS.store cs)] ->
  CS.contactConstraints cs'
  = CS.contactConstraints cs
    ++ (if is_contact c then [length (CS.store cs)] else []) ->
  CS.loopConstraints cs'
  = CS.loopConstraints cs
    ++ (if is_loop c then [length (CS.store cs)] else []) ->
  registry_wf cs'.
Proof.
  intros (Hcc & Hlc & Hv) Hs Hc Hcc' Hlc'.
  pose proof Hv as Hv'. rewrite Forall_forall in Hv'.
  unfold registry_wf. rewrite Hcc', Hlc', Hc, Hs, !filter_app.
  repeat split.
  - f_equal.
    + rewrite Hcc. apply filter_ext_in. intros p Hp.
      unfold is_contact_at. rewrite Hs, nth_error_app1 by auto. reflexivity.
    + simpl. unfold is_contact_at at 1.
      rewrite Hs, nth_error_app2, Nat.sub_diag by lia. simpl.
      destruct c; reflexivity.
  - f_equal.
    + rewrite Hlc. apply filter_ext_in. intros p Hp.
      unfold is_loop_at. rewrite Hs, nth_error_app1 by auto. reflexivity.
    + simpl. unfold is_loop_at at 1.
      rewrite Hs, nth_error_app2, Nat.sub_diag by lia. simpl.
      destruct c; reflexivity.
  - apply Forall_app. split.
    + revert Hv. apply Forall_impl. intros p Hp.
      rewrite length_app. simpl. lia.
    + constructor; [|constructor]. rewrite length_app. simpl. lia.
Qed.

Lemma registry_wf_update (cs cs' : CS.ConstraintSet R) (p : nat)
  (old c : Constraint R) :
  registry_wf cs ->
  nth_error (CS.store cs) p = Some old ->
  is_contact c = is_contact old -> is_loop c = is_loop old ->
  CS.store cs' = set_nth (CS.store cs) p c ->
  CS.constraints cs' = CS.constraints cs ->
  CS.contactConstraints cs' = CS.contactConstraints cs ->
  CS.loopConstraints cs' = CS.loopConstraints cs ->
  registry_wf cs'.
Proof.
  intros (Hcc & Hlc & Hv) Hold Hk1 Hk2 Hs Hc Hcc' Hlc'.
  assert (Hlt : p < length (CS.store cs)).
  { apply nth_error_Some. congruence. }
  unfold registry_wf. rewrite Hcc', Hlc', Hc, Hs, length_set_nth.
  repeat split; [| |exact Hv].
  - rewrite Hcc. apply filter_ext. intros q.
    unfold is_contact_at. rewrite Hs.
    destruct (Nat.eq_dec p q) as [<-|Hne].
    + rewrite nth_error_set_nth_eq, Hold by exact Hlt.
      destruct c, old; simpl in *; congruence.
    + rewrite nth_error_set_nth_ne by exact Hne. reflexivity.
  - rewrite Hlc. apply filter_ext. intros q.
    unfold is_loop_at. rewrite Hs.
    destruct (Nat.eq_dec p q) as [<-|Hne].
    + rewrite nth_error_set_nth_eq, Hold by exact Hlt.
      destruct c, old; simpl in *; congruence.
    + rewrite nth_error_set_nth_ne by exact Hne. reflexivity.
Qed.

(** The last pointer of the loop list of a well-formed registry is
    registered and points to a loop constraint. *)
Lemma last_loop_registered (cs : CS.ConstraintSet R) (l : list nat)
  (p : nat) :
  registry_wf cs -> CS.loopConstraints cs = l ++ [p] ->
  In p (CS.constraints cs) /\
  exists lc, nth_error (CS.store cs) p = Some (Loop lc).
Proof.
  intros (_ & Hlc & _) Hl.
  assert (Hin : In p (filter (is_loop_at cs) (CS.constraints cs))).
  { rewrite <- Hlc, Hl. apply in_or_app. right. simpl. auto. }
  apply filter_In in Hin. destruct Hin as (Hin & Hk). split; [exact Hin|].
  unfold is_loop_at in Hk.
  destruct (nth_error (CS.store cs) p) as [[| lc |]|]; try discriminate.
  exists lc. reflexivity.
Qed.

(** The same for the contact list. *)
Lemma last_contact_registered (cs : CS.ConstraintSet R) (l : list nat)
  (p : nat) :
  registry_wf cs -> CS.contactConstraints cs = l ++ [p] ->
  In p (CS.constraints cs) /\
  exists c, nth_error (CS.store cs) p = Some (Contact c).
Proof.
  intros (Hcc & _ & _) Hl.
  assert (Hin : In p (filter (is_contact_at cs) (CS.constraints cs))).
  { rewrite <- Hcc, Hl. apply in_or_app. right. simpl. auto. }
  apply filter_In in Hin. destruct Hin as (Hin & Hk). split; [exact Hin|].
  unfold is_contact_at in Hk.
  destruct (nth_error (CS.store cs) p) as [[c| |]|]; try discriminate.
  exists c. reflexivity.
Qed.

Lemma snoc_view {T : Type} (l : list T) :
  l = [] \/ exists l' t, l = l' ++ [t].
Proof.
  induction l as [|t l' _] using rev_ind; [left; reflexivity|right; eauto].
Qed.

End RowFacts.

Section LoopFacts.
Context {R : Type} {SR : Scalar R} {SO : ScalarOrd R}.
Variable bc : Build.
Variable uninit : R.

(** The tail of the single-axis [AddLoopConstraint]: one more row. *)
Lemma loop_row_Done (n : nat) (s : string) (cs : CS.ConstraintSet R) :
  exists cs',
    loop_row bc uninit n (n + 1) s cs = Done cs' /\
    rows_len (n + 1) cs' /\ same_registry cs cs' /\
    CS.name cs' = CS.name cs ++ [s] /\
    CS.constraintType cs' = CS.constraintType cs ++ [ConstraintTypeLoop].
Proof.
  unfold loop_row, reset_d_multdof3_u.
  cbn [CS.err CS.errd CS.force CS.impulse CS.v_plus CS.set_err CS.set_errd
       CS.set_force CS.set_impulse CS.set_v_plus CS.set_store CS.set_name
       CS.set_constraintType CS.set_d_multdof3_u].
  rewrite !vec_set_resized. cbn [bind Monad_Run ret].
  eexists. split; [reflexivity|].
  unfold rows_len, same_registry. cbn.
  rewrite !length_set_resized.
  repeat split.
Qed.

(** [AddLoopConstraint] with a list of axes returns on every unbound
    registry: a new object, with the stabilisation settings of the call. *)
Lemma AddLoopConstraint_axes_Done (cs : CS.ConstraintSet R)
  (idP idS : nat) (XP XS : SpatialTransform R)
  (axes : list (SpatialVector R)) (enableStab : bool) (stabParam : R)
  (constraintName : option string) (pl vl : bool) :
  let new := Loop {| lc_idPredecessor := idP; lc_idSuccessor := idS;
                     lc_XPredecessor := XP; lc_XSuccessor := XS;
                     lc_axes := axes;
                     lc_positionLevel := map (fun _ => pl) axes;
                     lc_velocityLevel := map (fun _ => vl) axes;
                     lc_baumgarteTimeConstant := stabParam;
                     lc_baumgarteEnabled := enableStab;
                     lc_name := constraintName;
                     lc_rowInSystem := size cs |} in
  CS.bound cs = false ->
  exists cs',
    AddLoopConstraint_axes bc uninit cs idP idS XP XS axes enableStab
      stabParam constraintName pl vl
    = Done (cs', unsigned_pred (size cs + length axes)) /\
    CS.bound cs' = CS.bound cs /\
    CS.constraints cs' = CS.constraints cs ++ [length (CS.store cs)] /\
    CS.contactConstraints cs' = CS.contactConstraints cs /\
    CS.loopConstraints cs' =
      CS.loopConstraints cs ++ [length (CS.store cs)] /\
    CS.store cs' = CS.store cs ++ [new] /\
    rows_len (size cs + length axes) cs' /\
    CS.name cs' =
      CS.name cs ++ repeat (nameStr_of constraintName) (length axes) /\
    CS.constraintType cs' =
      CS.constraintType cs ++ repeat ConstraintTypeLoop (length axes).
Proof.
  intros new Hb.
  unfold AddLoopConstraint_axes.
  rewrite (assert_unbound bc _ Hb). cbn [bind Monad_Run].
  unfold make_shared, deref_loop, deref, store_at. simpl.
  rewrite length_app. simpl.
  replace (length (CS.loopConstraints cs) + 1 - 1)
    with (length (CS.loopConstraints cs)) by lia.
  rewrite at_app_last. simpl.
  rewrite at_app_last. simpl.
  rewrite set_nth_app_last.
  match goal with
  | |- context [for_ ?n ?body ?c0] =>
      assert (Hloop :
        exists cs',
          for_ n body c0 = Done cs' /\
          rows_len (size cs + length axes) cs' /\ same_registry c0 cs' /\
          CS.name cs' =
            CS.name c0 ++ repeat (nameStr_of constraintName) (length axes) /\
          CS.constraintType cs' =
            CS.constraintType c0 ++ repeat ConstraintTypeLoop (length axes) /\
          CS.d_multdof3_u cs' = CS.d_multdof3_u c0)
  end.
  { apply (@rows_loop_Done R SR bc
             (push_row ConstraintTypeLoop (nameStr_of constraintName))
             ConstraintTypeLoop (nameStr_of constraintName)
             (size cs) (length axes) (size cs + length axes)).
    - intros c Hc; exact Hc.
    - intros c; repeat split.
    - reflexivity.
    - reflexivity.
    - reflexivity.
    - apply rows_len_reset_d_multdof3_u, rows_len_resize_rows.
    - lia. }
  destruct Hloop as (cs' & Hrun & Hl & Hs & Hnm & Hty & _).
  rewrite Hrun. simpl.
  destruct Hs as (Hst & Hc & Hcc & Hlc & Hb' & _).
  simpl in Hst, Hc, Hcc, Hlc, Hb', Hnm, Hty.
  exists cs'. destruct Hl as (?&?&?&?&?).
  repeat split; assumption.
Qed.

(** The single-axis [AddLoopConstraint] without merging: a new object with
    the one axis and the stabilisation settings of the call. *)
Lemma AddLoopConstraint_no_merge (cs : CS.ConstraintSet R)
  (idP idS : nat) (XP XS : SpatialTransform R) (axis : SpatialVector R)
  (enableStab : bool) (stabParam : R) (constraintName : option string)
  (pl vl : bool) :
  let new := Loop {| lc_idPredecessor := idP; lc_idSuccessor := idS;
                     lc_XPredecessor := XP; lc_XSuccessor := XS;
                     lc_axes := [axis];
                     lc_positionLevel := [pl];
                     lc_velocityLevel := [vl];
                     lc_baumgarteTimeConstant := stabParam;
                     lc_baumgarteEnabled := enableStab;
                     lc_name := constraintName;
                     lc_rowInSystem := size cs |} in
  CS.bound cs = false ->
  exists cs',
    AddLoopConstraint bc uninit cs idP idS XP XS axis enableStab stabParam
      constraintName false pl vl
    = Done (cs', unsigned_pred (size cs + 1)) /\
    CS.bound cs' = CS.bound cs /\
    CS.constraints cs' = CS.constraints cs ++ [length (CS.store cs)] /\
    CS.contactConstraints cs' = CS.contactConstraints cs /\
    CS.loopConstraints cs' =
      CS.loopConstraints cs ++ [length (CS.store cs)] /\
    CS.store cs' = CS.store cs ++ [new] /\
    rows_len (size cs + 1) cs' /\
    CS.name cs' = CS.name cs ++ [nameStr_of constraintName] /\
    CS.constraintType cs' = CS.constraintType cs ++ [ConstraintTypeLoop].
Proof.
  intros new Hb.
  unfold AddLoopConstraint.
  rewrite (assert_unbound bc _ Hb). cbn [bind Monad_Run].
  rewrite andb_false_r. cbn [bind Monad_Run ret].
  unfold make_shared, deref_loop, deref, store_at.
  cbn [CS.loopConstraints CS.set_loopConstraints CS.set_constraints
       CS.set_store CS.store].
  rewrite length_app. cbn [length].
  replace (length (CS.loopConstraints cs) + 1 - 1)
    with (length (CS.loopConstraints cs)) by lia.
  rewrite at_app_last. cbn [bind Monad_Run ret].
  rewrite at_app_last. cbn [bind Monad_Run ret].
  rewrite set_nth_app_last.
  match goal with
  | |- context [loop_row bc uninit ?n (?n + 1) ?s ?c0] =>
      destruct (@loop_row_Done n s c0)
        as (cs' & Hrun & Hl & Hs & Hnm & Hty)
  end.
  rewrite Hrun. cbn [bind Monad_Run ret].
  destruct Hs as (Hst & Hc & Hcc & Hlc & Hb' & _).
  simpl in Hst, Hc, Hcc, Hlc, Hb', Hnm, Hty.
  exists cs'. destruct Hl as (?&?&?&?&?). repeat split; assumption.
Qed.

(** The merge of [AddLoopConstraint]: the last loop constraint joins the
    same two bodies with frames that agree to the tolerance.  The axis is
    added to it, and the stabilisation settings of the call replace the ones
    it had. *)
Lemma AddLoopConstraint_merge (cs : CS.ConstraintSet R)
  (idP idS : nat) (XP XS : SpatialTransform R) (axis : SpatialVector R)
  (enableStab : bool) (stabParam : R) (constraintName : option string)
  (pl vl : bool) (l : list nat) (p : nat) (lc : LoopConstraint R) :
  CS.bound cs = false ->
  CS.loopConstraints cs = l ++ [p] ->
  nth_error (CS.store cs) p = Some (Loop lc) ->
  lc_idPredecessor lc = idP -> lc_idSuccessor lc = idS ->
  framesNumericallyIdentical (mul epsilon (of_nat 100))
    {| r := vsub (r XP) (r (lc_XPredecessor lc));
       E := msub (E XP) (E (lc_XPredecessor lc)) |}
    {| r := vsub (r XS) (r (lc_XSuccessor lc));
       E := msub (E XS) (E (lc_XSuccessor lc)) |} = true ->
  exists cs',
    AddLoopConstraint bc uninit cs idP idS XP XS axis enableStab stabParam
      constraintName true pl vl
    = Done (cs', unsigned_pred (size cs + 1)) /\
    CS.bound cs' = CS.bound cs /\
    CS.constraints cs' = CS.constraints cs /\
    CS.contactConstraints cs' = CS.contactConstraints cs /\
    CS.loopConstraints cs' = CS.loopConstraints cs /\
    CS.store cs' =
      set_nth (CS.store cs) p
        (Loop (setBaumgarte stabParam enableStab
                 (appendConstraintAxis axis pl vl lc))) /\
    rows_len (size cs + 1) cs' /\
    CS.name cs' = CS.name cs ++ [nameStr_of constraintName] /\
    CS.constraintType cs' = CS.constraintType cs ++ [ConstraintTypeLoop].
Proof.
  intros Hb Hlc Hp HidP HidS Hframes.
  assert (Hlt : p < length (CS.store cs)).
  { apply nth_error_Some. congruence. }
  unfold AddLoopConstraint.
  rewrite (assert_unbound bc _ Hb). cbn [bind Monad_Run].
  rewrite Hlc, length_app. cbn [length].
  replace (0 <? length l + 1) with true
    by (symmetry; apply Nat.ltb_lt; lia).
  cbn [andb].
  replace (length l + 1 - 1) with (length l) by lia.
  rewrite at_app_last. cbn [bind Monad_Run].
  unfold deref_loop, deref. rewrite (at_Some _ _ Hp).
  cbn [bind Monad_Run ret].
  rewrite HidP, HidS, !Nat.eqb_refl. cbn [andb].
  rewrite Hframes. cbn [bind Monad_Run ret].
  unfold store_at.
  cbn [CS.loopConstraints CS.set_store CS.store].
  rewrite Hlc, at_app_last. cbn [bind Monad_Run ret].
  rewrite (at_Some _ _ (nth_error_set_nth_eq _ _ Hlt)).
  cbn [bind Monad_Run ret].
  match goal with
  | |- context [loop_row bc uninit ?n (?n + 1) ?s ?c0] =>
      destruct (@loop_row_Done n s c0)
        as (cs' & Hrun & Hl & Hs & Hnm & Hty)
  end.
  rewrite Hrun. cbn [bind Monad_Run ret].
  destruct Hs as (Hst & Hc & Hcc & Hlc' & Hb' & _).
  simpl in Hst, Hc, Hcc, Hlc', Hb', Hnm, Hty.
  exists cs'. split; [reflexivity|].
  destruct Hl as (?&?&?&?&?).
  repeat split; try assumption.
  { rewrite Hlc'. exact Hlc. }
  rewrite Hst. clear.
  revert p. induction (CS.store cs) as [|c st IH]; intros [|p]; simpl;
    try reflexivity.
  rewrite IH. reflexivity.
Qed.

(** On a well-formed registry the single-axis [AddLoopConstraint] either
    meets the conditions of the merge or does what it does without the
    flag. *)
Lemma AddLoopConstraint_cases (cs : CS.ConstraintSet R)
  (idP idS : nat) (XP XS : SpatialTransform R) (axis : SpatialVector R)
  (enableStab : bool) (stabParam : R) (constraintName : option string)
  (allow pl vl : bool) :
  registry_wf cs ->
  (exists l p lc,
     allow = true /\
     CS.loopConstraints cs = l ++ [p] /\
     In p (CS.constraints cs) /\
     nth_error (CS.store cs) p = Some (Loop lc) /\
     lc_idPredecessor lc = idP /\ lc_idSuccessor lc = idS /\
     framesNumericallyIdentical (mul epsilon (of_nat 100))
       {| r := vsub (r XP) (r (lc_XPredecessor lc));
          E := msub (E XP) (E (lc_XPredecessor lc)) |}
       {| r := vsub (r XS) (r (lc_XSuccessor lc));
          E := msub (E XS) (E (lc_XSuccessor lc)) |} = true) \/
  AddLoopConstraint bc uninit cs idP idS XP XS axis enableStab stabParam
    constraintName allow pl vl
  = AddLoopConstraint bc uninit cs idP idS XP XS axis enableStab stabParam
      constraintName false pl vl.
Proof.
  intros Hwf.
  destruct allow; [|right; reflexivity].
  destruct (snoc_view (CS.loopConstraints cs)) as [Hnil|(l & p & Hl)].
  { right. unfold AddLoopConstraint. rewrite Hnil. reflexivity. }
  destruct (@last_loop_registered R cs l p Hwf Hl) as (Hin & lc & Hp).
  destruct ((lc_idPredecessor lc =? idP) && (lc_idSuccessor lc =? idS))
    eqn:Hids.
  - destruct (framesNumericallyIdentical (mul epsilon (of_nat 100))
                {| r := vsub (r XP) (r (lc_XPredecessor lc));
                   E := msub (E XP) (E (lc_XPredecessor lc)) |}
                {| r := vsub (r XS) (r (lc_XSuccessor lc));
                   E := msub (E XS) (E (lc_XSuccessor lc)) |}) eqn:Hfr.
    + left. apply andb_true_iff in Hids. destruct Hids as (H1 & H2).
      apply Nat.eqb_eq in H1, H2.
      exists l, p, lc. repeat split; assumption.
    + right. unfold AddLoopConstraint.
      destruct (assert_ bc (negb (CS.bound cs))); try reflexivity.
      cbn [bind Monad_Run].
      rewrite andb_false_r.
      match goal with
      | |- match ?blk with _ => _ end = _ =>
          assert (Hblk : blk = ret None)
      end.
      { rewrite Hl, length_app. cbn [length].
        replace (0 <? length l + 1) with true
          by (symmetry; apply Nat.ltb_lt; lia).
        cbn [andb].
        replace (length l + 1 - 1) with (length l) by lia.
        rewrite at_app_last.
        unfold deref_loop, deref. rewrite (at_Some _ _ Hp).
        cbn [bind Monad_Run ret].
        rewrite Hids, Hfr. reflexivity. }
      rewrite Hblk. reflexivity.
  - right. unfold AddLoopConstraint.
    destruct (assert_ bc (negb (CS.bound cs))); try reflexivity.
    cbn [bind Monad_Run].
    rewrite andb_false_r.
    match goal with
    | |- match ?blk with _ => _ end = _ =>
        assert (Hblk : blk = ret None)
    end.
    { rewrite Hl, length_app. cbn [length].
      replace (0 <? length l + 1) with true
        by (symmetry; apply Nat.ltb_lt; lia).
      cbn [andb].
      replace (length l + 1 - 1) with (length l) by lia.
      rewrite at_app_last.
      unfold deref_loop, deref. rewrite (at_Some _ _ Hp).
      cbn [bind Monad_Run ret].
      rewrite Hids. reflexivity. }
    rewrite Hblk. reflexivity.
Qed.

(** The same for the single-normal [AddContactConstraint]. *)
Lemma AddContactConstraint_cases (cs : CS.ConstraintSet R)
  (body_id : nat) (body_point world_normal : Vector3d R)
  (constraint_name : option string) (allow : bool) :
  registry_wf cs ->
  (exists l p c,
     allow = true /\
     CS.contactConstraints cs = l ++ [p] /\
     In p (CS.constraints cs) /\
     nth_error (CS.store cs) p = Some (Contact c) /\
     cc_bodyId c = body_id /\
     ltb (norm (vsub body_point (cc_point c))) (mul epsilon (of_nat 100))
     = true) \/
  AddContactConstraint bc uninit cs body_id body_point world_normal
    constraint_name allow
  = AddContactConstraint bc uninit cs body_id body_point world_normal
      constraint_name false.
Proof.
  intros Hwf.
  destruct allow; [|right; reflexivity].
  destruct (snoc_view (CS.contactConstraints cs)) as [Hnil|(l & p & Hl)].
  { right. unfold AddContactConstraint. rewrite Hnil. reflexivity. }
  destruct (@last_contact_registered R cs l p Hwf Hl) as (Hin & c & Hp).
  destruct (cc_bodyId c =? body_id) eqn:Hid.
  - destruct (ltb (norm (vsub body_point (cc_point c)))
                (mul epsilon (of_nat 100))) eqn:Hnear.
    + left. apply Nat.eqb_eq in Hid.
      exists l, p, c. repeat split; assumption.
    + right. unfold AddContactConstraint.
      destruct (assert_ bc (negb (CS.bound cs))); try reflexivity.
      cbn [bind Monad_Run].
      rewrite andb_false_r.
      match goal with
      | |- match ?blk with _ => _ end = _ =>
          assert (Hblk : blk = ret None)
      end.
      { rewrite Hl, length_app. cbn [length].
        replace (0 <? length l + 1) with true
          by (symmetry; apply Nat.ltb_lt; lia).
        cbn [andb].
        replace (length l + 1 - 1) with (length l) by lia.
        rewrite at_app_last.
        unfold deref_contact, deref. rewrite (at_Some _ _ Hp).
        cbn [bind Monad_Run ret].
        rewrite Hid, Hnear. reflexivity. }
      rewrite Hblk. reflexivity.
  - right. unfold AddContactConstraint.
    destruct (assert_ bc (negb (CS.bound cs))); try reflexivity.
    cbn [bind Monad_Run].
    rewrite andb_false_r.
    match goal with
    | |- match ?blk with _ => _ end = _ =>
        assert (Hblk : blk = ret None)
    end.
    { rewrite Hl, length_app. cbn [length].
      replace (0 <? length l + 1) with true
        by (symmetry; apply Nat.ltb_lt; lia).
      cbn [andb].
      replace (length l + 1 - 1) with (length l) by lia.
      rewrite at_app_last.
      unfold deref_contact, deref. rewrite (at_Some _ _ Hp).
      cbn [bind Monad_Run ret].
      rewrite Hid. reflexivity. }
    rewrite Hblk. reflexivity.
Qed.

End LoopFacts.

Section ReturnedRow.
Context {R : Type} {SR : Scalar R} {SO : ScalarOrd R}.
Variable bc : Build.
Variable uninit : R.

(** What [AddCustomConstraint] returns is the index of the last row. *)
Lemma AddCustomConstraint_row (cs cs' : CS.ConstraintSet R)
  (u : CustomConstraint) (row : Z) :
  AddCustomConstraint bc uninit cs u = Done (cs', row) ->
  row = unsigned_pred (size cs + cu_size u).
Proof.
  unfold AddCustomConstraint, make_shared. cbn [bind Monad_Run ret].
  repeat match goal with
         | |- match ?r with _ => _ end = _ -> _ =>
             destruct r; try discriminate
         end.
  intros H. inversion H. reflexivity.
Qed.

(** [n - 1] taken twice through a 32-bit unsigned is [n - 1]. *)
Lemma unsigned_pred_again (n : nat) :
  (((unsigned_pred n + 1) mod 2 ^ 32 - 1) mod 2 ^ 32)%Z = unsigned_pred n.
Proof.
  unfold unsigned_pred.
  rewrite Zplus_mod_idemp_l, Zminus_mod_idemp_l.
  f_equal. lia.
Qed.

(** The single-normal [AddContactConstraint] without merging returns what
    the multi-normal overload returns. *)
Lemma AddContactConstraint_delegates (cs cs' : CS.ConstraintSet R)
  (body_id : nat) (body_point world_normal : Vector3d R)
  (constraint_name : option string) (n : nat) :
  CS.bound cs = false ->
  AddContactConstraint_normals bc uninit cs body_id body_point
    [world_normal] constraint_name = Done (cs', unsigned_pred n) ->
  AddContactConstraint bc uninit cs body_id body_point world_normal
    constraint_name false = Done (cs', unsigned_pred n).
Proof.
  intros Hb Hrun. unfold AddContactConstraint.
  rewrite (assert_unbound bc _ Hb). cbn [bind Monad_Run].
  rewrite andb_false_r. cbn [bind Monad_Run ret].
  rewrite Hrun. cbn [bind Monad_Run ret].
  rewrite unsigned_pred_again. reflexivity.
Qed.

End ReturnedRow.

(* ===================================================================== *)
(** * The claims about registration *)
(* ===================================================================== *)

(** C3, at the input where the code breaks it: after a loop constraint with
    three axes (row accounting holds), a contact constraint with one normal
    leaves four rows in the registered constraints, four names and four row
    types, but per-row vectors of length six.  The row count is read from
    [constraints[ccIndex]] (the loop constraint, three rows) instead of
    [constraints[cIndex]] (the new contact constraint, one row). *)
Theorem C3_row_accounting_broken_after_loop_then_contact :
  forall (bc : Build) (uninit : float),
  exists cs1 row1 cs2 row2,
    AddLoopConstraint_axes bc uninit (empty_set LinearSolverPartialPivLU)
      0 3 SpatialTransform_Identity SpatialTransform_Identity
      [set_nth SpatialVector_Zero 3 1%float;
       set_nth SpatialVector_Zero 4 1%float;
       set_nth SpatialVector_Zero 5 1%float]
      false 0%float (Some "loop"%string) true true
    = Done (cs1, row1) /\
    row_accounting cs1 /\
    AddContactConstraint_normals bc uninit cs1 3 [0; 0; 0]%float
      [[0; 0; 1]%float] (Some "ground"%string)
    = Done (cs2, row2) /\
    constraint_rows cs2 = [3; 1] /\
    length (CS.name cs2) = 4 /\
    length (CS.constraintType cs2) = 4 /\
    length (CS.err cs2) = 6 /\
    length (CS.errd cs2) = 6 /\
    length (CS.force cs2) = 6 /\
    length (CS.impulse cs2) = 6 /\
    length (CS.v_plus cs2) = 6 /\
    row2 = 5%Z /\
    ~ row_accounting cs2.
Proof.
  intros [[|] sm] uninit.
  all: eexists; eexists; eexists; eexists.
  all: split; [vm_compute; reflexivity|].
  all: split; [repeat split|].
  all: split; [vm_compute; reflexivity|].
  all: repeat (split; [reflexivity|]).
  all: intros (He & _); vm_compute in He; discriminate.
Qed.

(** C4: with merging allowed, a single-normal contact constraint whose
    immediately preceding registered constraint is a contact constraint on the
    same body, with a contact point less than 100 machine epsilons away in
    norm, adds its normal to that object: no object is created, the existing
    normals keep their place and the new one comes after them.  With the flag
    disabled a new object with the one normal is created, whatever the body
    and the point, and the preceding object is left as it is.  The registry
    is unbound and well formed and every constraint in it has a row. *)
Theorem C4_contact_merge_appends_normal :
  forall (R : Type) (SR : Scalar R) (SO : ScalarOrd R) (bc : Build)
         (uninit : R) (cs : CS.ConstraintSet R) (body_id : nat)
         (body_point world_normal : Vector3d R)
         (constraint_name : option string) (l : list nat) (p : nat)
         (c : ContactConstraint R),
    CS.bound cs = false ->
    registry_wf cs ->
    rows_positive cs ->
    CS.constraints cs = l ++ [p] ->
    nth_error (CS.store cs) p = Some (Contact c) ->
    cc_bodyId c = body_id ->
    ltb (norm (vsub body_point (cc_point c))) (mul epsilon (of_nat 100))
    = true ->
    (exists cs' row c',
       AddContactConstraint bc uninit cs body_id body_point world_normal
         constraint_name true = Done (cs', row) /\
       CS.constraints cs' = CS.constraints cs /\
       length (CS.store cs') = length (CS.store cs) /\
       nth_error (CS.store cs') p = Some (Contact c') /\
       cc_normals c' = cc_normals c ++ [world_normal] /\
       cc_rowInSystem c' = cc_rowInSystem c /\
       (forall q, q <> p ->
          nth_error (CS.store cs') q = nth_error (CS.store cs) q)) /\
    (forall (body_id' : nat) (body_point' world_normal' : Vector3d R),
     exists cs' row,
       AddContactConstraint bc uninit cs body_id' body_point' world_normal'
         constraint_name false = Done (cs', row) /\
       CS.constraints cs' = CS.constraints cs ++ [length (CS.store cs)] /\
       CS.store cs' =
         CS.store cs
         ++ [Contact {| cc_bodyId := body_id'; cc_point := body_point';
                        cc_normals := [world_normal'];
                        cc_name := constraint_name;
                        cc_rowInSystem := size cs |}]).
Proof.
  intros R SR SO bc uninit cs body_id body_point world_normal
    constraint_name l p c Hb Hwf Hpos Hl Hp Hbody Hnear.
  split.
  - destruct (@AddContactConstraint_merge R SR SO bc uninit cs body_id
                body_point world_normal constraint_name
                (filter (is_contact_at cs) l) p c Hb
                (@last_contact R cs l p c Hwf Hl Hp) Hp Hbody Hnear)
      as (cs' & Hrun & _ & Hc & _ & _ & Hst & _).
    exists cs', (unsigned_pred (size cs + 1)),
      (appendNormalVector world_normal c).
    assert (Hlt : p < length (CS.store cs))
      by (apply nth_error_Some; congruence).
    split; [exact Hrun|]. split; [exact Hc|].
    rewrite Hst, length_set_nth.
    split; [reflexivity|].
    split; [apply nth_error_set_nth_eq; exact Hlt|].
    split; [reflexivity|]. split; [reflexivity|].
    intros q Hq. apply nth_error_set_nth_ne. congruence.
  - intros body_id' body_point' world_normal'.
    destruct (@row_count_source R cs
                (Contact {| cc_bodyId := body_id'; cc_point := body_point';
                            cc_normals := [world_normal'];
                            cc_name := constraint_name;
                            cc_rowInSystem := size cs |}) Hwf Hpos)
      as (q & c_cc & Hq & Hc & Hsz); [simpl; lia|].
    destruct (@AddContactConstraint_no_merge R SR SO bc uninit cs body_id'
                body_point' world_normal' constraint_name q c_cc Hb Hq Hc
                Hsz)
      as (cs' & row & Hrun & _ & Hcn & _ & _ & Hst & _).
    exists cs', row. auto.
Qed.

(** C4, run: the ground contact of [one_contact] and a second normal at a
    point 2^-50 away. *)
Lemma C4_contact_merge_appends_normal_witness :
  exists cs' row c',
    AddContactConstraint debug_build 0%float one_contact 3
      [0x1p-50; 0; 0]%float [1; 0; 0]%float (Some "ground"%string) true
    = Done (cs', row) /\
    CS.constraints cs' = CS.constraints one_contact /\
    nth_error (CS.store cs') 0 = Some (Contact c') /\
    cc_normals c' = [[0; 0; 1]; [1; 0; 0]]%float.
Proof.
  destruct (@C4_contact_merge_appends_normal float _ _ debug_build 0%float
              one_contact 3 [0x1p-50; 0; 0]%float [1; 0; 0]%float
              (Some "ground"%string) [] 0
              {| cc_bodyId := 3; cc_point := [0; 0; 0]%float;
                 cc_normals := [[0; 0; 1]%float];
                 cc_name := Some "ground"%string; cc_rowInSystem := 0 |})
    as ((cs' & row & c' & Hrun & Hc & _ & Hp & Hn & _) & _).
  - reflexivity.
  - repeat split. vm_compute. repeat constructor.
  - vm_compute. repeat constructor.
  - reflexivity.
  - reflexivity.
  - reflexivity.
  - vm_compute. reflexivity.
  - exists cs', row, c'. auto.
Defined.

(** C7, where the code departs from it: on a bound registry
    [AddCustomConstraint] returns in every build and registers the
    constraint, and so does the multi-normal [AddContactConstraint] (on a
    well-formed registry whose constraints all have a row); neither looks at
    [bound].  The single-normal [AddContactConstraint] and both
    [AddLoopConstraint] overloads check it with [assert], and terminate the
    process when asserts are compiled in. *)
Theorem C7_registration_on_bound_registry :
  forall (R : Type) (SR : Scalar R) (SO : ScalarOrd R) (bc : Build)
         (uninit : R) (cs : CS.ConstraintSet R),
    CS.bound cs = true ->
    (forall u : CustomConstraint,
     exists cs' row,
       AddCustomConstraint bc uninit cs u = Done (cs', row) /\
       CS.bound cs' = true /\
       CS.constraints cs' = CS.constraints cs ++ [length (CS.store cs)]) /\
    (registry_wf cs -> rows_positive cs ->
     forall (bodyId : nat) (bodyPoint worldNormal : Vector3d R)
            (constraintName : option string),
     exists cs' row,
       AddContactConstraint_normals bc uninit cs bodyId bodyPoint
         [worldNormal] constraintName = Done (cs', row) /\
       CS.bound cs' = true /\
       CS.constraints cs' = CS.constraints cs ++ [length (CS.store cs)]) /\
    (NDEBUG bc = false ->
     (forall body_id body_point world_normal constraint_name allow,
        AddContactConstraint bc uninit cs body_id body_point world_normal
          constraint_name allow = Aborted [assertion_failed]) /\
     (forall idP idS XP XS axis enableStab stabParam constraintName allow
             positionLevel velocityLevel,
        AddLoopConstraint bc uninit cs idP idS XP XS axis enableStab
          stabParam constraintName allow positionLevel velocityLevel
        = Aborted [assertion_failed]) /\
     (forall idP idS XP XS axes enableStab stabParam constraintName
             positionLevel velocityLevel,
        AddLoopConstraint_axes bc uninit cs idP idS XP XS axes enableStab
          stabParam constraintName positionLevel velocityLevel
        = Aborted [assertion_failed])).
Proof.
  intros R SR SO bc uninit cs Hb. split; [|split].
  - intros u.
    destruct (@AddCustomConstraint_Done R SR bc uninit cs u)
      as (cs' & row & Hrun & Hb' & Hc & _).
    exists cs', row. rewrite Hb' , Hb. auto.
  - intros Hwf Hpos bodyId bodyPoint worldNormal constraintName.
    destruct (@row_count_source R cs
                (Contact {| cc_bodyId := bodyId; cc_point := bodyPoint;
                            cc_normals := [worldNormal];
                            cc_name := constraintName;
                            cc_rowInSystem := size cs |}) Hwf Hpos)
      as (q & c_cc & Hq & Hc & Hsz); [simpl; lia|].
    destruct (@AddContactConstraint_normals_Done R SR bc uninit cs bodyId
                bodyPoint [worldNormal] constraintName q c_cc Hq Hc Hsz)
      as (cs' & Hrun & Hb' & Hcn & _).
    eexists; eexists. split; [exact Hrun|]. rewrite Hb', Hb. auto.
  - intros Hdbg.
    assert (Hassert : assert_ bc (negb (CS.bound cs))
                      = Aborted [assertion_failed]).
    { unfold assert_. rewrite Hdbg, Hb. reflexivity. }
    repeat split; intros.
    + unfold AddContactConstraint. rewrite Hassert. reflexivity.
    + unfold AddLoopConstraint. rewrite Hassert. reflexivity.
    + unfold AddLoopConstraint_axes. rewrite Hassert. reflexivity.
Qed.

(** C7, run: the bound registry [one_contact_bound] takes a custom
    constraint of two rows. *)
Lemma C7_registration_on_bound_registry_witness :
  CS.bound one_contact_bound = true /\
  exists cs' row,
    AddCustomConstraint debug_build 0%float one_contact_bound
      {| cu_impl := 0; cu_size := 2; cu_name := None;
         cu_baumgarteEnabled := false; cu_rowInSystem := 0 |}
    = Done (cs', row) /\
    CS.bound cs' = true /\
    CS.constraints cs' = CS.constraints one_contact_bound ++ [1].
Proof.
  split; [reflexivity|].
  exact (proj1 (@C7_registration_on_bound_registry float _ _ debug_build
                  0%float one_contact_bound eq_refl)
           {| cu_impl := 0; cu_size := 2; cu_name := None;
              cu_baumgarteEnabled := false; cu_rowInSystem := 0 |}).
Defined.

(* ===================================================================== *)
(** * The claim about [clear] *)
(* ===================================================================== *)

Section ClearFacts.
Context {R : Type} {SR : Scalar R}.

Lemma zero_vector_setZero (v : list R) : zero_vector (setZero v).
Proof. unfold zero_vector, setZero. rewrite repeat_length. reflexivity. Qed.

Lemma zero_matrix_msetZero (M : MatrixNd R) : zero_matrix (msetZero M).
Proof. intros i j. reflexivity. Qed.

Lemma Forall_zero_map_setZero (l : list (list R)) :
  Forall zero_vector (map setZero l).
Proof.
  induction l as [|v l IH]; simpl; constructor;
    auto using zero_vector_setZero.
Qed.

Lemma map_setZero_idem (l : list (list R)) :
  map setZero (map setZero l) = map setZero l.
Proof.
  rewrite map_map. apply map_ext. intros v. apply setZero_idem.
Qed.

Lemma cache_cleared_clear_cache (c : ConstraintCache R) :
  cache_cleared (clear_cache c).
Proof.
  unfold cache_cleared, clear_cache; simpl.
  repeat split;
    first [apply zero_vector_setZero | apply zero_matrix_msetZero].
Qed.

Lemma clear_cache_idem (c : ConstraintCache R) :
  clear_cache (clear_cache c) = clear_cache c.
Proof.
  unfold clear_cache; simpl. rewrite !setZero_idem. reflexivity.
Qed.

End ClearFacts.

(** C6, as amended: [clear] sets to zero the force and impulse entries, [H],
    [C], [gamma], [G], the KKT workspace [A], [b], [x], the Kokkevis
    workspace [K], [a], [QDDot_t], [QDDot_0], [f_t], [f_ext_constraints],
    [point_accel_0], [d_pA], [d_a], [d_u], and of the cache the N-vectors,
    3xN matrices, 3-vectors, spatial vectors, transform translations and 3x3
    matrices; it leaves every registered constraint and the row layout
    (names, row types, row ranges, array sizes) as they are; and clearing
    twice gives the state that clearing once gives. *)
Theorem C6_clear_zeroes_workspaces_keeps_layout :
  forall (R : Type) (SR : Scalar R) (cs : CS.ConstraintSet R),
    workspaces_cleared (clear cs) /\
    cache_cleared (CS.cache (clear cs)) /\
    same_layout cs (clear cs) /\
    clear (clear cs) = clear cs.
Proof.
  intros R SR cs. split; [|split; [|split]].
  - unfold workspaces_cleared, clear; simpl.
    repeat split;
      first [apply zero_vector_setZero | apply zero_matrix_msetZero
            | apply Forall_zero_map_setZero].
  - apply cache_cleared_clear_cache.
  - unfold same_layout, clear; simpl.
    rewrite !length_setZero, !length_map. repeat split.
  - unfold clear; simpl.
    rewrite !setZero_idem, !map_setZero_idem, clear_cache_idem.
    reflexivity.
Qed.

(** C6, as stated, fails: after [clear] the cache of [used_scratch] is not
    zero.  The 6xN scratch matrix still holds its one, and the rotation of
    the scratch transform [stA] is still the identity. *)
Lemma C6_clear_leaves_cache_entries :
  coeff (mat6NA (CS.cache (clear used_scratch))) 0 0 = 1%float /\
  coeff (E (stA (CS.cache (clear used_scratch)))) 0 0 = 1%float /\
  ~ cache_zero (CS.cache (clear used_scratch)).
Proof.
  split; [reflexivity|]. split; [reflexivity|].
  intros (_ & H6 & _).
  specialize (H6 0 0).
  apply (f_equal (fun t => PrimFloat.eqb t 0%float)) in H6.
  vm_compute in H6. discriminate.
Qed.

(* ===================================================================== *)
(** * The claim about the solver selector *)
(* ===================================================================== *)

(** C8, where the code departs from it.  With a selector [s] that is none of
    the three solvers:
    - [SolveLinearSystem] reports on [std::cerr] and terminates the process,
      in every build;
    - the direct solve, the null-space solve and the Kokkevis solve only
      [assert (0)]: with asserts compiled in the process is terminated; with
      [NDEBUG] each of them returns, the direct solve with the [x] it was
      given, the null-space solve with the [lambda] and [qddot_y] it was
      given, the Kokkevis solve with the forces the registry held. *)
Theorem C8_invalid_selector_not_fatal_without_asserts :
  forall (R Dyn : Type) (SR : Scalar R) (CO : Collaborators R Dyn)
         (sm : bool) (v : Z) (cs : CS.ConstraintSet R)
         (H G A Y Z : MatrixNd R)
         (c gamma lambda b x qddot qddot_y qddot_z : VectorNd R),
    let s := LinearSolverOther v in
    let release := {| NDEBUG := true; RBDL_USE_SIMPLE_MATH := sm |} in
    let debug := {| NDEBUG := false; RBDL_USE_SIMPLE_MATH := sm |} in
    CS.linear_solver cs = s ->
    (forall bc, fatal (SolveLinearSystem bc A b x s)) /\
    (exists A' b',
       SolveConstrainedSystemDirect release H G c gamma lambda A b x s
       = Done (A', b', x)) /\
    (exists qddot' qddot_z',
       SolveConstrainedSystemNullSpace release H G c gamma qddot lambda Y Z
         qddot_y qddot_z s
       = Done (qddot', lambda, qddot_y, qddot_z')) /\
    Kokkevis_solve {| NDEBUG := true; RBDL_USE_SIMPLE_MATH := false |} cs
    = Done (CS.force cs) /\
    fatal (SolveConstrainedSystemDirect debug H G c gamma lambda A b x s) /\
    fatal (SolveConstrainedSystemNullSpace debug H G c gamma qddot lambda Y
             Z qddot_y qddot_z s) /\
    fatal (Kokkevis_solve
             {| NDEBUG := false; RBDL_USE_SIMPLE_MATH := false |} cs).
Proof.
  intros R Dyn SR CO sm v cs H G A Y Z c gamma lambda b x qddot qddot_y
    qddot_z s release debug Hs.
  repeat split.
  - intros bc. unfold SolveLinearSystem, fatal, s.
    destruct (negb (rows A =? length b) || negb (cols A =? length x));
      unfold cerr, assert_, abort_; simpl;
      destruct (NDEBUG bc); simpl; eauto.
  - unfold SolveConstrainedSystemDirect, s, release; simpl. eauto.
  - unfold SolveConstrainedSystemNullSpace, s, release; simpl. eauto.
  - unfold Kokkevis_solve. rewrite Hs. reflexivity.
  - unfold SolveConstrainedSystemDirect, fatal, s, debug; simpl. eauto.
  - unfold SolveConstrainedSystemNullSpace, fatal, s, debug; simpl. eauto.
  - unfold Kokkevis_solve, fatal. rewrite Hs. simpl. eauto.
Qed.

(** C8, run: in a build without asserts the Kokkevis solve of
    [invalid_selector_bound] returns the forces the registry holds, and the
    direct solve returns the [x] of the registry. *)
Lemma C8_invalid_selector_not_fatal_without_asserts_witness :
  Kokkevis_solve (CO := PointMass) release_build invalid_selector_bound
  = Done (CS.force invalid_selector_bound) /\
  exists A' b',
    SolveConstrainedSystemDirect (CO := PointMass) release_build
      (CS.H invalid_selector_bound) (CS.G invalid_selector_bound)
      [0; -1; 0]%float (CS.gamma invalid_selector_bound)
      (CS.force invalid_selector_bound) (CS.A invalid_selector_bound)
      (CS.b invalid_selector_bound) (CS.x invalid_selector_bound)
      (LinearSolverOther 7)
    = Done (A', b', CS.x invalid_selector_bound).
Proof.
  pose proof
    (@C8_invalid_selector_not_fatal_without_asserts float (Vector3d float)
       _ PointMass false 7%Z invalid_selector_bound
       (CS.H invalid_selector_bound) (CS.G invalid_selector_bound)
       (CS.A invalid_selector_bound) (CS.Y invalid_selector_bound)
       (CS.Z invalid_selector_bound) [0; -1; 0]%float
       (CS.gamma invalid_selector_bound) (CS.force invalid_selector_bound)
       (CS.b invalid_selector_bound) (CS.x invalid_selector_bound)
       [0; 0; 0]%float (CS.qddot_y invalid_selector_bound)
       (CS.qddot_z invalid_selector_bound) eq_refl)
    as (_ & Hd & _ & Hk & _).
  split; [exact Hk | exact Hd].
Defined.

(* ===================================================================== *)
(** * The claims about the direct solve *)
(* ===================================================================== *)

(** C2: once the system is assembled, [ForwardDynamicsConstraintsDirect]
    has [SolveConstrainedSystemDirect] build the augmented matrix
    [[H, G^T], [G, 0]] in [A] and [c; gamma] in [b], with [c = Tau - C], and
    solve [A * x = b] with the factorisation the selector stands for; it
    returns the first [n] entries of [x] as accelerations and stores the
    negated last [m] entries as forces.  The workspace is that of a bound
    registry ([A] and [b] of size [n + m], the lower right block of [A]
    zero), the selector is one of the three, and a solve returns as many
    entries as its matrix has columns. *)
Theorem C2_direct_solve_assembles_and_negates :
  forall (R Dyn : Type) (SR : Scalar R) (CO : Collaborators R Dyn)
         (bc : Build) (model model1 : Model R Dyn)
         (Q QDot Tau QDDot : VectorNd R) (cs cs1 : CS.ConstraintSet R)
         (f_ext : option (list (SpatialVector R)))
         (solve : MatrixNd R -> VectorNd R -> VectorNd R),
    solvers_sized ->
    CalcConstrainedSystemVariables bc model Q QDot Tau cs f_ext
    = Done (model1, cs1) ->
    configured_solve bc (CS.linear_solver cs1) = Some solve ->
    kkt_ready (dof_count model1) cs1 ->
    length (vsub Tau (CS.C cs1)) = dof_count model1 ->
    length (CS.gamma cs1) = size cs1 ->
    length (CS.force cs1) = size cs1 ->
    length QDDot = dof_count model1 ->
    exists cs' qddot,
      ForwardDynamicsConstraintsDirect bc model Q QDot Tau cs QDDot f_ext
      = Done (model1, cs', qddot) /\
      same_matrix (CS.A cs')
        (KKT_matrix (CS.H cs1) (CS.G cs1) (dof_count model1) (size cs1)) /\
      CS.b cs' = vsub Tau (CS.C cs1) ++ CS.gamma cs1 /\
      CS.x cs' = solve (CS.A cs') (CS.b cs') /\
      qddot = firstn (dof_count model1) (CS.x cs') /\
      CS.force cs' = map opp (skipn (dof_count model1) (CS.x cs')) /\
      length (CS.force cs') = size cs1.
Proof.
  intros R Dyn SR CO bc model model1 Q QDot Tau QDDot cs cs1 f_ext solve
    Hsized Hcalc Hsolve Hkkt Hc Hg Hf HQ.
  destruct (@ForwardDynamicsConstraintsDirect_Done R Dyn SR CO bc model
              model1 Q QDot Tau QDDot cs cs1 f_ext solve Hsized Hcalc Hsolve
              Hkkt Hc Hg Hf HQ)
    as (cs' & Hrun & HA & Hb & Hx & Hlen & Hforce & _).
  exists cs', (firstn (dof_count model1) (CS.x cs')).
  repeat (split; [assumption || reflexivity|]).
  rewrite Hforce, length_map, length_skipn. lia.
Qed.

(** C2, run: the point mass with its ground contact, at rest. *)
Lemma C2_direct_solve_assembles_and_negates_witness :
  exists cs' qddot,
    ForwardDynamicsConstraintsDirect (CO := PointMass) debug_build
      (point_mass [0; -1; 0]%float) [0; 0; 0]%float [0; 0; 0]%float
      [0; 0; 0]%float one_contact_bound [0; 0; 0]%float None
    = Done (point_mass [0; -1; 0]%float, cs', qddot) /\
    qddot = firstn 3 (CS.x cs') /\
    CS.force cs' = map opp (skipn 3 (CS.x cs')).
Proof.
  destruct (@C2_direct_solve_assembles_and_negates float (Vector3d float)
               _ PointMass debug_build (point_mass [0; -1; 0]%float)
               (point_mass [0; -1; 0]%float)
               [0; 0; 0]%float [0; 0; 0]%float [0; 0; 0]%float
               [0; 0; 0]%float one_contact_bound one_contact_assembled None
               gauss_jordan)
    as (cs' & qddot & Hrun & _ & _ & _ & Hq & Hf & _).
  - apply PointMass_solvers_sized.
  - vm_compute. reflexivity.
  - reflexivity.
  - repeat split.
  - reflexivity.
  - reflexivity.
  - reflexivity.
  - reflexivity.
  - exists cs', qddot. auto.
Defined.

Lemma nth_skipn_add {T : Type} (l : list T) (n i : nat) (d : T) :
  nth i (skipn n l) d = nth (n + i) l d.
Proof.
  revert l; induction n as [|n IH]; intros [|c l]; simpl; auto.
  destruct i; reflexivity.
Qed.

Lemma nth_map_in {T U : Type} (f : T -> U) (l : list T) (i : nat)
  (d : T) (e : U) :
  i < length l -> nth i (map f l) e = f (nth i l d).
Proof.
  intros Hi. rewrite (nth_indep _ e (f d)) by (rewrite length_map; lia).
  apply map_nth.
Qed.

(** C10: [ComputeConstraintImpulsesDirect] stores entry [n + i] of the
    solution as impulse [i], as it is, while
    [ForwardDynamicsConstraintsDirect] stores the opposite of entry [n + i]
    as force [i].  Both run on a bound registry's workspace with one of the
    three selectors; the impulse system is taken after the inertia matrix and
    the Jacobian are there, the force system after its assembly. *)
Theorem C10_impulse_not_negated_force_negated :
  forall (R Dyn : Type) (SR : Scalar R) (CO : Collaborators R Dyn)
         (bc : Build) (model model1 model2 fmodel fmodel1 : Model R Dyn)
         (Q QDotMinus QDotPlus fQ fQDot Tau QDDot : VectorNd R)
         (cs cs2 fcs fcs1 : CS.ConstraintSet R) (H1 G2 : MatrixNd R)
         (f_ext : option (list (SpatialVector R)))
         (solve fsolve : MatrixNd R -> VectorNd R -> VectorNd R),
    solvers_sized ->
    CompositeRigidBodyAlgorithm
      (UpdateKinematicsCustom model (Some Q) None None) Q (CS.H cs)
    = (model1, H1) ->
    CalcConstraintsJacobian model1 Q (CS.set_H H1 cs) (CS.G cs) false
    = Done (model2, cs2, G2) ->
    configured_solve bc (CS.linear_solver cs2) = Some solve ->
    kkt_ready (dof_count model2) cs2 ->
    length (mvmul (CS.H cs2) QDotMinus) = dof_count model2 ->
    length (CS.v_plus cs2) = size cs2 ->
    length (CS.impulse cs2) = size cs2 ->
    length QDotPlus = dof_count model2 ->
    CalcConstrainedSystemVariables bc fmodel fQ fQDot Tau fcs f_ext
    = Done (fmodel1, fcs1) ->
    configured_solve bc (CS.linear_solver fcs1) = Some fsolve ->
    kkt_ready (dof_count fmodel1) fcs1 ->
    length (vsub Tau (CS.C fcs1)) = dof_count fmodel1 ->
    length (CS.gamma fcs1) = size fcs1 ->
    length (CS.force fcs1) = size fcs1 ->
    length QDDot = dof_count fmodel1 ->
    (exists cs' qdotplus,
       ComputeConstraintImpulsesDirect bc model Q QDotMinus cs QDotPlus
       = Done (model2, cs', qdotplus) /\
       CS.x cs' = solve (CS.A cs') (CS.b cs') /\
       length (CS.impulse cs') = size cs2 /\
       forall i, i < size cs2 ->
         nth i (CS.impulse cs') zero
         = nth (dof_count model2 + i) (CS.x cs') zero) /\
    (exists fcs' qddot,
       ForwardDynamicsConstraintsDirect bc fmodel fQ fQDot Tau fcs QDDot
         f_ext
       = Done (fmodel1, fcs', qddot) /\
       CS.x fcs' = fsolve (CS.A fcs') (CS.b fcs') /\
       length (CS.force fcs') = size fcs1 /\
       forall i, i < size fcs1 ->
         nth i (CS.force fcs') zero
         = opp (nth (dof_count fmodel1 + i) (CS.x fcs') zero)).
Proof.
  intros R Dyn SR CO bc model model1 model2 fmodel fmodel1 Q QDotMinus
    QDotPlus fQ fQDot Tau QDDot cs cs2 fcs fcs1 H1 G2 f_ext solve fsolve
    Hsized Hcrba Hjac Hsolve Hkkt Hc Hv Hi HQ
    Hcalc Hfsolve Hfkkt Hfc Hfg Hff HfQ.
  split.
  - destruct (@ComputeConstraintImpulsesDirect_Done R Dyn SR CO bc model
                model1 model2 Q QDotMinus QDotPlus cs cs2 H1 G2 solve
                Hsized Hcrba Hjac Hsolve Hkkt Hc Hv Hi HQ)
      as (cs' & Hrun & _ & _ & Hx & Hlen & Himp).
    exists cs', (firstn (dof_count model2) (CS.x cs')).
    split; [exact Hrun|]. split; [exact Hx|].
    split; [rewrite Himp, length_skipn; lia|].
    intros i _. rewrite Himp. apply nth_skipn_add.
  - destruct (@ForwardDynamicsConstraintsDirect_Done R Dyn SR CO bc fmodel
                fmodel1 fQ fQDot Tau QDDot fcs fcs1 f_ext fsolve Hsized
                Hcalc Hfsolve Hfkkt Hfc Hfg Hff HfQ)
      as (fcs' & Hrun & _ & _ & Hx & Hlen & Hforce & _).
    exists fcs', (firstn (dof_count fmodel1) (CS.x fcs')).
    split; [exact Hrun|]. split; [exact Hx|].
    split; [rewrite Hforce, length_map, length_skipn; lia|].
    intros i Hlt. rewrite Hforce.
    rewrite (nth_map_in opp _ zero zero) by (rewrite length_skipn; lia).
    rewrite nth_skipn_add. reflexivity.
Qed.

(** C10, run: the point mass hits the ground with velocity -1 along z, and
    rests on it under gravity. *)
Lemma C10_impulse_not_negated_force_negated_witness :
  (exists cs' qdotplus,
     ComputeConstraintImpulsesDirect (CO := PointMass) debug_build
       (point_mass [0; -1; 0]%float) [0; 0; 0]%float [0; 0; -1]%float
       one_contact_bound [0; 0; 0]%float
     = Done (point_mass [0; -1; 0]%float, cs', qdotplus) /\
     nth 0 (CS.impulse cs') 0%float = nth 3 (CS.x cs') 0%float) /\
  (exists fcs' qddot,
     ForwardDynamicsConstraintsDirect (CO := PointMass) debug_build
       (point_mass [0; -1; 0]%float) [0; 0; 0]%float [0; 0; 0]%float
       [0; 0; 0]%float one_contact_bound [0; 0; 0]%float None
     = Done (point_mass [0; -1; 0]%float, fcs', qddot) /\
     nth 0 (CS.force fcs') 0%float
     = PrimFloat.opp (nth 3 (CS.x fcs') 0%float)).
Proof.
  destruct (@C10_impulse_not_negated_force_negated float (Vector3d float)
              _ PointMass debug_build
              (point_mass [0; -1; 0]%float) (point_mass [0; -1; 0]%float)
              (point_mass [0; -1; 0]%float) (point_mass [0; -1; 0]%float)
              (point_mass [0; -1; 0]%float)
              [0; 0; 0]%float [0; 0; -1]%float [0; 0; 0]%float
              [0; 0; 0]%float [0; 0; 0]%float [0; 0; 0]%float
              [0; 0; 0]%float
              one_contact_bound (fst one_contact_jacobian)
              one_contact_bound one_contact_assembled
              one_contact_inertia (snd one_contact_jacobian) None
              gauss_jordan gauss_jordan)
    as ((cs' & qp & Hrun & _ & _ & Himp)
        & (fcs' & qdd & Hfrun & _ & _ & Hforce)).
  - apply PointMass_solvers_sized.
  - reflexivity.
  - vm_compute. reflexivity.
  - reflexivity.
  - repeat split.
  - reflexivity.
  - reflexivity.
  - reflexivity.
  - reflexivity.
  - vm_compute. reflexivity.
  - reflexivity.
  - repeat split.
  - reflexivity.
  - reflexivity.
  - reflexivity.
  - reflexivity.
  - split.
    + exists cs', qp. split; [exact Hrun|]. apply (Himp 0). vm_compute. lia.
    + exists fcs', qdd. split; [exact Hfrun|]. apply (Hforce 0).
      vm_compute. lia.
Defined.

(* ===================================================================== *)
(** * The claim about the assembly projection *)
(* ===================================================================== *)

Section AssemblyFacts.
Context {R Dyn : Type} {SR : Scalar R} {SO : ScalarOrd R}
        {CO : Collaborators R Dyn}.
Variable bc : Build.

(** Passes that do not end the loop use up the budget: the loop returns
    [false] with the state of the last pass. *)
Lemma assembly_loop_exhausted (tolerance : R) (max_iter : nat)
  (st st' : AssemblyState) :
  passes bc tolerance max_iter st st' ->
  assembly_loop bc tolerance max_iter st = Done (st', false).
Proof.
  induction 1 as [st | n st st1 st' Hstep Hconv _ IH].
  - reflexivity.
  - cbn [assembly_loop]. rewrite Hstep. cbn [bind Monad_Run].
    rewrite Hconv. exact IH.
Qed.

(** The three size checks pass. *)
Lemma size_check_passes {T : Type} (a n : nat) (msg : string)
  (k : Run T) :
  a = n ->
  ((if negb (a =? n)
    then cerr msg (assert_ bc false ;; abort_)
    else ret tt) ;; k) = k.
Proof. intros ->. rewrite Nat.eqb_refl. reflexivity. Qed.

End AssemblyFacts.

(** C9: with vectors of the right sizes, [CalcAssemblyQ] returns [true] and
    the initial guess, whatever the iteration budget, when the position error
    of the guess has a norm below the tolerance: the state is the one the
    first error evaluation left, no pass of the loop has run.  When the norm
    is not below the tolerance and [max_iter] passes go by, each returning
    and none bringing both the error norm and the step norm below the
    tolerance, [CalcAssemblyQ] returns [false], with the last iterate in
    [Q]: it does not terminate the process. *)
Theorem C9_CalcAssemblyQ_immediate_and_exhausted :
  forall (R Dyn : Type) (SR : Scalar R) (SO : ScalarOrd R)
         (CO : Collaborators R Dyn) (bc : Build) (uninit : R)
         (model model1 : Model R Dyn) (cs cs1 : CS.ConstraintSet R)
         (QInit Q weights e : VectorNd R) (tolerance : R),
    length Q = q_size model ->
    length QInit = q_size model ->
    length weights = dof_count model ->
    CalcConstraintsPositionError bc model QInit cs (VectorNd_Zero (size cs))
      true = Done (model1, cs1, e) ->
    (ltb (norm e) tolerance = true ->
     forall max_iter,
       CalcAssemblyQ bc uninit model QInit cs Q weights tolerance max_iter
       = Done (model1, cs1, QInit, true)) /\
    (ltb (norm e) tolerance = false ->
     forall max_iter st',
       passes bc tolerance max_iter
         (assembly_start uninit model cs QInit weights model1 cs1 e) st' ->
       CalcAssemblyQ bc uninit model QInit cs Q weights tolerance max_iter
       = Done (as_model st', as_cs st', as_QInit st', false)).
Proof.
  intros R Dyn SR SO CO bc uninit model model1 cs cs1 QInit Q weights e
    tolerance HQ HQInit Hw He.
  split.
  - intros Hnear max_iter. unfold CalcAssemblyQ.
    rewrite !size_check_passes by assumption.
    rewrite He. cbn [bind Monad_Run]. rewrite Hnear. reflexivity.
  - intros Hfar max_iter st' Hpasses. unfold CalcAssemblyQ.
    rewrite !size_check_passes by assumption.
    rewrite He. cbn [bind Monad_Run]. rewrite Hfar.
    rewrite (assembly_loop_exhausted Hpasses). reflexivity.
Qed.

(** C9, run on the point mass whose first coordinate is held at one, with
    unit weights and tolerance 2^-30.  The guess (1, 0, 0) is returned at
    once, with a budget of five passes.  From (0, 0, 0) one pass reaches
    (1, 0, 0), where the error is zero but the step had norm one: with a
    budget of one pass the call returns [false] and (1, 0, 0). *)
Lemma C9_CalcAssemblyQ_immediate_and_exhausted_witness :
  (exists m c,
     CalcAssemblyQ (CO := PointMass) debug_build 0%float
       (point_mass [0; -1; 0]%float) [1; 0; 0]%float hold_x_bound
       [0; 0; 0]%float [1; 1; 1]%float 0x1p-30%float 5
     = Done (m, c, [1; 0; 0]%float, true)) /\
  (exists m c,
     CalcAssemblyQ (CO := PointMass) debug_build 0%float
       (point_mass [0; -1; 0]%float) [0; 0; 0]%float hold_x_bound
       [0; 0; 0]%float [1; 1; 1]%float 0x1p-30%float 1
     = Done (m, c, [1; 0; 0]%float, false)).
Proof.
  split.
  - eexists; eexists.
    refine (proj1 (@C9_CalcAssemblyQ_immediate_and_exhausted float
                     (Vector3d float) _ _ PointMass debug_build 0%float
                     (point_mass [0; -1; 0]%float) _ hold_x_bound _
                     [1; 0; 0]%float [0; 0; 0]%float [1; 1; 1]%float
                     _ 0x1p-30%float eq_refl eq_refl eq_refl _) _ 5).
    + vm_compute. reflexivity.
    + vm_compute. reflexivity.
  - eexists; eexists.
    etransitivity.
    + refine (proj2 (@C9_CalcAssemblyQ_immediate_and_exhausted float
                       (Vector3d float) _ _ PointMass debug_build 0%float
                       (point_mass [0; -1; 0]%float) _ hold_x_bound _
                       [0; 0; 0]%float [0; 0; 0]%float [1; 1; 1]%float
                       _ 0x1p-30%float eq_refl eq_refl eq_refl _) _ 1 _ _).
      * vm_compute. reflexivity.
      * vm_compute. reflexivity.
      * eapply passes_S; [vm_compute; reflexivity | vm_compute; reflexivity
                         | apply passes_0].
    + reflexivity.
Defined.

(* ===================================================================== *)
(** * The claim about the three solve strategies *)
(* ===================================================================== *)

(** C1, at an input where the code breaks it: the unit point mass under
    gravity (0, -1, 0), held by the contact normals (1, 0, 0) and (1, 1, 0),
    at rest with no applied force, in exact arithmetic.  [H] is the identity
    and [G] has full row rank.  The three entry points agree on the
    acceleration (zero).  The direct and the range-space solve store the
    forces (-1, 1), which satisfy [H * qddot - G^T * lambda = c].  The
    null-space solve stores (0, 1): every linear solve it makes is exact for
    the system it poses, but the system it poses for [lambda] is
    [(G * Y) * lambda = Y^T * (H * qddot - c)], and the forces that satisfy
    the equations of motion solve [(G * Y)^T * lambda = ...]. *)
Theorem C1_null_space_forces_differ :
  forall ndebug : bool,
  let bc := {| NDEBUG := ndebug; RBDL_USE_SIMPLE_MATH := false |} in
  let pm := point_mass [0; -1; 0]%Q in
  let q0 : VectorNd Q := [0; 0; 0]%Q in
  exists (csD csR csN : CS.ConstraintSet Q) (qD qR qN : VectorNd Q),
    ForwardDynamicsConstraintsDirect (CO := PointMass) bc pm q0 q0 q0
      two_normals_bound q0 None = Done (pm, csD, qD) /\
    ForwardDynamicsConstraintsRangeSpaceSparse (CO := PointMass) bc pm q0 q0
      q0 two_normals_bound q0 None = Done (pm, csR, qR) /\
    ForwardDynamicsConstraintsNullSpace (CO := PointMass) bc pm q0 q0 q0
      two_normals_bound q0 None = Done (pm, csN, qN) /\
    (* the assembled system *)
    to_rows (CS.H csD) = [[1; 0; 0]; [0; 1; 0]; [0; 0; 1]]%Q /\
    to_rows (CS.G csD) = [[1; 0; 0]; [1; 1; 0]]%Q /\
    vsub q0 (CS.C csD) = [0; -1; 0]%Q /\
    CS.gamma csD = [0; 0]%Q /\
    to_rows (CS.H csN) = to_rows (CS.H csD) /\
    to_rows (CS.G csN) = to_rows (CS.G csD) /\
    CS.C csN = CS.C csD /\ CS.gamma csN = CS.gamma csD /\
    (* the results *)
    qD = [0; 0; 0]%Q /\ qR = [0; 0; 0]%Q /\ qN = [0; 0; 0]%Q /\
    CS.force csD = [-1; 1]%Q /\
    CS.force csR = [-1; 1]%Q /\
    CS.force csN = [0; 1]%Q /\
    (* the solves are exact *)
    mvmul (CS.A csD) (CS.x csD) = CS.b csD /\
    to_rows (mmul (transpose (CS.GT_qr_Q csN)) (CS.GT_qr_Q csN))
    = [[1; 0; 0]; [0; 1; 0]; [0; 0; 1]]%Q /\
    to_rows (mmul (transpose (CS.GT_qr_Q csN)) (transpose (CS.G csN)))
    = [[1; 1]; [0; 1]; [0; 0]]%Q /\
    mvmul (mmul (CS.G csN) (CS.Y csN)) (CS.qddot_y csN) = CS.gamma csN /\
    mvmul (mmul (CS.G csN) (CS.Y csN)) (CS.force csN)
    = mvmul (transpose (CS.Y csN))
        (vsub (mvmul (CS.H csN) qN) (vsub q0 (CS.C csN))) /\
    (* the equations of motion *)
    vsub (mvmul (CS.H csD) qD) (mvmul (transpose (CS.G csD)) (CS.force csD))
    = vsub q0 (CS.C csD) /\
    vsub (mvmul (CS.H csN) qN) (mvmul (transpose (CS.G csN)) (CS.force csN))
    = [-1; -1; 0]%Q /\
    mvmul (transpose (mmul (CS.G csN) (CS.Y csN))) (CS.force csN)
    = [1; 1]%Q /\
    CS.force csN <> CS.force csD.
Proof.
  intros [|]; cbv zeta.
  all: eexists; eexists; eexists; eexists; eexists; eexists.
  all: split; [vm_compute; reflexivity|].
  all: split; [vm_compute; reflexivity|].
  all: split; [vm_compute; reflexivity|].
  all: repeat (split; [vm_compute; reflexivity|]).
  all: vm_compute; discriminate.
Qed.

(** The same run on binary64 numbers: every value is a small integer, no
    operation rounds, and the forces differ by one in their first entry. *)
Lemma null_space_forces_differ_binary64 :
  let pm := point_mass [0; -1; 0]%float in
  let q0 : VectorNd float := [0; 0; 0]%float in
  let cs :=
    bound_registry_of
      (Bind (CO := PointMass) debug_build 0%float pm
         (registry_of
            (AddContactConstraint_normals debug_build 0%float
               (empty_set LinearSolverPartialPivLU) 3 [0; 0; 0]%float
               [[1; 0; 0]%float; [1; 1; 0]%float] (Some "wedge"%string))
            (empty_set LinearSolverPartialPivLU)))
      (empty_set LinearSolverPartialPivLU) in
  exists csD csN qD qN,
    ForwardDynamicsConstraintsDirect (CO := PointMass) debug_build pm q0 q0
      q0 cs q0 None = Done (pm, csD, qD) /\
    ForwardDynamicsConstraintsNullSpace (CO := PointMass) debug_build pm q0
      q0 q0 cs q0 None = Done (pm, csN, qN) /\
    qD = qN /\
    CS.force csD = [-1; 1]%float /\
    CS.force csN = [0; 1]%float.
Proof.
  cbv zeta. eexists; eexists; eexists; eexists.
  split; [vm_compute; reflexivity|].
  split; [vm_compute; reflexivity|].
  repeat split; vm_compute; reflexivity.
Qed.

(* ===================================================================== *)
(** * Registration keeps the registry consistent *)
(* ===================================================================== *)



(** X2: [AddLoopConstraint] with a list of axes keeps an unbound registry
    consistent in every build: it returns the index of the last row, the
    registry stays well formed with no object twice, row accounting holds,
    and the new constraint has one row for every axis, after the rows that
    were there.  The new object carries the stabilisation settings of the
    call. *)
Theorem AddLoopConstraint_axes_keeps_row_accounting :
  forall (R : Type) (SR : Scalar R) (SO : ScalarOrd R) (bc : Build)
         (uninit : R) (cs : CS.ConstraintSet R) (idP idS : nat)
         (XP XS : SpatialTransform R) (axes : list (SpatialVector R))
         (enableStab : bool) (stabParam : R)
         (constraintName : option string) (pl vl : bool),
    registry_wf cs -> registered_once cs -> row_accounting cs ->
    CS.bound cs = false ->
    exists cs' l,
      AddLoopConstraint_axes bc uninit cs idP idS XP XS axes enableStab
        stabParam constraintName pl vl
      = Done (cs', unsigned_pred (total_rows cs')) /\
      registry_wf cs' /\ registered_once cs' /\ row_accounting cs' /\
      constraint_rows cs' = constraint_rows cs ++ [length axes] /\
      nth_error (CS.store cs') (length (CS.store cs)) = Some (Loop l) /\
      lc_axes l = axes /\ lc_rowInSystem l = total_rows cs /\
      lc_baumgarteEnabled l = enableStab /\
      lc_baumgarteTimeConstant l = stabParam.
Proof.
  intros R SR SO bc uninit cs idP idS XP XS axes enableStab stabParam
    constraintName pl vl Hwf Hnd Hacc Hb.
  destruct (@AddLoopConstraint_axes_Done R SR bc uninit cs idP idS XP XS
              axes enableStab stabParam constraintName pl vl Hb)
    as (cs' & Hrun & Hb' & Hc & Hcc & Hlc & Hst & Hl & Hnm & Hty).
  pose proof Hwf as (_ & _ & Hv).
  pose proof (@total_rows_append R cs cs' _ Hv Hst Hc) as Htot.
  pose proof (@constraint_rows_append R cs cs' _ Hv Hst Hc) as Hrows.
  cbn [getConstraintSize lc_axes] in Htot, Hrows.
  destruct Hacc as (A1 & A2 & A3 & A4 & A5 & A6 & A7).
  assert (Hsize : size cs = total_rows cs) by exact A7.
  eexists cs', _.
  split; [|split; [|split; [|split; [|split; [|split]]]]].
  - rewrite Hrun, Htot, Hsize. reflexivity.
  - apply (@registry_wf_append R cs cs' _ Hwf Hst Hc).
    + rewrite Hcc, app_nil_r. reflexivity.
    + rewrite Hlc. reflexivity.
  - exact (@registered_once_append R cs cs' Hv Hnd Hc).
  - destruct Hl as (L1 & L2 & L3 & L4 & L5).
    unfold row_accounting.
    rewrite L1, L2, L3, L4, L5, Hnm, Hty, Htot, !length_app, !repeat_length.
    rewrite A6, A7, Hsize. repeat split.
  - exact Hrows.
  - rewrite Hst, nth_error_app2, Nat.sub_diag by lia. reflexivity.
  - cbn. rewrite Hsize. repeat split.
Qed.

(** X2, run: a loop constraint with two axes after the contact constraint
    of [one_contact]. *)
Lemma AddLoopConstraint_axes_keeps_row_accounting_witness :
  exists cs' l,
    AddLoopConstraint_axes debug_build 0%float one_contact 0 3
      SpatialTransform_Identity SpatialTransform_Identity
      [set_nth SpatialVector_Zero 3 1%float;
       set_nth SpatialVector_Zero 4 1%float]
      true 0.5%float (Some "loop"%string) true true
    = Done (cs', unsigned_pred (total_rows cs')) /\
    registry_wf cs' /\ registered_once cs' /\ row_accounting cs' /\
    constraint_rows cs' = constraint_rows one_contact ++ [2] /\
    nth_error (CS.store cs') (length (CS.store one_contact))
    = Some (Loop l) /\
    lc_axes l = [set_nth SpatialVector_Zero 3 1%float;
                 set_nth SpatialVector_Zero 4 1%float] /\
    lc_rowInSystem l = total_rows one_contact /\
    lc_baumgarteEnabled l = true /\
    lc_baumgarteTimeConstant l = 0.5%float.
Proof.
  apply (@AddLoopConstraint_axes_keeps_row_accounting float _ _ debug_build
           0%float one_contact 0 3 SpatialTransform_Identity
           SpatialTransform_Identity
           [set_nth SpatialVector_Zero 3 1%float;
            set_nth SpatialVector_Zero 4 1%float]
           true 0.5%float (Some "loop"%string) true true).
  - repeat split. vm_compute. repeat constructor.
  - vm_compute. repeat constructor. simpl. tauto.
  - repeat split.
  - reflexivity.
Defined.

(** X3: the single-axis [AddLoopConstraint] keeps an unbound registry
    consistent in every build, whether it adds the axis to the last loop
    constraint or creates a new one, and whatever the flag: it returns the
    index of the last row, the registry stays well formed with no object
    twice, and row accounting holds with one more row. *)
Theorem AddLoopConstraint_keeps_row_accounting :
  forall (R : Type) (SR : Scalar R) (SO : ScalarOrd R) (bc : Build)
         (uninit : R) (cs : CS.ConstraintSet R) (idP idS : nat)
         (XP XS : SpatialTransform R) (axis : SpatialVector R)
         (enableStab : bool) (stabParam : R)
         (constraintName : option string) (allow pl vl : bool),
    registry_wf cs -> registered_once cs -> row_accounting cs ->
    CS.bound cs = false ->
    exists cs',
      AddLoopConstraint bc uninit cs idP idS XP XS axis enableStab stabParam
        constraintName allow pl vl
      = Done (cs', unsigned_pred (total_rows cs')) /\
      registry_wf cs' /\ registered_once cs' /\ row_accounting cs' /\
      total_rows cs' = total_rows cs + 1.
Proof.
  intros R SR SO bc uninit cs idP idS XP XS axis enableStab stabParam
    constraintName allow pl vl Hwf Hnd Hacc Hb.
  pose proof Hwf as (_ & _ & Hv).
  destruct Hacc as (A1 & A2 & A3 & A4 & A5 & A6 & A7).
  assert (Hsize : size cs = total_rows cs) by exact A7.
  destruct (@AddLoopConstraint_cases R SR SO bc uninit cs idP idS XP XS axis
              enableStab stabParam constraintName allow pl vl Hwf)
    as [(l & p & lc & -> & Hl & Hin & Hp & HidP & HidS & Hfr)|Heq].
  - destruct (@AddLoopConstraint_merge R SR SO bc uninit cs idP idS XP XS
                axis enableStab stabParam constraintName pl vl l p lc Hb Hl
                Hp HidP HidS Hfr)
      as (cs' & Hrun & Hb' & Hc & Hcc & Hlc & Hst & Hlen & Hnm & Hty).
    pose proof (@total_rows_update R cs cs' p (Loop lc)
                  (Loop (setBaumgarte stabParam enableStab
                           (appendConstraintAxis axis pl vl lc)))
                  Hnd Hin Hp Hst Hc) as Htot.
    cbn [getConstraintSize setBaumgarte appendConstraintAxis lc_axes]
      in Htot.
    rewrite length_app in Htot. cbn [length] in Htot.
    assert (Htot' : total_rows cs' = total_rows cs + 1) by lia.
    exists cs'. split; [|split; [|split; [|split]]].
    + rewrite Hrun, Htot', Hsize. reflexivity.
    + apply (@registry_wf_update R cs cs' p (Loop lc)
               (Loop (setBaumgarte stabParam enableStab
                        (appendConstraintAxis axis pl vl lc))) Hwf Hp);
        try assumption; reflexivity.
    + unfold registered_once. rewrite Hc. exact Hnd.
    + destruct Hlen as (L1 & L2 & L3 & L4 & L5).
      unfold row_accounting.
      rewrite L1, L2, L3, L4, L5, Hnm, Hty, Htot', !length_app.
      cbn [length]. rewrite A6, A7, Hsize. repeat split.
    + exact Htot'.
  - rewrite Heq.
    destruct (@AddLoopConstraint_no_merge R SR SO bc uninit cs idP idS XP XS
                axis enableStab stabParam constraintName pl vl Hb)
      as (cs' & Hrun & Hb' & Hc & Hcc & Hlc & Hst & Hlen & Hnm & Hty).
    pose proof (@total_rows_append R cs cs' _ Hv Hst Hc) as Htot.
    cbn [getConstraintSize lc_axes length] in Htot.
    exists cs'. split; [|split; [|split; [|split]]].
    + rewrite Hrun, Htot, Hsize. reflexivity.
    + apply (@registry_wf_append R cs cs' _ Hwf Hst Hc).
      * rewrite Hcc, app_nil_r. reflexivity.
      * rewrite Hlc. reflexivity.
    + exact (@registered_once_append R cs cs' Hv Hnd Hc).
    + destruct Hlen as (L1 & L2 & L3 & L4 & L5).
      unfold row_accounting.
      rewrite L1, L2, L3, L4, L5, Hnm, Hty, Htot, !length_app.
      cbn [length]. rewrite A6, A7, Hsize. repeat split.
    + exact Htot.
Qed.

(** X3, run: one loop axis after the contact constraint of [one_contact],
    merging allowed. *)
Lemma AddLoopConstraint_keeps_row_accounting_witness :
  exists cs',
    AddLoopConstraint debug_build 0%float one_contact 0 3
      SpatialTransform_Identity SpatialTransform_Identity
      (set_nth SpatialVector_Zero 3 1%float)
      false 0%float (Some "loop"%string) true true true
    = Done (cs', unsigned_pred (total_rows cs')) /\
    registry_wf cs' /\ registered_once cs' /\ row_accounting cs' /\
    total_rows cs' = total_rows one_contact + 1.
Proof.
  apply (@AddLoopConstraint_keeps_row_accounting float _ _ debug_build
           0%float one_contact 0 3 SpatialTransform_Identity
           SpatialTransform_Identity (set_nth SpatialVector_Zero 3 1%float)
           false 0%float (Some "loop"%string) true true true).
  - repeat split. vm_compute. repeat constructor.
  - vm_compute. repeat constructor. simpl. tauto.
  - repeat split.
  - reflexivity.
Defined.

(** X4: while only contact constraints are registered, both
    [AddContactConstraint] overloads keep an unbound registry consistent in
    every build.  The multi-normal overload returns the index of the last
    row and adds one row for every normal, after the rows that were there;
    the single-normal overload, with or without the merge flag, adds one
    row.  In both cases the registry stays well formed, holds contact
    constraints only, has no object twice, and row accounting holds. *)
Theorem AddContactConstraint_keeps_row_accounting :
  forall (R : Type) (SR : Scalar R) (SO : ScalarOrd R) (bc : Build)
         (uninit : R) (cs : CS.ConstraintSet R),
    registry_wf cs -> registered_once cs -> row_accounting cs ->
    contacts_only cs -> CS.bound cs = false ->
    (forall (bodyId : nat) (bodyPoint : Vector3d R)
            (worldNormals : list (Vector3d R))
            (constraintName : option string),
     exists cs',
       AddContactConstraint_normals bc uninit cs bodyId bodyPoint
         worldNormals constraintName
       = Done (cs', unsigned_pred (total_rows cs')) /\
       registry_wf cs' /\ registered_once cs' /\ row_accounting cs' /\
       contacts_only cs' /\
       constraint_rows cs' = constraint_rows cs ++ [length worldNormals]) /\
    (forall (body_id : nat) (body_point world_normal : Vector3d R)
            (constraint_name : option string) (allow : bool),
     exists cs',
       AddContactConstraint bc uninit cs body_id body_point world_normal
         constraint_name allow
       = Done (cs', unsigned_pred (total_rows cs')) /\
       registry_wf cs' /\ registered_once cs' /\ row_accounting cs' /\
       contacts_only cs' /\
       total_rows cs' = total_rows cs + 1).
Proof.
  intros R SR SO bc uninit cs Hwf Hnd Hacc Hco Hb.
  pose proof Hwf as (_ & _ & Hv).
  destruct Hacc as (A1 & A2 & A3 & A4 & A5 & A6 & A7).
  assert (Hsize : size cs = total_rows cs) by exact A7.
  assert (Hnormals :
    forall (bodyId : nat) (bodyPoint : Vector3d R)
           (worldNormals : list (Vector3d R))
           (constraintName : option string),
    exists cs',
      AddContactConstraint_normals bc uninit cs bodyId bodyPoint
        worldNormals constraintName
      = Done (cs', unsigned_pred (total_rows cs')) /\
      registry_wf cs' /\ registered_once cs' /\ row_accounting cs' /\
      contacts_only cs' /\
      constraint_rows cs' = constraint_rows cs ++ [length worldNormals] /\
      total_rows cs' = total_rows cs + length worldNormals).
  { intros bodyId bodyPoint worldNormals constraintName.
    destruct (@AddContactConstraint_normals_Done R SR bc uninit cs bodyId
                bodyPoint worldNormals constraintName
                (length (CS.store cs))
                (Contact {| cc_bodyId := bodyId; cc_point := bodyPoint;
                            cc_normals := worldNormals;
                            cc_name := constraintName;
                            cc_rowInSystem := size cs |}))
      as (cs' & Hrun & Hb' & Hc & Hcc & Hlc & Hst & Hlen & Hnm & Hty).
    { rewrite Hco, nth_error_app2, Nat.sub_diag by lia. reflexivity. }
    { rewrite nth_error_app2, Nat.sub_diag by lia. reflexivity. }
    { simpl. lia. }
    cbn [getConstraintSize cc_normals] in Hrun, Hlen.
    pose proof (@total_rows_append R cs cs' _ Hv Hst Hc) as Htot.
    pose proof (@constraint_rows_append R cs cs' _ Hv Hst Hc) as Hrows.
    cbn [getConstraintSize cc_normals] in Htot, Hrows.
    exists cs'.
    split; [|split; [|split; [|split; [|split; [|split]]]]].
    - rewrite Hrun, Htot, Hsize. reflexivity.
    - apply (@registry_wf_append R cs cs' _ Hwf Hst Hc).
      + rewrite Hcc. reflexivity.
      + rewrite Hlc, app_nil_r. reflexivity.
    - exact (@registered_once_append R cs cs' Hv Hnd Hc).
    - destruct Hlen as (L1 & L2 & L3 & L4 & L5).
      unfold row_accounting.
      rewrite L1, L2, L3, L4, L5, Hnm, Hty, Htot, !length_app,
        !repeat_length.
      rewrite A6, A7, Hsize. repeat split.
    - unfold contacts_only. rewrite Hcc, Hc, !length_app, Hco. reflexivity.
    - exact Hrows.
    - exact Htot. }
  split.
  - intros bodyId bodyPoint worldNormals constraintName.
    destruct (Hnormals bodyId bodyPoint worldNormals constraintName)
      as (cs' & H1 & H2 & H3 & H4 & H5 & H6 & _).
    exists cs'.
    exact (conj H1 (conj H2 (conj H3 (conj H4 (conj H5 H6))))).
  - intros body_id body_point world_normal constraint_name allow.
    destruct (@AddContactConstraint_cases R SR SO bc uninit cs body_id
                body_point world_normal constraint_name allow Hwf)
      as [(l & p & c & -> & Hl & Hin & Hp & Hid & Hnear)|Heq].
    + destruct (@AddContactConstraint_merge R SR SO bc uninit cs body_id
                  body_point world_normal constraint_name l p c Hb Hl Hp
                  Hid Hnear)
        as (cs' & Hrun & Hb' & Hc & Hcc & Hlc & Hst & Hlen & Hnm & Hty).
      pose proof (@total_rows_update R cs cs' p (Contact c)
                    (Contact (appendNormalVector world_normal c))
                    Hnd Hin Hp Hst Hc) as Htot.
      cbn [getConstraintSize appendNormalVector cc_normals] in Htot.
      rewrite length_app in Htot. cbn [length] in Htot.
      assert (Htot' : total_rows cs' = total_rows cs + 1) by lia.
      exists cs'. split; [|split; [|split; [|split; [|split]]]].
      * rewrite Hrun, Htot', Hsize. reflexivity.
      * apply (@registry_wf_update R cs cs' p (Contact c)
                 (Contact (appendNormalVector world_normal c)) Hwf Hp);
          try assumption; reflexivity.
      * unfold registered_once. rewrite Hc. exact Hnd.
      * destruct Hlen as (L1 & L2 & L3 & L4 & L5).
        unfold row_accounting.
        rewrite L1, L2, L3, L4, L5, Hnm, Hty, Htot', !length_app.
        cbn [length]. rewrite A6, A7, Hsize. repeat split.
      * unfold contacts_only. rewrite Hcc, Hc. exact Hco.
      * exact Htot'.
    + rewrite Heq.
      destruct (Hnormals body_id body_point [world_normal] constraint_name)
        as (cs' & H1 & H2 & H3 & H4 & H5 & _ & H7).
      cbn [length] in H7.
      exists cs'.
      refine (conj _ (conj H2 (conj H3 (conj H4 (conj H5 H7))))).
      apply AddContactConstraint_delegates; assumption.
Qed.

(** X4, run: a second contact constraint, with two normals, after the one
    of [one_contact]. *)
Lemma AddContactConstraint_keeps_row_accounting_witness :
  exists cs',
    AddContactConstraint_normals debug_build 0%float one_contact 2
      [0; 0; 0]%float [[1; 0; 0]%float; [0; 1; 0]%float]
      (Some "wall"%string)
    = Done (cs', unsigned_pred (total_rows cs')) /\
    registry_wf cs' /\ registered_once cs' /\ row_accounting cs' /\
    contacts_only cs' /\
    constraint_rows cs' = constraint_rows one_contact ++ [2].
Proof.
  apply (proj1 (@AddContactConstraint_keeps_row_accounting float _ _
                  debug_build 0%float one_contact
                  ltac:(repeat split; vm_compute; repeat constructor)
                  ltac:(vm_compute; repeat constructor; simpl; tauto)
                  ltac:(repeat split)
                  ltac:(reflexivity) ltac:(reflexivity))).
Defined.

(* ===================================================================== *)
(** * What merging does to the constraint it merges into *)
(* ===================================================================== *)

(** X5: the merge of the single-normal [AddContactConstraint] looks at the
    last contact constraint, not at the last registered constraint.  When
    another registered constraint holds the row that follows the rows of
    that contact constraint (a loop or custom constraint registered after it
    does), the merged contact constraint grows into that row: two registered
    objects claim it.  The row the call allocates, at the end of the
    per-row arrays, is not among the rows the merged constraint claims. *)
Theorem AddContactConstraint_merge_overlaps_later_constraint :
  forall (R : Type) (SR : Scalar R) (SO : ScalarOrd R) (bc : Build)
         (uninit : R) (cs : CS.ConstraintSet R) (body_id : nat)
         (body_point world_normal : Vector3d R)
         (constraint_name : option string) (l : list nat) (p q : nat)
         (c : ContactConstraint R) (cq : Constraint R),
    CS.bound cs = false ->
    CS.contactConstraints cs = l ++ [p] ->
    nth_error (CS.store cs) p = Some (Contact c) ->
    cc_bodyId c = body_id ->
    ltb (norm (vsub body_point (cc_point c))) (mul epsilon (of_nat 100))
    = true ->
    In p (CS.constraints cs) -> In q (CS.constraints cs) -> q <> p ->
    nth_error (CS.store cs) q = Some cq ->
    claims_row cq (cc_rowInSystem c + length (cc_normals c)) ->
    cc_rowInSystem c + length (cc_normals c) < size cs ->
    exists cs' c',
      AddContactConstraint bc uninit cs body_id body_point world_normal
        constraint_name true
      = Done (cs', unsigned_pred (size cs + 1)) /\
      size cs' = size cs + 1 /\
      CS.constraints cs' = CS.constraints cs /\
      nth_error (CS.store cs') p = Some (Contact c') /\
      cc_normals c' = cc_normals c ++ [world_normal] /\
      nth_error (CS.store cs') q = Some cq /\
      claims_row (Contact c') (cc_rowInSystem c + length (cc_normals c)) /\
      claims_row cq (cc_rowInSystem c + length (cc_normals c)) /\
      ~ claims_row (Contact c') (size cs).
Proof.
  intros R SR SO bc uninit cs body_id body_point world_normal
    constraint_name l p q c cq Hb Hl Hp Hid Hnear Hinp Hinq Hne Hq Hclaim
    Hbefore.
  destruct (@AddContactConstraint_merge R SR SO bc uninit cs body_id
              body_point world_normal constraint_name l p c Hb Hl Hp Hid
              Hnear)
    as (cs' & Hrun & _ & Hc & _ & _ & Hst & _ & _ & Hty).
  assert (Hlt : p < length (CS.store cs)).
  { apply nth_error_Some. congruence. }
  exists cs', (appendNormalVector world_normal c).
  split; [exact Hrun|].
  split; [unfold size; rewrite Hty, length_app; reflexivity|].
  split; [exact Hc|].
  split; [rewrite Hst; apply nth_error_set_nth_eq; exact Hlt|].
  split; [reflexivity|].
  split; [rewrite Hst, nth_error_set_nth_ne by congruence; exact Hq|].
  split; [|split; [exact Hclaim|]].
  - unfold claims_row. cbn. rewrite length_app. cbn. lia.
  - unfold claims_row. cbn. rewrite length_app. cbn. lia.
Qed.

(** X5, run: a contact constraint, then a loop constraint, then a second
    normal for the contact constraint. *)
Lemma AddContactConstraint_merge_overlaps_later_constraint_witness :
  exists cs' c',
    AddContactConstraint debug_build 0%float contact_then_loop 3
      [0; 0; 0]%float [1; 0; 0]%float (Some "ground"%string) true
    = Done (cs', unsigned_pred (size contact_then_loop + 1)) /\
    size cs' = size contact_then_loop + 1 /\
    CS.constraints cs' = CS.constraints contact_then_loop /\
    nth_error (CS.store cs') 0 = Some (Contact c') /\
    cc_normals c' = [[0; 0; 1]%float] ++ [[1; 0; 0]%float] /\
    nth_error (CS.store cs') 1
    = Some (nth 1 (CS.store contact_then_loop)
              (Custom {| cu_impl := 0; cu_size := 0; cu_name := None;
                         cu_baumgarteEnabled := false;
                         cu_rowInSystem := 0 |})) /\
    claims_row (Contact c') (0 + 1) /\
    claims_row
      (nth 1 (CS.store contact_then_loop)
         (Custom {| cu_impl := 0; cu_size := 0; cu_name := None;
                    cu_baumgarteEnabled := false; cu_rowInSystem := 0 |}))
      (0 + 1) /\
    ~ claims_row (Contact c') (size contact_then_loop).
Proof.
  apply (@AddContactConstraint_merge_overlaps_later_constraint float _ _
           debug_build 0%float contact_then_loop 3 [0; 0; 0]%float
           [1; 0; 0]%float (Some "ground"%string) [] 0 1
           {| cc_bodyId := 3; cc_point := [0; 0; 0]%float;
              cc_normals := [[0; 0; 1]%float];
              cc_name := Some "ground"%string; cc_rowInSystem := 0 |}
           (nth 1 (CS.store contact_then_loop)
              (Custom {| cu_impl := 0; cu_size := 0; cu_name := None;
                         cu_baumgarteEnabled := false;
                         cu_rowInSystem := 0 |}))).
  - reflexivity.
  - reflexivity.
  - reflexivity.
  - reflexivity.
  - vm_compute. reflexivity.
  - vm_compute. tauto.
  - vm_compute. tauto.
  - discriminate.
  - reflexivity.
  - split; vm_compute; repeat constructor.
  - vm_compute. repeat constructor.
Defined.

(** X6: the merge of the single-axis [AddLoopConstraint].  With merging
    allowed, when the last loop constraint joins the same two bodies and its
    frames agree with the new ones entry by entry to 100 machine epsilons,
    no object is created: the axis and its two flags are added after the
    ones the constraint has, its first row stays, every other object is
    left alone, and its stabilisation switch and time constant are replaced
    by the ones of this call, for all its axes. *)
Theorem AddLoopConstraint_merge_replaces_stabilisation :
  forall (R : Type) (SR : Scalar R) (SO : ScalarOrd R) (bc : Build)
         (uninit : R) (cs : CS.ConstraintSet R) (idP idS : nat)
         (XP XS : SpatialTransform R) (axis : SpatialVector R)
         (enableStab : bool) (stabParam : R)
         (constraintName : option string) (pl vl : bool) (l : list nat)
         (p : nat) (lc : LoopConstraint R),
    CS.bound cs = false ->
    CS.loopConstraints cs = l ++ [p] ->
    nth_error (CS.store cs) p = Some (Loop lc) ->
    lc_idPredecessor lc = idP -> lc_idSuccessor lc = idS ->
    framesNumericallyIdentical (mul epsilon (of_nat 100))
      {| r := vsub (r XP) (r (lc_XPredecessor lc));
         E := msub (E XP) (E (lc_XPredecessor lc)) |}
      {| r := vsub (r XS) (r (lc_XSuccessor lc));
         E := msub (E XS) (E (lc_XSuccessor lc)) |} = true ->
    exists cs' lc',
      AddLoopConstraint bc uninit cs idP idS XP XS axis enableStab stabParam
        constraintName true pl vl
      = Done (cs', unsigned_pred (size cs + 1)) /\
      CS.constraints cs' = CS.constraints cs /\
      CS.loopConstraints cs' = CS.loopConstraints cs /\
      CS.contactConstraints cs' = CS.contactConstraints cs /\
      length (CS.store cs') = length (CS.store cs) /\
      (forall q, q <> p ->
         nth_error (CS.store cs') q = nth_error (CS.store cs) q) /\
      nth_error (CS.store cs') p = Some (Loop lc') /\
      lc_axes lc' = lc_axes lc ++ [axis] /\
      lc_positionLevel lc' = lc_positionLevel lc ++ [pl] /\
      lc_velocityLevel lc' = lc_velocityLevel lc ++ [vl] /\
      lc_rowInSystem lc' = lc_rowInSystem lc /\
      lc_name lc' = lc_name lc /\
      lc_baumgarteEnabled lc' = enableStab /\
      lc_baumgarteTimeConstant lc' = stabParam.
Proof.
  intros R SR SO bc uninit cs idP idS XP XS axis enableStab stabParam
    constraintName pl vl l p lc Hb Hl Hp HidP HidS Hfr.
  destruct (@AddLoopConstraint_merge R SR SO bc uninit cs idP idS XP XS axis
              enableStab stabParam constraintName pl vl l p lc Hb Hl Hp HidP
              HidS Hfr)
    as (cs' & Hrun & _ & Hc & Hcc & Hlc & Hst & _).
  assert (Hlt : p < length (CS.store cs)).
  { apply nth_error_Some. congruence. }
  exists cs',
    (setBaumgarte stabParam enableStab (appendConstraintAxis axis pl vl lc)).
  split; [exact Hrun|].
  split; [exact Hc|]. split; [exact Hlc|]. split; [exact Hcc|].
  split; [rewrite Hst; apply length_set_nth|].
  split.
  { intros q Hq. rewrite Hst. apply nth_error_set_nth_ne. congruence. }
  split; [rewrite Hst; apply nth_error_set_nth_eq; exact Hlt|].
  repeat split.
Qed.

(** X6, run: a second axis for the loop constraint of [one_loop], with
    stabilisation switched off: the constraint has two axes and no
    stabilisation. *)
Lemma AddLoopConstraint_merge_replaces_stabilisation_witness :
  exists cs' lc',
    AddLoopConstraint debug_build 0%float one_loop 0 3
      SpatialTransform_Identity SpatialTransform_Identity
      (set_nth SpatialVector_Zero 4 1%float) false 0%float None true
      true false
    = Done (cs', unsigned_pred (size one_loop + 1)) /\
    CS.constraints cs' = CS.constraints one_loop /\
    CS.loopConstraints cs' = CS.loopConstraints one_loop /\
    CS.contactConstraints cs' = CS.contactConstraints one_loop /\
    length (CS.store cs') = length (CS.store one_loop) /\
    (forall q, q <> 0 ->
       nth_error (CS.store cs') q = nth_error (CS.store one_loop) q) /\
    nth_error (CS.store cs') 0 = Some (Loop lc') /\
    lc_axes lc' = [set_nth SpatialVector_Zero 3 1%float]
                  ++ [set_nth SpatialVector_Zero 4 1%float] /\
    lc_positionLevel lc' = [true] ++ [true] /\
    lc_velocityLevel lc' = [true] ++ [false] /\
    lc_rowInSystem lc' = 0 /\
    lc_name lc' = Some "loop"%string /\
    lc_baumgarteEnabled lc' = false /\
    lc_baumgarteTimeConstant lc' = 0%float.
Proof.
  apply (@AddLoopConstraint_merge_replaces_stabilisation float _ _
           debug_build 0%float one_loop 0 3 SpatialTransform_Identity
           SpatialTransform_Identity (set_nth SpatialVector_Zero 4 1%float)
           false 0%float None true false [] 0
           {| lc_idPredecessor := 0; lc_idSuccessor := 3;
              lc_XPredecessor := SpatialTransform_Identity;
              lc_XSuccessor := SpatialTransform_Identity;
              lc_axes := [set_nth SpatialVector_Zero 3 1%float];
              lc_positionLevel := [true];
              lc_velocityLevel := [true];
              lc_baumgarteTimeConstant := 0.5%float;
              lc_baumgarteEnabled := true;
              lc_name := Some "loop"%string;
              lc_rowInSystem := 0 |}).
  - reflexivity.
  - reflexivity.
  - reflexivity.
  - reflexivity.
  - reflexivity.
  - vm_compute. reflexivity.
Defined.

(* ===================================================================== *)
(** * [Bind] *)
(* ===================================================================== *)

Section BindFacts.
Context {R Dyn : Type} {SR : Scalar R} {CO : Collaborators R Dyn}.







End BindFacts.



(** X8: [Bind] returns at most once on a registry.  When it returns, it
    returns [true] and the registry is bound, and every later [Bind] of that
    registry, to any model, terminates the process: by the failed assert
    when asserts are compiled in, by the report on [std::cerr] and [abort()]
    when they are not. *)
Theorem Bind_twice_is_fatal :
  forall (R Dyn : Type) (SR : Scalar R) (CO : Collaborators R Dyn)
         (bc : Build) (uninit : R) (model : Model R Dyn)
         (cs cs' : CS.ConstraintSet R) (flag : bool),
    Bind bc uninit model cs = Done (cs', flag) ->
    flag = true /\ CS.bound cs' = true /\
    forall (bc' : Build) (uninit' : R) (model' : Model R Dyn),
      Bind bc' uninit' model' cs'
      = Aborted [if NDEBUG bc'
                 then "Error: binding an already bound constraint set!"%string
                 else assertion_failed].
Proof.
  intros R Dyn SR CO bc uninit model cs cs' flag Hrun.
  assert (Hpost : flag = true /\ CS.bound cs' = true).
  { unfold Bind in Hrun.
    destruct (assert_ bc (negb (CS.bound cs))); try discriminate.
    cbn [bind Monad_Run] in Hrun.
    destruct (CS.bound cs); [unfold cerr, abort_ in Hrun; discriminate|].
    cbn [bind Monad_Run ret] in Hrun.
    destruct (bind_all model (CS.constraints cs) cs); try discriminate.
    cbn [bind Monad_Run ret] in Hrun.
    match type of Hrun with
    | match ?e with _ => _ end = _ => destruct e; try discriminate
    end.
    inversion Hrun. split; reflexivity. }
  destruct Hpost as (Hflag & Hb). repeat split; try assumption.
  intros bc' uninit' model'. unfold Bind, assert_, cerr, abort_.
  rewrite Hb. destruct (NDEBUG bc'); reflexivity.
Qed.

(** X8, run: [one_contact_bound] is what [Bind] made of [one_contact]. *)
Lemma Bind_twice_is_fatal_witness :
  true = true /\ CS.bound one_contact_bound = true /\
  forall (bc' : Build) (uninit' : float) (model' : Model float (list float)),
    Bind (CO := PointMass) bc' uninit' model' one_contact_bound
    = Aborted [if NDEBUG bc'
               then "Error: binding an already bound constraint set!"%string
               else assertion_failed].
Proof.
  apply (@Bind_twice_is_fatal float _ _ PointMass debug_build 0%float
           (point_mass [0; -1; 0]%float) one_contact one_contact_bound true).
  vm_compute. reflexivity.
Defined.

(* ===================================================================== *)
(** * What the assembly of the constrained system writes *)
(* ===================================================================== *)

Section FrameFacts.
Context {R Dyn : Type} {SR : Scalar R} {SO : ScalarOrd R}
        {CO : Collaborators R Dyn}.
Variable bc : Build.

Lemma assembly_frame_refl (cs : CS.ConstraintSet R) : assembly_frame cs cs.
Proof. repeat split. Qed.

Lemma assembly_frame_trans (cs1 cs2 cs3 : CS.ConstraintSet R) :
  assembly_frame cs1 cs2 -> assembly_frame cs2 cs3 ->
  assembly_frame cs1 cs3.
Proof.
  unfold assembly_frame, same_registry.
  intros H12 H23.
  repeat match goal with
         | H : _ /\ _ |- _ => destruct H
         end.
  repeat split; congruence.
Qed.

(** The three evaluations over the registered constraints write the cache
    of the registry and nothing else of it. *)
Lemma CalcConstraintsJacobian_frame (model model' : Model R Dyn)
  (Q : VectorNd R) (cs cs' : CS.ConstraintSet R) (G G' : MatrixNd R)
  (uk : bool) :
  CalcConstraintsJacobian model Q cs G uk = Done (model', cs', G') ->
  exists cache, cs' = CS.set_cache cache cs.
Proof.
  unfold CalcConstraintsJacobian.
  destruct (objects cs (CS.constraints cs)) as [l| |]; try discriminate.
  cbn [bind Monad_Run ret].
  destruct (fold_left _ l _) as [[m g] c].
  intros H. inversion H. eexists; reflexivity.
Qed.

Lemma CalcConstraintsPositionError_frame (model model' : Model R Dyn)
  (Q : VectorNd R) (cs cs' : CS.ConstraintSet R) (e e' : VectorNd R)
  (uk : bool) :
  CalcConstraintsPositionError bc model Q cs e uk = Done (model', cs', e') ->
  exists cache, cs' = CS.set_cache cache cs.
Proof.
  unfold CalcConstraintsPositionError.
  destruct (assert_ bc (length e =? size cs)); try discriminate.
  cbn [bind Monad_Run ret].
  destruct (objects cs (CS.constraints cs)) as [l| |]; try discriminate.
  cbn [bind Monad_Run ret].
  destruct (fold_left _ l _) as [[m g] c].
  intros H. inversion H. eexists; reflexivity.
Qed.

Lemma CalcConstraintsVelocityError_frame (model model' : Model R Dyn)
  (Q QDot : VectorNd R) (cs cs' : CS.ConstraintSet R) (e e' : VectorNd R)
  (uk : bool) :
  CalcConstraintsVelocityError model Q QDot cs e uk
  = Done (model', cs', e') ->
  exists cache G, cs' = CS.set_cache cache (CS.set_G G cs).
Proof.
  unfold CalcConstraintsVelocityError.
  destruct (CalcConstraintsJacobian model Q cs (CS.G cs) uk)
    as [[[m1 cs1] G1]| |] eqn:HJ; try discriminate.
  apply CalcConstraintsJacobian_frame in HJ. destruct HJ as (c1 & ->).
  cbn [bind Monad_Run ret].
  match goal with
  | |- match objects ?c ?ps with _ => _ end = _ -> _ =>
      destruct (objects c ps) as [l| |]; try discriminate
  end.
  cbn [bind Monad_Run ret].
  destruct (fold_left _ l _) as [[m g] c].
  intros H. inversion H. eexists; eexists; reflexivity.
Qed.

(** A loop over the constraints keeps what every pass keeps. *)
Lemma fold_keeps (P : CS.ConstraintSet R -> CS.ConstraintSet R -> Prop)
  (f : Model R Dyn * CS.ConstraintSet R -> Constraint R
       -> Model R Dyn * CS.ConstraintSet R) :
  (forall cs, P cs cs) ->
  (forall a b c, P a b -> P b c -> P a c) ->
  (forall m cs c, P cs (snd (f (m, cs) c))) ->
  forall l m cs, P cs (snd (fold_left f l (m, cs))).
Proof.
  intros Hrefl Htrans Hstep.
  induction l as [|c l IH]; intros m cs; cbn [fold_left].
  - apply Hrefl.
  - specialize (Hstep m cs c).
    destruct (f (m, cs) c) as [m' cs'].
    eapply Htrans; [exact Hstep|apply IH].
Qed.

(** The assembly as a whole. *)
Lemma CalcConstrainedSystemVariables_frame (model model1 : Model R Dyn)
  (Q QDot Tau : VectorNd R) (cs cs1 : CS.ConstraintSet R)
  (f_ext : option (list (SpatialVector R))) :
  CalcConstrainedSystemVariables bc model Q QDot Tau cs f_ext
  = Done (model1, cs1) ->
  assembly_frame cs cs1 /\
  CS.C cs1 = snd (NonlinearEffects model Q QDot (CS.C cs) f_ext) /\
  CS.H cs1
  = snd (CompositeRigidBodyAlgorithm
           (fst (NonlinearEffects model Q QDot (CS.C cs) f_ext)) Q
           (msetZero (CS.H cs))) /\
  CS.QDDot_0 cs1 = setZero (CS.QDDot_0 cs).
Proof.
  unfold CalcConstrainedSystemVariables.
  destruct (NonlinearEffects model Q QDot (CS.C cs) f_ext) as [m0 C0].
  cbn [fst snd bind Monad_Run ret].
  match goal with
  | |- match assert_ bc ?cond with _ => _ end = _ -> _ =>
      destruct (assert_ bc cond); try discriminate
  end.
  cbn [bind Monad_Run ret].
  cbn [CS.H CS.set_H CS.set_C].
  destruct (CompositeRigidBodyAlgorithm m0 Q (msetZero (CS.H cs)))
    as [m1 H1].
  destruct (update_X_base m1) as [m2| |]; try discriminate.
  cbn [bind Monad_Run ret].
  match goal with
  | |- match CalcConstraintsJacobian ?m ?q ?c ?g ?u with _ => _ end = _
       -> _ =>
      destruct (CalcConstraintsJacobian m q c g u)
        as [[[m3 cs3] G3]| |] eqn:HJ; try discriminate
  end.
  apply CalcConstraintsJacobian_frame in HJ. destruct HJ as (c3 & ->).
  cbn [bind Monad_Run ret].
  match goal with
  | |- match CalcConstraintsPositionError bc ?m ?q ?c ?e ?u with _ => _ end
       = _ -> _ =>
      destruct (CalcConstraintsPositionError bc m q c e u)
        as [[[m4 cs4] e4]| |] eqn:HP; try discriminate
  end.
  apply CalcConstraintsPositionError_frame in HP. destruct HP as (c4 & ->).
  cbn [bind Monad_Run ret].
  match goal with
  | |- match CalcConstraintsVelocityError ?m ?q ?qd ?c ?e ?u with _ => _ end
       = _ -> _ =>
      destruct (CalcConstraintsVelocityError m q qd c e u)
        as [[[m5 cs5] e5]| |] eqn:HV; try discriminate
  end.
  apply CalcConstraintsVelocityError_frame in HV.
  destruct HV as (c5 & G5 & ->).
  cbn [bind Monad_Run ret].
  match goal with
  | |- match objects ?c ?ps with _ => _ end = _ -> _ =>
      destruct (objects c ps) as [l| |]; try discriminate
  end.
  cbn [bind Monad_Run ret].
  match goal with
  | |- (let '(_, _) := fold_left ?f l (?m6, ?c6) in _) = _ -> _ =>
      pose proof
        (@fold_keeps
           (fun a b =>
              assembly_frame a b /\ CS.H b = CS.H a /\ CS.C b = CS.C a /\
              CS.QDDot_0 b = CS.QDDot_0 a) f) as Hfold;
      specialize (fun H1 H2 H3 => Hfold H1 H2 H3 l m6 c6);
      destruct (fold_left f l (m6, c6)) as [m7 cs7]
  end.
  cbn [snd] in Hfold.
  intros H. inversion H. subst m7 cs7.
  destruct Hfold as (F & FH & FC & FQ).
  - intros s1. auto using assembly_frame_refl.
  - intros s1 s2 s3 (F1 & E1 & E2 & E3) (F2 & E4 & E5 & E6).
    split; [eapply assembly_frame_trans; eassumption|].
    repeat split; congruence.
  - intros m s1 c.
    destruct (calcGamma c m Q QDot (CS.G s1) (CS.gamma s1) (CS.cache s1))
      as [[m' g] ca].
    destruct (isBaumgarteStabilizationEnabled c); repeat split.
  - split; [|split; [|split]].
    + eapply assembly_frame_trans; [|exact F]. repeat split.
    + rewrite FC. reflexivity.
    + rewrite FH. reflexivity.
    + rewrite FQ. reflexivity.
Qed.

End FrameFacts.

(** X9: when the assembly of the constrained system returns, it has
    written [H], [C], [G], [gamma], [err], [errd], [QDDot_0] and the cache
    of the registry and nothing else of it: the registered constraints, the
    row layout, the forces and impulses, the KKT workspace [A], [b], [x] and
    the workspaces of the other solvers are as they were.  [C] is what
    [NonlinearEffects] returns, [H] is what [CompositeRigidBodyAlgorithm]
    makes of the zeroed [H], and [QDDot_0] is zero. *)
Theorem CalcConstrainedSystemVariables_writes_only_the_system :
  forall (R Dyn : Type) (SR : Scalar R) (CO : Collaborators R Dyn)
         (bc : Build) (model model1 : Model R Dyn) (Q QDot Tau : VectorNd R)
         (cs cs1 : CS.ConstraintSet R)
         (f_ext : option (list (SpatialVector R))),
    CalcConstrainedSystemVariables bc model Q QDot Tau cs f_ext
    = Done (model1, cs1) ->
    assembly_frame cs cs1 /\
    CS.C cs1 = snd (NonlinearEffects model Q QDot (CS.C cs) f_ext) /\
    CS.H cs1
    = snd (CompositeRigidBodyAlgorithm
             (fst (NonlinearEffects model Q QDot (CS.C cs) f_ext)) Q
             (msetZero (CS.H cs))) /\
    CS.QDDot_0 cs1 = setZero (CS.QDDot_0 cs).
Proof.
  intros R Dyn SR CO bc model model1 Q QDot Tau cs cs1 f_ext Hrun.
  apply CalcConstrainedSystemVariables_frame in Hrun. exact Hrun.
Qed.

(** X9, run: the assembly for the point mass at rest with the bound
    registry [one_contact_bound]. *)
Lemma CalcConstrainedSystemVariables_writes_only_the_system_witness :
  assembly_frame one_contact_bound one_contact_assembled /\
  CS.C one_contact_assembled
  = snd (NonlinearEffects (Collaborators := PointMass)
           (point_mass [0; -1; 0]%float) [0; 0; 0]%float [0; 0; 0]%float
           (CS.C one_contact_bound) None) /\
  CS.H one_contact_assembled
  = snd (CompositeRigidBodyAlgorithm (Collaborators := PointMass)
           (fst (NonlinearEffects (Collaborators := PointMass)
                   (point_mass [0; -1; 0]%float) [0; 0; 0]%float
                   [0; 0; 0]%float (CS.C one_contact_bound) None))
           [0; 0; 0]%float (msetZero (CS.H one_contact_bound))) /\
  CS.QDDot_0 one_contact_assembled = setZero (CS.QDDot_0 one_contact_bound).
Proof.
  apply (@CalcConstrainedSystemVariables_writes_only_the_system float _ _
           PointMass debug_build (point_mass [0; -1; 0]%float)
           (point_mass [0; -1; 0]%float) [0; 0; 0]%float [0; 0; 0]%float
           [0; 0; 0]%float one_contact_bound one_contact_assembled None).
  vm_compute. reflexivity.
Defined.

(* ===================================================================== *)
(** * The direct solve, call after call *)
(* ===================================================================== *)

Section DirectFrame.
Context {R Dyn : Type} {SR : Scalar R} {CO : Collaborators R Dyn}.
Variable bc : Build.

(** After the assembly, [ForwardDynamicsConstraintsDirect] writes [A], [b],
    [x] and [force] and nothing else of the registry. *)
Lemma ForwardDynamicsConstraintsDirect_frame
  (model model1 model' : Model R Dyn) (Q QDot Tau QDDot qddot : VectorNd R)
  (cs cs1 cs' : CS.ConstraintSet R)
  (f_ext : option (list (SpatialVector R))) :
  CalcConstrainedSystemVariables bc model Q QDot Tau cs f_ext
  = Done (model1, cs1) ->
  ForwardDynamicsConstraintsDirect bc model Q QDot Tau cs QDDot f_ext
  = Done (model', cs', qddot) ->
  exists A b x force,
    cs' = CS.set_force force (CS.set_x x (CS.set_b b (CS.set_A A cs1))).
Proof.
  intros Hcalc. unfold ForwardDynamicsConstraintsDirect.
  rewrite Hcalc. cbn [bind Monad_Run ret].
  match goal with
  | |- match ?r with _ => _ end = _ -> _ =>
      destruct r as [[[A b] x]| |]; try discriminate
  end.
  cbn [bind Monad_Run ret].
  match goal with
  | |- match ?r with _ => _ end = _ -> _ =>
      destruct r as [q| |]; try discriminate
  end.
  cbn [bind Monad_Run ret].
  match goal with
  | |- match ?r with _ => _ end = _ -> _ =>
      destruct r as [f| |]; try discriminate
  end.
  intros H. inversion H. eexists; eexists; eexists; eexists; reflexivity.
Qed.

End DirectFrame.

(** X10: [ForwardDynamicsConstraintsDirect] can be called time step after
    time step.  On a registry whose KKT workspace is ready (as [Bind]
    leaves it) and whose force vector has one entry for every row, with one
    of the three selectors, once the assembly has returned with a bias
    force for every degree of freedom and a [gamma] for every row, the call
    returns the head of the solution, and the registry it leaves has the
    KKT workspace ready again, a force for every row, and the registered
    constraints, the row layout, the impulses and [v_plus] as they were. *)
Theorem ForwardDynamicsConstraintsDirect_can_be_repeated :
  forall (R Dyn : Type) (SR : Scalar R) (CO : Collaborators R Dyn)
         (bc : Build) (model model1 : Model R Dyn)
         (Q QDot Tau QDDot : VectorNd R) (cs cs1 : CS.ConstraintSet R)
         (f_ext : option (list (SpatialVector R)))
         (solve : MatrixNd R -> VectorNd R -> VectorNd R),
    solvers_sized ->
    kkt_ready (dof_count model1) cs ->
    length (CS.force cs) = size cs ->
    configured_solve bc (CS.linear_solver cs) = Some solve ->
    CalcConstrainedSystemVariables bc model Q QDot Tau cs f_ext
    = Done (model1, cs1) ->
    length (vsub Tau (CS.C cs1)) = dof_count model1 ->
    length (CS.gamma cs1) = size cs ->
    length QDDot = dof_count model1 ->
    exists cs',
      ForwardDynamicsConstraintsDirect bc model Q QDot Tau cs QDDot f_ext
      = Done (model1, cs', firstn (dof_count model1) (CS.x cs')) /\
      kkt_ready (dof_count model1) cs' /\
      length (CS.force cs') = size cs' /\
      same_registry cs cs' /\
      CS.name cs' = CS.name cs /\
      CS.constraintType cs' = CS.constraintType cs /\
      CS.impulse cs' = CS.impulse cs /\
      CS.v_plus cs' = CS.v_plus cs.
Proof.
  intros R Dyn SR CO bc model model1 Q QDot Tau QDDot cs cs1 f_ext solve
    Hsized Hkkt Hforce Hsolve Hcalc Hc Hg HQ.
  pose proof Hcalc as Hframe.
  apply CalcConstrainedSystemVariables_frame in Hframe.
  destruct Hframe as (Hframe & _).
  unfold assembly_frame in Hframe.
  destruct Hframe
    as (Hreg & Hnm & Hty & Hf & Himp & Hvp & HA & Hb & _).
  assert (Hsize : size cs1 = size cs)
    by (unfold size; rewrite Hty; reflexivity).
  destruct Hreg as (R1 & R2 & R3 & R4 & R5 & R6).
  destruct (@ForwardDynamicsConstraintsDirect_Done R Dyn SR CO bc model
              model1 Q QDot Tau QDDot cs cs1 f_ext solve Hsized Hcalc)
    as (cs' & Hrun & _ & _ & _ & Hlen & Hfc & Hready & Hsz).
  - rewrite R6. exact Hsolve.
  - destruct Hkkt as (K1 & K2 & K3 & K4).
    unfold kkt_ready. rewrite HA, Hb, Hsize. auto.
  - exact Hc.
  - rewrite Hsize. exact Hg.
  - rewrite Hf, Hsize. exact Hforce.
  - exact HQ.
  - pose proof Hrun as Hcs'.
    eapply ForwardDynamicsConstraintsDirect_frame in Hcs'; [|exact Hcalc].
    destruct Hcs' as (A' & b' & x' & f' & Hcs').
    exists cs'. split; [exact Hrun|]. split; [exact Hready|].
    split.
    { rewrite Hfc, length_map, length_skipn, Hlen, Hsz. lia. }
    rewrite Hcs'. cbn.
    unfold same_registry. cbn.
    repeat split; assumption.
Qed.

(** X10, run: the point mass with its ground contact, at rest. *)
Lemma ForwardDynamicsConstraintsDirect_can_be_repeated_witness :
  exists cs',
    ForwardDynamicsConstraintsDirect (CO := PointMass) debug_build
      (point_mass [0; -1; 0]%float) [0; 0; 0]%float [0; 0; 0]%float
      [0; 0; 0]%float one_contact_bound [0; 0; 0]%float None
    = Done (point_mass [0; -1; 0]%float, cs', firstn 3 (CS.x cs')) /\
    kkt_ready 3 cs' /\
    length (CS.force cs') = size cs' /\
    same_registry one_contact_bound cs' /\
    CS.name cs' = CS.name one_contact_bound /\
    CS.constraintType cs' = CS.constraintType one_contact_bound /\
    CS.impulse cs' = CS.impulse one_contact_bound /\
    CS.v_plus cs' = CS.v_plus one_contact_bound.
Proof.
  apply (@ForwardDynamicsConstraintsDirect_can_be_repeated float
           (Vector3d float) _ PointMass debug_build
           (point_mass [0; -1; 0]%float) (point_mass [0; -1; 0]%float)
           [0; 0; 0]%float [0; 0; 0]%float [0; 0; 0]%float [0; 0; 0]%float
           one_contact_bound one_contact_assembled None gauss_jordan).
  - apply PointMass_solvers_sized.
  - repeat split.
  - reflexivity.
  - reflexivity.
  - vm_compute. reflexivity.
  - reflexivity.
  - reflexivity.
  - reflexivity.
Defined.

(* ===================================================================== *)
(** * The base transforms the assembly recomputes *)
(* ===================================================================== *)

(** X11: the loop of [CalcConstrainedSystemVariables] that recomputes
    [model.X_base] (lines 795-797).  When the three arrays have an entry
    for every body and every body comes after its parent, the loop returns;
    the transform of body 0 and everything else in the model is as it was,
    and for every other body [i] the new [X_base[i]] is
    [X_lambda[i] * X_base[lambda[i]]], with the new transform of the
    parent. *)
Theorem update_X_base_follows_the_tree :
  forall (R Dyn : Type) (CO : Collaborators R Dyn) (model : Model R Dyn),
    mBodies_size model <= length (X_lambda model) ->
    mBodies_size model <= length (lambda model) ->
    mBodies_size model <= length (X_base model) ->
    (forall i p, 1 <= i < mBodies_size model ->
       nth_error (lambda model) i = Some p -> p < i) ->
    exists Xb,
      update_X_base model = Done (set_X_base Xb model) /\
      length Xb = length (X_base model) /\
      (forall i, i = 0 \/ mBodies_size model <= i ->
         nth_error Xb i = nth_error (X_base model) i) /\
      (forall i, 1 <= i < mBodies_size model ->
         exists Xl p Xp,
           nth_error (X_lambda model) i = Some Xl /\
           nth_error (lambda model) i = Some p /\
           nth_error Xb p = Some Xp /\
           nth_error Xb i = Some (st_mul Xl Xp)).
Proof.
  intros R Dyn CO model HXl Hla HXb Htree.
  destruct model as [dc qs qds nb js la Xl Xb0 dy].
  cbn [mBodies_size X_lambda lambda X_base] in *.
  unfold update_X_base. cbn [mBodies_size].
  set (model := {| dof_count := dc; q_size := qs; qdot_size := qds;
                   mBodies_size := nb; mJoints := js; lambda := la;
                   X_lambda := Xl; X_base := Xb0; dyn := dy |}).
  match goal with
  | |- exists Xb, for_from 1 (nb - 1) ?body model = _ /\ _ =>
      destruct (@for_from_inv _
                  (fun j m =>
                     exists Xb,
                       m = set_X_base Xb model /\
                       length Xb = length Xb0 /\
                       (forall i, i = 0 \/ j <= i ->
                          nth_error Xb i = nth_error Xb0 i) /\
                       (forall i, 1 <= i < j ->
                          exists Xli p Xp,
                            nth_error Xl i = Some Xli /\
                            nth_error la i = Some p /\
                            nth_error Xb p = Some Xp /\
                            nth_error Xb i = Some (st_mul Xli Xp)))
                  body (nb - 1) 1 model)
        as (m' & Hrun & Xb & -> & Hlen & Hsame & Hrel)
  end.
  - exists Xb0. repeat split. intros i Hi. lia.
  - intros j m Hj (Xb & -> & Hlen & Hsame & Hrel).
    assert (Hjnb : j < nb) by lia.
    destruct (nth_error Xl j) as [Xlj|] eqn:EXl.
    2:{ apply nth_error_None in EXl. lia. }
    destruct (nth_error la j) as [p|] eqn:Ela.
    2:{ apply nth_error_None in Ela. lia. }
    assert (Hp : p < j) by (apply (Htree j p); [lia|exact Ela]).
    destruct (nth_error Xb p) as [Xp|] eqn:EXp.
    2:{ apply nth_error_None in EXp. lia. }
    cbn [X_lambda lambda X_base set_X_base model].
    rewrite (at_Some _ _ EXl). cbn [bind Monad_Run ret].
    rewrite (at_Some _ _ Ela). cbn [bind Monad_Run ret].
    rewrite (at_Some _ _ EXp). cbn [bind Monad_Run ret].
    unfold stdvec_set.
    replace (j <? length Xb) with true
      by (symmetry; apply Nat.ltb_lt; lia).
    cbn [bind Monad_Run ret].
    eexists. split; [reflexivity|].
    exists (set_nth Xb j (st_mul Xlj Xp)).
    split; [reflexivity|].
    split; [rewrite length_set_nth; exact Hlen|].
    split.
    + intros i Hi. rewrite nth_error_set_nth_ne by lia.
      apply Hsame. lia.
    + intros i Hi.
      destruct (Nat.eq_dec i j) as [->|Hne].
      * exists Xlj, p, Xp.
        rewrite nth_error_set_nth_ne by lia.
        rewrite nth_error_set_nth_eq by lia. auto.
      * destruct (Hrel i ltac:(lia)) as (Xli & q & Xq & E1 & E2 & E3 & E4).
        assert (Hq : q < i) by (apply (Htree i q); [lia|exact E2]).
        exists Xli, q, Xq.
        rewrite !nth_error_set_nth_ne by lia. auto.
  - exists Xb. split; [exact Hrun|]. split; [exact Hlen|].
    split.
    + intros i Hi. apply Hsame. lia.
    + intros i Hi. apply Hrel. lia.
Qed.

(** X11, run: the three joints of the point mass. *)
Lemma update_X_base_follows_the_tree_witness :
  exists Xb,
    update_X_base (CO := PointMass) (point_mass [0; -1; 0]%float)
    = Done (set_X_base Xb (point_mass [0; -1; 0]%float)) /\
    length Xb = length (X_base (point_mass [0; -1; 0]%float)) /\
    (forall i, i = 0 \/ mBodies_size (point_mass [0; -1; 0]%float) <= i ->
       nth_error Xb i
       = nth_error (X_base (point_mass [0; -1; 0]%float)) i) /\
    (forall i, 1 <= i < mBodies_size (point_mass [0; -1; 0]%float) ->
       exists Xl p Xp,
         nth_error (X_lambda (point_mass [0; -1; 0]%float)) i = Some Xl /\
         nth_error (lambda (point_mass [0; -1; 0]%float)) i = Some p /\
         nth_error Xb p = Some Xp /\
         nth_error Xb i
         = Some (st_mul (Collaborators := PointMass) Xl Xp)).
Proof.
  apply (@update_X_base_follows_the_tree float _ PointMass
           (point_mass [0; -1; 0]%float)).
  - simpl. lia.
  - simpl. lia.
  - simpl. lia.
  - intros i p Hi Hp. simpl in Hi.
    destruct i as [|[|[|[|i]]]]; simpl in Hp; try lia;
      inversion Hp; lia.
Defined.

(* ===================================================================== *)
(** * The assembly projections *)
(* ===================================================================== *)

Section ProjectionFacts.
Context {R Dyn : Type} {SR : Scalar R} {SO : ScalarOrd R}
        {CO : Collaborators R Dyn}.
Variable bc : Build.

Lemma nth_set_nth_eq {T : Type} (l : list T) (i : nat) (t d : T) :
  i < length l -> nth i (set_nth l i t) d = t.
Proof.
  revert i; induction l as [|c l IH]; intros [|i] Hi; simpl in *;
    try lia; auto.
  apply IH. lia.
Qed.

Lemma nth_set_nth_ne {T : Type} (l : list T) (i j : nat) (t d : T) :
  i <> j -> nth j (set_nth l i t) d = nth j l d.
Proof.
  revert i j; induction l as [|c l IH]; intros [|i] [|j] Hne; simpl;
    auto; try congruence.
Qed.

Lemma length_zipWith (f : R -> R -> R) (u v : list R) :
  length (zipWith f u v) = Nat.min (length u) (length v).
Proof.
  revert v; induction u as [|a u IH]; intros [|c v]; simpl; auto.
Qed.

Lemma nth_zipWith (f : R -> R -> R) (u v : list R) (i : nat) (d : R) :
  i < length u -> i < length v ->
  nth i (zipWith f u v) d = f (nth i u d) (nth i v d).
Proof.
  revert v i; induction u as [|a u IH]; intros [|c v] [|i] Hu Hv;
    simpl in *; try lia; auto.
  apply IH; lia.
Qed.

(** The loop of [CalcAssemblyQDot] that writes the weights on the diagonal
    of [A] and the weighted velocities at the head of [b]. *)
Lemma set_weights_rhs_Done (weights QDotInit : VectorNd R) (A : MatrixNd R)
  (b : VectorNd R) :
  length weights <= length QDotInit -> length weights <= length b ->
  exists A' b',
    set_weights_rhs bc weights QDotInit (A, b) = Done (A', b') /\
    rows A' = rows A /\ cols A' = cols A /\
    (forall i j,
       coeff A' i j
       = if (i =? j) && (i <? length weights) then nth i weights zero
         else coeff A i j) /\
    length b' = length b /\
    (forall i,
       nth i b' zero
       = if i <? length weights
         then mul (nth i weights zero) (nth i QDotInit zero)
         else nth i b zero).
Proof.
  intros Hq Hb. unfold set_weights_rhs, for_.
  match goal with
  | |- exists A' b', for_from 0 ?n ?body (A, b) = _ /\ _ =>
      destruct (@for_from_inv _
                  (fun k (s : MatrixNd R * VectorNd R) =>
                     rows (fst s) = rows A /\ cols (fst s) = cols A /\
                     (forall i j,
                        coeff (fst s) i j
                        = if (i =? j) && (i <? k) then nth i weights zero
                          else coeff A i j) /\
                     length (snd s) = length b /\
                     (forall i,
                        nth i (snd s) zero
                        = if i <? k
                          then mul (nth i weights zero) (nth i QDotInit zero)
                          else nth i b zero))
                  body n 0 (A, b))
        as ([A' b'] & Hrun & HP)
  end.
  - simpl. repeat split. intros i j. rewrite andb_false_r. reflexivity.
  - intros k [Ak bk] Hk (Hr & Hc & HA & Hl & Hbk). cbn [fst snd] in *.
    rewrite vec_get_Done by lia. cbn [bind Monad_Run ret].
    rewrite vec_get_Done by lia. cbn [bind Monad_Run ret].
    rewrite vec_set_Done by lia. cbn [bind Monad_Run ret].
    eexists. split; [reflexivity|]. cbn [fst snd].
    split; [exact Hr|]. split; [exact Hc|].
    split; [|split].
    + intros i j. cbn [coeff set_coeff]. rewrite HA.
      destruct (Nat.eqb_spec i k) as [->|Hik];
        destruct (Nat.eqb_spec j k) as [->|Hjk]; cbn [andb].
      * rewrite Nat.eqb_refl.
        replace (k <? S k) with true by (symmetry; apply Nat.ltb_lt; lia).
        reflexivity.
      * replace (k =? j) with false by (symmetry; apply Nat.eqb_neq; lia).
        reflexivity.
      * replace (i =? k) with false by (symmetry; apply Nat.eqb_neq; lia).
        reflexivity.
      * destruct (Nat.eqb_spec i j) as [->|Hij]; cbn [andb];
          [|reflexivity].
        destruct (Nat.ltb_spec j k) as [Hlt|Hge].
        -- replace (j <? S k) with true
             by (symmetry; apply Nat.ltb_lt; lia).
           reflexivity.
        -- replace (j <? S k) with false
             by (symmetry; apply Nat.ltb_ge; lia).
           reflexivity.
    + rewrite length_set_nth. exact Hl.
    + intros i. destruct (Nat.eq_dec i k) as [->|Hik].
      * rewrite nth_set_nth_eq by lia.
        replace (k <? S k) with true by (symmetry; apply Nat.ltb_lt; lia).
        reflexivity.
      * rewrite nth_set_nth_ne by lia. rewrite Hbk.
        destruct (Nat.ltb_spec i k) as [Hlt|Hge].
        -- replace (i <? S k) with true
             by (symmetry; apply Nat.ltb_lt; lia).
           reflexivity.
        -- replace (i <? S k) with false
             by (symmetry; apply Nat.ltb_ge; lia).
           reflexivity.
  - exists A', b'. split; [exact Hrun|]. exact HP.
Qed.

(** The system of [CalcAssemblyQDot]: the weights on the diagonal, the
    Jacobian below and its transpose to the right. *)
Lemma weighted_is_KKT (A1 J : MatrixNd R) (weights : VectorNd R) (m : nat) :
  rows A1 = m + length weights -> cols A1 = m + length weights ->
  (forall i j,
     coeff A1 i j
     = if (i =? j) && (i <? length weights) then nth i weights zero
       else zero) ->
  same_matrix
    (set_block (set_block A1 (length weights) 0 m (length weights) J)
       0 (length weights) (length weights) m (transpose J))
    (KKT_matrix (diagonal weights) J (length weights) m).
Proof.
  intros Hr Hc HA. unfold same_matrix. simpl.
  split; [lia|]. split; [lia|].
  intros i j Hi Hj. rewrite HA.
  destruct (Nat.ltb_spec i (length weights)) as [Hin|Hin];
    destruct (Nat.ltb_spec j (length weights)) as [Hjn|Hjn].
  - replace (length weights <=? j) with false
      by (symmetry; apply Nat.leb_gt; lia).
    replace (length weights <=? i) with false
      by (symmetry; apply Nat.leb_gt; lia).
    rewrite ?andb_false_r. simpl. rewrite andb_true_r. reflexivity.
  - replace (length weights <=? j) with true
      by (symmetry; apply Nat.leb_le; lia).
    replace (j <? length weights + m) with true
      by (symmetry; apply Nat.ltb_lt; lia).
    simpl. rewrite Nat.sub_0_r. reflexivity.
  - replace (length weights <=? i) with true
      by (symmetry; apply Nat.leb_le; lia).
    replace (i <? length weights + m) with true
      by (symmetry; apply Nat.ltb_lt; lia).
    simpl. rewrite Nat.sub_0_r. reflexivity.
  - replace (length weights <=? i) with true
      by (symmetry; apply Nat.leb_le; lia).
    rewrite ?andb_false_r. simpl. rewrite ?andb_false_r. reflexivity.
Qed.

(** A pass of the loop of [CalcAssemblyQ] ends with the evaluation of the
    position error at the configuration it leaves. *)
Lemma assembly_step_ends_with_error (st st1 : AssemblyState) :
  assembly_step bc st = Done st1 ->
  exists m0 cs0,
    CalcConstraintsPositionError bc m0 (as_QInit st1) cs0 (as_e st) true
    = Done (as_model st1, as_cs st1, as_e st1).
Proof.
  unfold assembly_step. cbv zeta. cbn [bind Monad_Run ret].
  match goal with
  | |- match ?r with _ => _ end = _ -> _ =>
      destruct r as [[[m c] J]| |]; try discriminate
  end.
  cbn [bind Monad_Run ret].
  match goal with
  | |- match ?r with _ => _ end = _ -> _ =>
      destruct r as [x| |]; try discriminate
  end.
  cbn [bind Monad_Run ret].
  match goal with
  | |- match ?r with _ => _ end = _ -> _ =>
      destruct r as [QI| |]; try discriminate
  end.
  cbn [bind Monad_Run ret].
  match goal with
  | |- match ?r with _ => _ end = _ -> _ =>
      destruct r as [[[m2 c2] e2]| |] eqn:He; try discriminate
  end.
  intros H. inversion H. cbn. eexists; eexists; exact He.
Qed.

(** The loop returns [true] only from a pass that converged. *)
Lemma assembly_loop_true (tolerance : R) (max_iter : nat)
  (st st' : AssemblyState) :
  assembly_loop bc tolerance max_iter st = Done (st', true) ->
  exists st0,
    assembly_step bc st0 = Done st' /\ converged tolerance st' = true.
Proof.
  revert st. induction max_iter as [|k IH]; intros st; cbn [assembly_loop].
  - discriminate.
  - destruct (assembly_step bc st) as [st1| |] eqn:Hstep; try discriminate.
    cbn [bind Monad_Run ret].
    destruct (converged tolerance st1) eqn:Hconv.
    + intros H. inversion H. subst st1. eauto.
    + apply IH.
Qed.

End ProjectionFacts.

(** X12: with vectors of the right sizes, once the Jacobian has been
    computed, [CalcAssemblyQDot] solves the system
    [[W, J^T], [J, 0]] x = [W * QDotInit; 0], [W] being the diagonal matrix of
    the weights and [J] the Jacobian at [Q], with the factorisation the
    selector stands for, and returns the first [dof_count] entries of the
    solution.  With a selector that is none of the three the process is
    terminated with a report on [std::cerr], in every build. *)
Theorem CalcAssemblyQDot_solves_the_weighted_system :
  forall (R Dyn : Type) (SR : Scalar R) (CO : Collaborators R Dyn)
         (bc : Build) (model model' : Model R Dyn)
         (Q QDotInit QDot weights : VectorNd R)
         (cs cs' : CS.ConstraintSet R) (J : MatrixNd R),
    length QDot = dof_count model ->
    length Q = q_size model ->
    length QDotInit = length QDot ->
    length weights = length QDot ->
    CalcConstraintsJacobian model Q cs
      (MatrixNd_Zero (size cs) (dof_count model)) true
    = Done (model', cs', J) ->
    (forall solve,
       configured_solve bc (CS.linear_solver cs) = Some solve ->
       exists A b,
         CalcAssemblyQDot bc model Q QDotInit cs QDot weights
         = Done (model', cs', firstn (dof_count model) (solve A b)) /\
         same_matrix A
           (KKT_matrix (diagonal weights) J (dof_count model) (size cs)) /\
         b = zipWith mul weights QDotInit ++ VectorNd_Zero (size cs)) /\
    (configured_solve bc (CS.linear_solver cs) = None ->
     fatal (CalcAssemblyQDot bc model Q QDotInit cs QDot weights)).
Proof.
  intros R Dyn SR CO bc model model' Q QDotInit QDot weights cs cs' J
    HQDot HQ HInit Hw HJ.
  assert (Hn : length weights = dof_count model) by congruence.
  destruct (@set_weights_rhs_Done R SR bc weights QDotInit
              (MatrixNd_Zero (size cs + dof_count model)
                 (size cs + dof_count model))
              (VectorNd_Zero (size cs + dof_count model)))
    as (A1 & b1 & Hloop & Hr & Hc & HA & Hl & Hb).
  { lia. }
  { unfold VectorNd_Zero. rewrite repeat_length. lia. }
  cbn [rows cols coeff MatrixNd_Zero] in Hr, Hc, HA.
  unfold VectorNd_Zero in Hl. rewrite repeat_length in Hl.
  pose proof HJ as Hfr. apply CalcConstraintsJacobian_frame in Hfr.
  destruct Hfr as (ca & Hcs').
  assert (Hsz : size cs' = size cs) by (rewrite Hcs'; reflexivity).
  assert (Hls : CS.linear_solver cs' = CS.linear_solver cs)
    by (rewrite Hcs'; reflexivity).
  assert (Hb1 : b1 = zipWith mul weights QDotInit ++ VectorNd_Zero (size cs)).
  { apply (nth_ext _ _ zero zero).
    - rewrite Hl, length_app, length_zipWith. unfold VectorNd_Zero.
      rewrite repeat_length. lia.
    - intros i Hi. rewrite Hb.
      destruct (Nat.ltb_spec i (length weights)) as [Hlt|Hge].
      + rewrite app_nth1 by (rewrite length_zipWith; lia).
        rewrite nth_zipWith by lia. reflexivity.
      + rewrite app_nth2 by (rewrite length_zipWith; lia).
        unfold VectorNd_Zero. rewrite !nth_repeat. reflexivity. }
  assert (Hprefix :
    forall k : Run (Model R Dyn * CS.ConstraintSet R * VectorNd R),
      CalcAssemblyQDot bc model Q QDotInit cs QDot weights
      = (x <- SolveLinearSystem bc
                (set_block
                   (set_block A1 (dof_count model) 0 (size cs)
                      (dof_count model) J)
                   0 (dof_count model) (dof_count model) (size cs)
                   (transpose J))
                b1 (VectorNd_Zero (size cs + dof_count model))
                (CS.linear_solver cs) ;;
         ret (model', cs', segment x 0 (dof_count model)))).
  { intros _. unfold CalcAssemblyQDot.
    rewrite !size_check_passes by congruence.
    rewrite Hloop. cbn [bind Monad_Run ret].
    rewrite HJ. cbn [bind Monad_Run ret].
    rewrite Hsz, Hls. reflexivity. }
  specialize (Hprefix (Done (model', cs', []))).
  assert (Hsizes :
    negb (rows (set_block
                  (set_block A1 (dof_count model) 0 (size cs)
                     (dof_count model) J)
                  0 (dof_count model) (dof_count model) (size cs)
                  (transpose J)) =? length b1)
    || negb (cols (set_block
                     (set_block A1 (dof_count model) 0 (size cs)
                        (dof_count model) J)
                     0 (dof_count model) (dof_count model) (size cs)
                     (transpose J))
             =? length (VectorNd_Zero (size cs + dof_count model)))
    = false).
  { cbn [rows cols set_block]. unfold VectorNd_Zero.
    rewrite Hr, Hc, Hl, repeat_length, !Nat.eqb_refl. reflexivity. }
  split.
  - intros solve Hsolve.
    exists (set_block
              (set_block A1 (dof_count model) 0 (size cs) (dof_count model)
                 J)
              0 (dof_count model) (dof_count model) (size cs)
              (transpose J)), b1.
    split; [|split; [|exact Hb1]].
    + rewrite Hprefix. unfold SolveLinearSystem. rewrite Hsizes.
      cbn [bind Monad_Run ret].
      destruct (CS.linear_solver cs); simpl in Hsolve;
        destruct (RBDL_USE_SIMPLE_MATH bc);
        inversion Hsolve as [Hs]; reflexivity.
    + rewrite <- Hn. apply weighted_is_KKT.
      * rewrite Hr. lia.
      * rewrite Hc. lia.
      * exact HA.
  - intros Hnone. rewrite Hprefix. unfold SolveLinearSystem.
    rewrite Hsizes. cbn [bind Monad_Run ret].
    destruct (CS.linear_solver cs); simpl in Hnone; try discriminate.
    unfold fatal, cerr, assert_, abort_.
    destruct (NDEBUG bc); simpl; eauto.
Qed.

(** X12, run: the velocity (0, 1, 0) projected on the constraint that holds
    the first coordinate of the point mass. *)
Lemma CalcAssemblyQDot_solves_the_weighted_system_witness :
  exists A b,
    CalcAssemblyQDot (CO := PointMass) debug_build
      (point_mass [0; -1; 0]%float) [1; 0; 0]%float [0; 1; 0]%float
      hold_x_bound [0; 0; 0]%float [1; 1; 1]%float
    = Done (point_mass [0; -1; 0]%float, hold_x_bound,
            firstn 3 (gauss_jordan A b)) /\
    same_matrix A
      (KKT_matrix (diagonal [1; 1; 1]%float)
         (pm_Jacobian
            (nth 0 (CS.store hold_x_bound)
               (Custom {| cu_impl := 0; cu_size := 0; cu_name := None;
                          cu_baumgarteEnabled := false;
                          cu_rowInSystem := 0 |}))
            (MatrixNd_Zero 1 3))
         3 (size hold_x_bound)) /\
    b = zipWith mul [1; 1; 1]%float [0; 1; 0]%float
        ++ VectorNd_Zero (size hold_x_bound).
Proof.
  refine (proj1 (@CalcAssemblyQDot_solves_the_weighted_system float
                   (Vector3d float) _ PointMass debug_build
                   (point_mass [0; -1; 0]%float)
                   (point_mass [0; -1; 0]%float)
                   [1; 0; 0]%float [0; 1; 0]%float [0; 0; 0]%float
                   [1; 1; 1]%float hold_x_bound hold_x_bound _
                   eq_refl eq_refl eq_refl eq_refl _) gauss_jordan eq_refl).
  vm_compute. reflexivity.
Defined.

(** X13: the size checks of the two assembly projections, in the order the
    code makes them.  A vector of the wrong size terminates the process in
    every build, with the report of the first check that fails on
    [std::cerr]; with asserts compiled in the failed [assert (false)] comes
    before [abort()]. *)
Theorem assembly_projections_check_sizes :
  forall (R Dyn : Type) (SR : Scalar R) (SO : ScalarOrd R)
         (CO : Collaborators R Dyn) (bc : Build) (uninit : R)
         (model : Model R Dyn) (cs : CS.ConstraintSet R)
         (Q QInit QDotInit QDot weights : VectorNd R) (tolerance : R)
         (max_iter : nat),
    let after := if NDEBUG bc then [] else [assertion_failed] in
    (length Q <> q_size model ->
     CalcAssemblyQ bc uninit model QInit cs Q weights tolerance max_iter
     = Aborted ("Incorrect Q vector size."%string :: after)) /\
    (length Q = q_size model -> length QInit <> q_size model ->
     CalcAssemblyQ bc uninit model QInit cs Q weights tolerance max_iter
     = Aborted ("Incorrect QInit vector size."%string :: after)) /\
    (length Q = q_size model -> length QInit = q_size model ->
     length weights <> dof_count model ->
     CalcAssemblyQ bc uninit model QInit cs Q weights tolerance max_iter
     = Aborted ("Incorrect weights vector size."%string :: after)) /\
    (length QDot <> dof_count model ->
     CalcAssemblyQDot bc model Q QDotInit cs QDot weights
     = Aborted ("Incorrect QDot vector size."%string :: after)) /\
    (length QDot = dof_count model -> length Q <> q_size model ->
     CalcAssemblyQDot bc model Q QDotInit cs QDot weights
     = Aborted ("Incorrect Q vector size."%string :: after)) /\
    (length QDot = dof_count model -> length Q = q_size model ->
     length QDotInit <> length QDot ->
     CalcAssemblyQDot bc model Q QDotInit cs QDot weights
     = Aborted ("Incorrect QDotInit vector size."%string :: after)) /\
    (length QDot = dof_count model -> length Q = q_size model ->
     length QDotInit = length QDot -> length weights <> length QDot ->
     CalcAssemblyQDot bc model Q QDotInit cs QDot weights
     = Aborted ("Incorrect weight vector size."%string :: after)).
Proof.
  intros R Dyn SR SO CO bc uninit model cs Q QInit QDotInit QDot weights
    tolerance max_iter after.
  assert (Hfail :
    forall (T : Type) (a n : nat) (msg : string) (k : Run T),
      a <> n ->
      ((if negb (a =? n)
        then cerr msg (assert_ bc false ;; abort_)
        else ret tt) ;; k)
      = Aborted (msg :: if NDEBUG bc then [] else [assertion_failed])).
  { intros T a n msg k Hne.
    replace (a =? n) with false by (symmetry; apply Nat.eqb_neq; exact Hne).
    unfold cerr, assert_, abort_. destruct (NDEBUG bc); reflexivity. }
  unfold after.
  repeat split; intros; unfold CalcAssemblyQ, CalcAssemblyQDot;
    rewrite ?size_check_passes by assumption;
    apply Hfail; assumption.
Qed.

(** X13, run: [CalcAssemblyQ] for the point mass with a [Q] of two entries,
    with asserts compiled in. *)
Lemma assembly_projections_check_sizes_witness :
  CalcAssemblyQ (CO := PointMass) debug_build 0%float
    (point_mass [0; -1; 0]%float) [0; 0; 0]%float hold_x_bound
    [0; 0]%float [1; 1; 1]%float 0x1p-30%float 2
  = Aborted ["Incorrect Q vector size."%string; assertion_failed].
Proof.
  apply (proj1 (@assembly_projections_check_sizes float (Vector3d float) _ _
                  PointMass debug_build 0%float
                  (point_mass [0; -1; 0]%float) hold_x_bound [0; 0]%float
                  [0; 0; 0]%float [0; 0; 0]%float [0; 0; 0]%float
                  [1; 1; 1]%float 0x1p-30%float 2)).
  simpl. discriminate.
Defined.

(** X14: when [CalcAssemblyQ] returns [true], the model and the registry it
    leaves are those of an evaluation of the position error at the
    configuration it returns, and the norm of that error is below the
    tolerance. *)
Theorem CalcAssemblyQ_true_means_small_error :
  forall (R Dyn : Type) (SR : Scalar R) (SO : ScalarOrd R)
         (CO : Collaborators R Dyn) (bc : Build) (uninit : R)
         (model model' : Model R Dyn) (cs cs' : CS.ConstraintSet R)
         (QInit Q Q' weights : VectorNd R) (tolerance : R) (max_iter : nat),
    CalcAssemblyQ bc uninit model QInit cs Q weights tolerance max_iter
    = Done (model', cs', Q', true) ->
    exists m0 cs0 e0 e,
      CalcConstraintsPositionError bc m0 Q' cs0 e0 true
      = Done (model', cs', e) /\
      ltb (norm e) tolerance = true.
Proof.
  intros R Dyn SR SO CO bc uninit model model' cs cs' QInit Q Q' weights
    tolerance max_iter.
  unfold CalcAssemblyQ.
  repeat match goal with
         | |- context [if negb (?a =? ?n) then _ else _] =>
             destruct (negb (a =? n));
             [unfold cerr, assert_, abort_; destruct (NDEBUG bc);
              discriminate|]
         end.
  cbn [bind Monad_Run ret].
  destruct (CalcConstraintsPositionError bc model QInit cs
              (VectorNd_Zero (size cs)) true)
    as [[[m1 cs1] e1]| |] eqn:He; try discriminate.
  cbn [bind Monad_Run ret].
  destruct (ltb (norm e1) tolerance) eqn:Hnear.
  - intros H. inversion H. subst.
    eexists; eexists; eexists; eexists. split; [exact He|exact Hnear].
  - destruct (assembly_loop bc tolerance max_iter
                (assembly_start uninit model cs QInit weights m1 cs1 e1))
      as [[st ok]| |] eqn:Hloop; try discriminate.
    cbn [bind Monad_Run ret].
    intros H. inversion H. subst.
    apply assembly_loop_true in Hloop.
    destruct Hloop as (st0 & Hstep & Hconv).
    apply assembly_step_ends_with_error in Hstep.
    destruct Hstep as (m0 & cs0 & Hstep).
    apply andb_true_iff in Hconv. destruct Hconv as (Hconv & _).
    eexists; eexists; eexists; eexists. split; [exact Hstep|exact Hconv].
Qed.

(** X14, run: from (0, 0, 0), with two passes, the point mass is brought to
    the constraint that holds its first coordinate at one. *)
Lemma CalcAssemblyQ_true_means_small_error_witness :
  exists m0 cs0 e0 e,
    CalcConstraintsPositionError (CO := PointMass) debug_build m0
      [1; 0; 0]%float cs0 e0 true
    = Done (fst two_passes, snd two_passes, e) /\
    ltb (norm e) 0x1p-30%float = true.
Proof.
  apply (@CalcAssemblyQ_true_means_small_error float (Vector3d float) _ _
           PointMass debug_build 0%float (point_mass [0; -1; 0]%float)
           (fst two_passes) hold_x_bound (snd two_passes) [0; 0; 0]%float
           [0; 0; 0]%float [1; 0; 0]%float [1; 1; 1]%float 0x1p-30%float 2).
  vm_compute. reflexivity.
Defined.

(* ===================================================================== *)
(** * The null-space solve under the reduced math backend *)
(* ===================================================================== *)

Section NullSpaceFacts.
Context {R Dyn : Type} {SR : Scalar R} {CO : Collaborators R Dyn}.

(** The basis of the null space goes to [GT_qr], [GT_qr_Q], [Y] and [Z]. *)
Lemma null_space_basis_frame (n : nat) (cs : CS.ConstraintSet R) :
  CS.linear_solver (null_space_basis n cs) = CS.linear_solver cs /\
  CS.force (null_space_basis n cs) = CS.force cs /\
  CS.impulse (null_space_basis n cs) = CS.impulse cs /\
  CS.v_plus (null_space_basis n cs) = CS.v_plus cs /\
  CS.G (null_space_basis n cs) = CS.G cs /\
  CS.gamma (null_space_basis n cs) = CS.gamma cs.
Proof. repeat split. Qed.

(** The solve under the reduced backend with the LU selector. *)
Lemma SolveConstrainedSystemNullSpace_reduced_LU (bc : Build)
  (H G : MatrixNd R) (c gamma qddot lambda : VectorNd R) (Y Z : MatrixNd R)
  (qddot_y qddot_z : VectorNd R) :
  RBDL_USE_SIMPLE_MATH bc = true ->
  exists qddot' qddot_z',
    SolveConstrainedSystemNullSpace bc H G c gamma qddot lambda Y Z qddot_y
      qddot_z LinearSolverPartialPivLU
    = Done (qddot', lambda, householderQr_solve (mmul G Y) gamma, qddot_z').
Proof.
  intros Hsm. unfold SolveConstrainedSystemNullSpace. rewrite Hsm.
  cbn [bind Monad_Run ret]. eexists; eexists; reflexivity.
Qed.

(** What the entry points store after the solve. *)
Lemma stored_after_null_space (z y l : VectorNd R)
  (cs : CS.ConstraintSet R) :
  CS.force (CS.set_qddot_z z (CS.set_qddot_y y (CS.set_force l cs))) = l /\
  CS.impulse (CS.set_qddot_z z (CS.set_qddot_y y (CS.set_impulse l cs)))
  = l /\
  CS.qddot_y (CS.set_qddot_z z (CS.set_qddot_y y (CS.set_force l cs))) = y /\
  CS.qddot_y (CS.set_qddot_z z (CS.set_qddot_y y (CS.set_impulse l cs)))
  = y /\
  CS.Y (CS.set_qddot_z z (CS.set_qddot_y y (CS.set_force l cs))) = CS.Y cs /\
  CS.Y (CS.set_qddot_z z (CS.set_qddot_y y (CS.set_impulse l cs)))
  = CS.Y cs.
Proof. repeat split. Qed.

End NullSpaceFacts.

(** X15: under the reduced math backend, with the selector
    [LinearSolverPartialPivLU], the null-space entry points never compute
    the multipliers: the second switch of [SolveConstrainedSystemNullSpace]
    assigns [qddot_y] again (line 694) where the other cases assign
    [lambda].  Once the system is assembled,
    [ForwardDynamicsConstraintsNullSpace] returns and leaves [CS.force] as
    it found it; once the inertia matrix and the Jacobian are there,
    [ComputeConstraintImpulsesNullSpace] returns and leaves [CS.impulse] as
    it found it. *)
Theorem null_space_LU_on_reduced_backend_keeps_multipliers :
  forall (R Dyn : Type) (SR : Scalar R) (CO : Collaborators R Dyn)
         (bc : Build) (cs : CS.ConstraintSet R),
    RBDL_USE_SIMPLE_MATH bc = true ->
    CS.linear_solver cs = LinearSolverPartialPivLU ->
    (forall (model model1 : Model R Dyn) (Q QDot Tau QDDot : VectorNd R)
            (cs1 : CS.ConstraintSet R)
            (f_ext : option (list (SpatialVector R))),
       CalcConstrainedSystemVariables bc model Q QDot Tau cs f_ext
       = Done (model1, cs1) ->
       exists cs' qddot,
         ForwardDynamicsConstraintsNullSpace bc model Q QDot Tau cs QDDot
           f_ext = Done (model1, cs', qddot) /\
         CS.force cs' = CS.force cs /\
         CS.qddot_y cs'
         = householderQr_solve (mmul (CS.G cs1) (CS.Y cs')) (CS.gamma cs1)) /\
    (forall (model model1 model2 : Model R Dyn)
            (Q QDotMinus QDotPlus : VectorNd R) (cs2 : CS.ConstraintSet R)
            (H1 G2 : MatrixNd R),
       CompositeRigidBodyAlgorithm
         (UpdateKinematicsCustom model (Some Q) None None) Q (CS.H cs)
       = (model1, H1) ->
       CalcConstraintsJacobian model1 Q (CS.set_H H1 cs) (CS.G cs) false
       = Done (model2, cs2, G2) ->
       exists cs' qdotplus,
         ComputeConstraintImpulsesNullSpace bc model Q QDotMinus cs QDotPlus
         = Done (model2, cs', qdotplus) /\
         CS.impulse cs' = CS.impulse cs /\
         CS.qddot_y cs'
         = householderQr_solve (mmul G2 (CS.Y cs')) (CS.v_plus cs)).
Proof.
  intros R Dyn SR CO bc cs Hsm Hls. split.
  - intros model model1 Q QDot Tau QDDot cs1 f_ext Hcalc.
    pose proof Hcalc as Hframe.
    apply CalcConstrainedSystemVariables_frame in Hframe.
    destruct Hframe as (Hframe & _).
    destruct Hframe as ((_ & _ & _ & _ & _ & Hls1) & _ & _ & Hf & _).
    unfold ForwardDynamicsConstraintsNullSpace.
    rewrite Hcalc. cbn [bind Monad_Run ret].
    destruct (null_space_basis_frame (length QDot) cs1)
      as (B1 & B2 & _ & _ & B5 & B6).
    remember (null_space_basis (length QDot) cs1) as cs3 eqn:E3.
    rewrite B1, Hls1, Hls.
    destruct (@SolveConstrainedSystemNullSpace_reduced_LU R Dyn SR CO bc
                (CS.H cs3) (CS.G cs3) (vsub Tau (CS.C cs3)) (CS.gamma cs3)
                QDDot (CS.force cs3) (CS.Y cs3) (CS.Z cs3) (CS.qddot_y cs3)
                (CS.qddot_z cs3) Hsm) as (q' & z' & Hsolve).
    rewrite Hsolve. cbn [bind Monad_Run ret].
    exists (CS.set_qddot_z z'
              (CS.set_qddot_y
                 (householderQr_solve (mmul (CS.G cs3) (CS.Y cs3))
                    (CS.gamma cs3))
                 (CS.set_force (CS.force cs3) cs3))), q'.
    split; [reflexivity|].
    destruct (stored_after_null_space z'
                (householderQr_solve (mmul (CS.G cs3) (CS.Y cs3))
                   (CS.gamma cs3))
                (CS.force cs3) cs3) as (S1 & _ & S3 & _ & S5 & _).
    rewrite S1, S3, S5, B2, B5, B6, Hf. split; reflexivity.
  - intros model model1 model2 Q QDotMinus QDotPlus cs2 H1 G2 Hcrba HJ.
    pose proof HJ as Hfr. apply CalcConstraintsJacobian_frame in Hfr.
    destruct Hfr as (ca & Hcs2).
    unfold ComputeConstraintImpulsesNullSpace.
    rewrite Hcrba. cbv beta iota zeta.
    change (CS.G (CS.set_H H1 cs)) with (CS.G cs).
    rewrite HJ. cbn [bind Monad_Run ret].
    destruct (null_space_basis_frame (length QDotMinus) (CS.set_G G2 cs2))
      as (B1 & _ & B3 & B4 & B5 & _).
    remember (null_space_basis (length QDotMinus) (CS.set_G G2 cs2))
      as cs3 eqn:E3.
    assert (Hls2 : CS.linear_solver (CS.set_G G2 cs2) = CS.linear_solver cs)
      by (rewrite Hcs2; reflexivity).
    assert (Himp : CS.impulse (CS.set_G G2 cs2) = CS.impulse cs)
      by (rewrite Hcs2; reflexivity).
    assert (Hvp : CS.v_plus (CS.set_G G2 cs2) = CS.v_plus cs)
      by (rewrite Hcs2; reflexivity).
    change (CS.G (CS.set_G G2 cs2)) with G2 in B5.
    rewrite B1, Hls2, Hls.
    destruct (@SolveConstrainedSystemNullSpace_reduced_LU R Dyn SR CO bc
                (CS.H cs3) (CS.G cs3) (mvmul (CS.H cs3) QDotMinus)
                (CS.v_plus cs3) QDotPlus (CS.impulse cs3) (CS.Y cs3)
                (CS.Z cs3) (CS.qddot_y cs3) (CS.qddot_z cs3) Hsm)
      as (q' & z' & Hsolve).
    rewrite Hsolve. cbn [bind Monad_Run ret].
    exists (CS.set_qddot_z z'
              (CS.set_qddot_y
                 (householderQr_solve (mmul (CS.G cs3) (CS.Y cs3))
                    (CS.v_plus cs3))
                 (CS.set_impulse (CS.impulse cs3) cs3))), q'.
    split; [reflexivity|].
    destruct (stored_after_null_space z'
                (householderQr_solve (mmul (CS.G cs3) (CS.Y cs3))
                   (CS.v_plus cs3))
                (CS.impulse cs3) cs3) as (_ & S2 & _ & S4 & _ & S6).
    rewrite S2, S4, S6, B3, B4, B5, Himp, Hvp. split; reflexivity.
Qed.

(** X15, run: the point mass with its ground contact, at rest, under the
    reduced backend; the forces stay the zeros [Bind] found. *)
Lemma null_space_LU_on_reduced_backend_keeps_multipliers_witness :
  exists cs' qddot,
    ForwardDynamicsConstraintsNullSpace (CO := PointMass) reduced_build
      (point_mass [0; -1; 0]%float) [0; 0; 0]%float [0; 0; 0]%float
      [0; 0; 0]%float one_contact_bound [0; 0; 0]%float None
    = Done (point_mass [0; -1; 0]%float, cs', qddot) /\
    CS.force cs' = CS.force one_contact_bound /\
    CS.qddot_y cs'
    = householderQr_solve (Collaborators := PointMass)
        (mmul (CS.G one_contact_assembled) (CS.Y cs'))
        (CS.gamma one_contact_assembled).
Proof.
  refine (proj1 (@null_space_LU_on_reduced_backend_keeps_multipliers float
                   (Vector3d float) _ PointMass reduced_build
                   one_contact_bound eq_refl eq_refl)
            (point_mass [0; -1; 0]%float) (point_mass [0; -1; 0]%float)
            [0; 0; 0]%float [0; 0; 0]%float [0; 0; 0]%float [0; 0; 0]%float
            one_contact_assembled None _).
  vm_compute. reflexivity.
Defined.

(* ===================================================================== *)
(** * Registration after [Bind], and registration of no rows *)
(* ===================================================================== *)

Section LateFacts.
Context {R : Type} {SR : Scalar R}.
Variable bc : Build.
Variable uninit : R.

(** What every pass of a loop keeps is kept by the loop. *)
Lemma for_from_keeps {S : Type} (P : S -> Prop)
  (body : nat -> S -> Run S) :
  (forall j s s', body j s = Done s' -> P s -> P s') ->
  forall n i s s', for_from i n body s = Done s' -> P s -> P s'.
Proof.
  intros Hstep. induction n as [|n IH]; intros i s s'; cbn [for_from].
  - intros H HP. inversion H. subst. exact HP.
  - destruct (body i s) as [s1| |] eqn:Hb; cbn [bind Monad_Run];
      try discriminate.
    intros Hrun HP. eapply IH; [exact Hrun|].
    eapply Hstep; [exact Hb|exact HP].
Qed.

(** Zeroing a row writes the five per-row vectors. *)
Lemma zero_row_workspace (row : nat) (cs cs' : CS.ConstraintSet R) :
  zero_row bc row cs = Done cs' ->
  CS.A cs' = CS.A cs /\ CS.b cs' = CS.b cs.
Proof.
  unfold zero_row. cbn [bind Monad_Run ret].
  repeat match goal with
         | |- match ?r with _ => _ end = _ -> _ =>
             destruct r; try discriminate
         end.
  intros H. inversion H. split; reflexivity.
Qed.

(** [AddCustomConstraint] does not touch the KKT workspace. *)
Lemma AddCustomConstraint_workspace (cs cs' : CS.ConstraintSet R)
  (u : CustomConstraint) (row : Z) :
  AddCustomConstraint bc uninit cs u = Done (cs', row) ->
  CS.A cs' = CS.A cs /\ CS.b cs' = CS.b cs.
Proof.
  unfold AddCustomConstraint, make_shared. cbn [bind Monad_Run ret].
  match goal with
  | |- match ?r with _ => _ end = _ -> _ => destruct r; try discriminate
  end.
  match goal with
  | |- match ?r with _ => _ end = _ -> _ => destruct r; try discriminate
  end.
  match goal with
  | |- match for_ ?n ?body ?c0 with _ => _ end = _ -> _ =>
      destruct (for_ n body c0) as [c1| |] eqn:Hloop; try discriminate;
      assert (Hkeep : CS.A c1 = CS.A cs /\ CS.b c1 = CS.b cs)
  end.
  { unfold for_ in Hloop.
    refine (@for_from_keeps _
              (fun c => CS.A c = CS.A cs /\ CS.b c = CS.b cs) _ _ _ _ _ _
              Hloop _); [|split; reflexivity].
    intros j s s' Hbody (HA & Hb).
    apply zero_row_workspace in Hbody. destruct Hbody as (HA' & Hb').
    split; [rewrite HA'; exact HA|rewrite Hb'; exact Hb]. }
  intros H. inversion H. subst. exact Hkeep.
Qed.

End LateFacts.

(** X16: a custom constraint registered after [Bind] is not covered by the
    workspaces.  [AddCustomConstraint] on a bound registry whose KKT
    workspace is ready returns, in every build; the registry is still
    marked bound and has the rows of the new constraint, but [A] and [b]
    are the ones [Bind] sized for the rows that were there: the KKT
    workspace is no longer ready. *)
Theorem AddCustomConstraint_after_Bind_outgrows_the_workspace :
  forall (R : Type) (SR : Scalar R) (bc : Build) (uninit : R)
         (cs : CS.ConstraintSet R) (u : CustomConstraint) (n : nat),
    CS.bound cs = true -> kkt_ready n cs -> 1 <= cu_size u ->
    exists cs',
      AddCustomConstraint bc uninit cs u
      = Done (cs', unsigned_pred (size cs + cu_size u)) /\
      CS.bound cs' = true /\
      size cs' = size cs + cu_size u /\
      CS.A cs' = CS.A cs /\ CS.b cs' = CS.b cs /\
      ~ kkt_ready n cs'.
Proof.
  intros R SR bc uninit cs u n Hb (K1 & K2 & K3 & K4) Hu.
  destruct (@AddCustomConstraint_Done R SR bc uninit cs u)
    as (cs' & row & Hrun & Hb' & _ & _ & _ & _ & _ & _ & Hty).
  pose proof (@AddCustomConstraint_row R SR bc uninit cs cs' u row Hrun)
    as Hrow.
  destruct (@AddCustomConstraint_workspace R SR bc uninit cs cs' u row Hrun)
    as (HA & Hbb).
  assert (Hsize : size cs' = size cs + cu_size u).
  { unfold size. rewrite Hty, length_app, repeat_length. reflexivity. }
  exists cs'. rewrite <- Hrow.
  split; [exact Hrun|]. split; [congruence|]. split; [exact Hsize|].
  split; [exact HA|]. split; [exact Hbb|].
  intros (K1' & _). rewrite HA, K1, Hsize in K1'. lia.
Qed.

(** X16, run: a custom constraint of two rows on [one_contact_bound]. *)
Lemma AddCustomConstraint_after_Bind_outgrows_the_workspace_witness :
  exists cs',
    AddCustomConstraint debug_build 0%float one_contact_bound
      {| cu_impl := 0; cu_size := 2; cu_name := None;
         cu_baumgarteEnabled := false; cu_rowInSystem := 0 |}
    = Done (cs', unsigned_pred (size one_contact_bound + 2)) /\
    CS.bound cs' = true /\
    size cs' = size one_contact_bound + 2 /\
    CS.A cs' = CS.A one_contact_bound /\
    CS.b cs' = CS.b one_contact_bound /\
    ~ kkt_ready 3 cs'.
Proof.
  apply (@AddCustomConstraint_after_Bind_outgrows_the_workspace float _
           debug_build 0%float one_contact_bound
           {| cu_impl := 0; cu_size := 2; cu_name := None;
              cu_baumgarteEnabled := false; cu_rowInSystem := 0 |} 3).
  - reflexivity.
  - repeat split.
  - simpl. lia.
Defined.

(** X17: registering no rows.  A custom constraint of size zero and a loop
    constraint with an empty list of axes are registered as objects without
    rows, and the call returns the index of the row before the first row it
    would have added: the last row there was, or 4294967295, the
    wrap-around of [0 - 1] in a 32-bit unsigned, on a registry without
    rows. *)
Theorem registering_no_rows_returns_the_row_before :
  forall (R : Type) (SR : Scalar R) (SO : ScalarOrd R) (bc : Build)
         (uninit : R) (cs : CS.ConstraintSet R),
    (forall u : CustomConstraint,
       cu_size u = 0 ->
       exists cs',
         AddCustomConstraint bc uninit cs u
         = Done (cs', unsigned_pred (size cs)) /\
         size cs' = size cs /\
         CS.constraints cs' = CS.constraints cs ++ [length (CS.store cs)]) /\
    (CS.bound cs = false ->
     forall (idP idS : nat) (XP XS : SpatialTransform R) (enableStab : bool)
            (stabParam : R) (constraintName : option string) (pl vl : bool),
     exists cs',
       AddLoopConstraint_axes bc uninit cs idP idS XP XS [] enableStab
         stabParam constraintName pl vl
       = Done (cs', unsigned_pred (size cs)) /\
       size cs' = size cs /\
       CS.constraints cs' = CS.constraints cs ++ [length (CS.store cs)]) /\
    (size cs = 0 -> unsigned_pred (size cs) = 4294967295%Z).
Proof.
  intros R SR SO bc uninit cs. split; [|split].
  - intros u Hu.
    destruct (@AddCustomConstraint_Done R SR bc uninit cs u)
      as (cs' & row & Hrun & _ & Hc & _ & _ & _ & _ & _ & Hty).
    pose proof (@AddCustomConstraint_row R SR bc uninit cs cs' u row Hrun)
      as Hrow.
    rewrite Hu, Nat.add_0_r in Hrow. rewrite Hu in Hty.
    exists cs'. rewrite <- Hrow. split; [exact Hrun|].
    split; [|exact Hc].
    unfold size. rewrite Hty. cbn [repeat]. rewrite app_nil_r. reflexivity.
  - intros Hb idP idS XP XS enableStab stabParam constraintName pl vl.
    destruct (@AddLoopConstraint_axes_Done R SR bc uninit cs idP idS XP XS
                [] enableStab stabParam constraintName pl vl Hb)
      as (cs' & Hrun & _ & Hc & _ & _ & _ & _ & _ & Hty).
    cbn [length] in Hrun. rewrite Nat.add_0_r in Hrun.
    exists cs'. split; [exact Hrun|]. split; [|exact Hc].
    unfold size. rewrite Hty. cbn [length repeat]. rewrite app_nil_r.
    reflexivity.
  - intros ->. reflexivity.
Qed.

(** X17, run: a custom constraint without rows on the empty registry; the
    call returns 4294967295. *)
Lemma registering_no_rows_returns_the_row_before_witness :
  exists cs',
    AddCustomConstraint debug_build 0%float
      (empty_set LinearSolverPartialPivLU)
      {| cu_impl := 0; cu_size := 0; cu_name := None;
         cu_baumgarteEnabled := false; cu_rowInSystem := 0 |}
    = Done (cs', 4294967295%Z) /\
    size cs' = 0 /\
    CS.constraints cs' = [0].
Proof.
  exact (proj1 (@registering_no_rows_returns_the_row_before float _ _
                  debug_build 0%float (empty_set LinearSolverPartialPivLU))
           {| cu_impl := 0; cu_size := 0; cu_name := None;
              cu_baumgarteEnabled := false; cu_rowInSystem := 0 |}
           eq_refl).
Defined.

(* ===================================================================== *)
(** * The range-space entry points and the selector *)
(* ===================================================================== *)

Section SelectorFacts.
Context {R Dyn : Type} {SR : Scalar R} {SO : ScalarOrd R}
        {CO : Collaborators R Dyn}.
Variable bc : Build.
Variable ls : LinearSolver.

(** The objects are found through the store. *)
Lemma objects_selector (cs : CS.ConstraintSet R) (ps : list nat) :
  objects (with_linear_solver ls cs) ps = objects cs ps.
Proof.
  induction ps as [|p ps IH]; cbn [objects]; [reflexivity|].
  rewrite IH. reflexivity.
Qed.

Lemma CalcConstraintsJacobian_selector (model : Model R Dyn)
  (Q : VectorNd R) (cs : CS.ConstraintSet R) (G : MatrixNd R) (uk : bool) :
  CalcConstraintsJacobian model Q (with_linear_solver ls cs) G uk
  = match CalcConstraintsJacobian model Q cs G uk with
    | Done (m, c, g) => Done (m, with_linear_solver ls c, g)
    | Aborted t => Aborted t
    | Undefined => Undefined
    end.
Proof.
  unfold CalcConstraintsJacobian.
  change (CS.constraints (with_linear_solver ls cs))
    with (CS.constraints cs).
  change (CS.cache (with_linear_solver ls cs)) with (CS.cache cs).
  rewrite objects_selector.
  destruct (objects cs (CS.constraints cs)) as [l| |]; try reflexivity.
  cbn [bind Monad_Run ret].
  destruct (fold_left _ l _) as [[m g] c]. reflexivity.
Qed.

Lemma CalcConstraintsPositionError_selector (model : Model R Dyn)
  (Q : VectorNd R) (cs : CS.ConstraintSet R) (e : VectorNd R) (uk : bool) :
  CalcConstraintsPositionError bc model Q (with_linear_solver ls cs) e uk
  = match CalcConstraintsPositionError bc model Q cs e uk with
    | Done (m, c, g) => Done (m, with_linear_solver ls c, g)
    | Aborted t => Aborted t
    | Undefined => Undefined
    end.
Proof.
  unfold CalcConstraintsPositionError.
  change (size (with_linear_solver ls cs)) with (size cs).
  change (CS.constraints (with_linear_solver ls cs))
    with (CS.constraints cs).
  change (CS.cache (with_linear_solver ls cs)) with (CS.cache cs).
  rewrite objects_selector.
  destruct (assert_ bc (length e =? size cs)); try reflexivity.
  cbn [bind Monad_Run ret].
  destruct (objects cs (CS.constraints cs)) as [l| |]; try reflexivity.
  cbn [bind Monad_Run ret].
  destruct (fold_left _ l _) as [[m g] c]. reflexivity.
Qed.

Lemma CalcConstraintsVelocityError_selector (model : Model R Dyn)
  (Q QDot : VectorNd R) (cs : CS.ConstraintSet R) (e : VectorNd R)
  (uk : bool) :
  CalcConstraintsVelocityError model Q QDot (with_linear_solver ls cs) e uk
  = match CalcConstraintsVelocityError model Q QDot cs e uk with
    | Done (m, c, g) => Done (m, with_linear_solver ls c, g)
    | Aborted t => Aborted t
    | Undefined => Undefined
    end.
Proof.
  unfold CalcConstraintsVelocityError.
  change (CS.G (with_linear_solver ls cs)) with (CS.G cs).
  rewrite CalcConstraintsJacobian_selector.
  destruct (CalcConstraintsJacobian model Q cs (CS.G cs) uk)
    as [[[m1 c1] G1]| |]; try reflexivity.
  cbn [bind Monad_Run ret].
  change (CS.set_G G1 (with_linear_solver ls c1))
    with (with_linear_solver ls (CS.set_G G1 c1)).
  generalize (CS.set_G G1 c1). intros c2.
  change (CS.constraints (with_linear_solver ls c2))
    with (CS.constraints c2).
  change (CS.cache (with_linear_solver ls c2)) with (CS.cache c2).
  change (CS.G (with_linear_solver ls c2)) with (CS.G c2).
  rewrite objects_selector.
  destruct (objects c2 (CS.constraints c2)) as [l| |]; try reflexivity.
  cbn [bind Monad_Run ret].
  destruct (fold_left _ l _) as [[m g] c]. reflexivity.
Qed.

(** A loop over the constraints whose passes do not look at the selector. *)
Lemma fold_selector
  (f : Model R Dyn * CS.ConstraintSet R -> Constraint R
       -> Model R Dyn * CS.ConstraintSet R) :
  (forall m c x,
     f (m, with_linear_solver ls c) x
     = (fst (f (m, c) x), with_linear_solver ls (snd (f (m, c) x)))) ->
  forall l m c,
    fold_left f l (m, with_linear_solver ls c)
    = (fst (fold_left f l (m, c)),
       with_linear_solver ls (snd (fold_left f l (m, c)))).
Proof.
  intros Hstep. induction l as [|x l IH]; intros m c; cbn [fold_left].
  - reflexivity.
  - rewrite Hstep. destruct (f (m, c) x) as [m' c']. cbn [fst snd].
    apply IH.
Qed.

(** The assembly does not look at the selector. *)
Lemma CalcConstrainedSystemVariables_selector (model : Model R Dyn)
  (Q QDot Tau : VectorNd R) (cs : CS.ConstraintSet R)
  (f_ext : option (list (SpatialVector R))) :
  CalcConstrainedSystemVariables bc model Q QDot Tau
    (with_linear_solver ls cs) f_ext
  = match CalcConstrainedSystemVariables bc model Q QDot Tau cs f_ext with
    | Done (m, c) => Done (m, with_linear_solver ls c)
    | Aborted t => Aborted t
    | Undefined => Undefined
    end.
Proof.
  unfold CalcConstrainedSystemVariables.
  change (CS.C (with_linear_solver ls cs)) with (CS.C cs).
  destruct (NonlinearEffects model Q QDot (CS.C cs) f_ext) as [m0 C0].
  change (CS.set_C C0 (with_linear_solver ls cs))
    with (with_linear_solver ls (CS.set_C C0 cs)).
  generalize (CS.set_C C0 cs). clear cs. intros cs.
  change (CS.H (with_linear_solver ls cs)) with (CS.H cs).
  match goal with
  | |- context [assert_ bc ?cond] =>
      destruct (assert_ bc cond); try reflexivity
  end.
  cbn [bind Monad_Run ret].
  change (CS.set_H (msetZero (CS.H cs)) (with_linear_solver ls cs))
    with (with_linear_solver ls (CS.set_H (msetZero (CS.H cs)) cs)).
  generalize (CS.set_H (msetZero (CS.H cs)) cs). clear cs. intros cs.
  change (CS.H (with_linear_solver ls cs)) with (CS.H cs).
  destruct (CompositeRigidBodyAlgorithm m0 Q (CS.H cs)) as [m1 H1].
  change (CS.set_H H1 (with_linear_solver ls cs))
    with (with_linear_solver ls (CS.set_H H1 cs)).
  generalize (CS.set_H H1 cs). clear cs. intros cs.
  destruct (update_X_base m1) as [m2| |]; try reflexivity.
  cbn [bind Monad_Run ret].
  change (CS.G (with_linear_solver ls cs)) with (CS.G cs).
  rewrite CalcConstraintsJacobian_selector.
  destruct (CalcConstraintsJacobian m2 Q cs (CS.G cs) false)
    as [[[m3 cs3] G3]| |]; try reflexivity.
  cbn [bind Monad_Run ret].
  change (CS.set_G G3 (with_linear_solver ls cs3))
    with (with_linear_solver ls (CS.set_G G3 cs3)).
  generalize (CS.set_G G3 cs3). clear cs cs3. intros cs.
  change (CS.err (with_linear_solver ls cs)) with (CS.err cs).
  rewrite CalcConstraintsPositionError_selector.
  destruct (CalcConstraintsPositionError bc m3 Q cs (CS.err cs) false)
    as [[[m4 cs4] e4]| |]; try reflexivity.
  cbn [bind Monad_Run ret].
  change (CS.set_err e4 (with_linear_solver ls cs4))
    with (with_linear_solver ls (CS.set_err e4 cs4)).
  generalize (CS.set_err e4 cs4). clear cs cs4. intros cs.
  change (CS.errd (with_linear_solver ls cs)) with (CS.errd cs).
  rewrite CalcConstraintsVelocityError_selector.
  destruct (CalcConstraintsVelocityError m4 Q QDot cs (CS.errd cs) false)
    as [[[m5 cs5] e5]| |]; try reflexivity.
  cbn [bind Monad_Run ret].
  change (CS.set_errd e5 (with_linear_solver ls cs5))
    with (with_linear_solver ls (CS.set_errd e5 cs5)).
  generalize (CS.set_errd e5 cs5). clear cs cs5. intros cs.
  change (CS.QDDot_0 (with_linear_solver ls cs)) with (CS.QDDot_0 cs).
  change (CS.set_QDDot_0 (setZero (CS.QDDot_0 cs))
            (with_linear_solver ls cs))
    with (with_linear_solver ls
            (CS.set_QDDot_0 (setZero (CS.QDDot_0 cs)) cs)).
  generalize (CS.set_QDDot_0 (setZero (CS.QDDot_0 cs)) cs).
  clear cs. intros cs.
  change (CS.QDDot_0 (with_linear_solver ls cs)) with (CS.QDDot_0 cs).
  change (CS.constraints (with_linear_solver ls cs))
    with (CS.constraints cs).
  rewrite objects_selector.
  destruct (objects cs (CS.constraints cs)) as [l| |]; try reflexivity.
  cbn [bind Monad_Run ret].
  rewrite fold_selector.
  - destruct (fold_left _ l _) as [m7 cs7]. reflexivity.
  - intros m c x.
    change (CS.G (with_linear_solver ls c)) with (CS.G c).
    change (CS.gamma (with_linear_solver ls c)) with (CS.gamma c).
    change (CS.cache (with_linear_solver ls c)) with (CS.cache c).
    destruct (calcGamma x m Q QDot (CS.G c) (CS.gamma c) (CS.cache c))
      as [[m' g'] c'].
    destruct (isBaumgarteStabilizationEnabled x); reflexivity.
Qed.

End SelectorFacts.

(** X18: the range-space entry points never read the selector; the
    [linear_solver] argument of [SolveConstrainedSystemRangeSpaceSparse] is
    not used and the multipliers always come from the Cholesky solve.  With
    another selector in the registry, valid or not, in every build,
    [ForwardDynamicsConstraintsRangeSpaceSparse] and
    [ComputeConstraintImpulsesRangeSpaceSparse] have the same outcome:
    they return when they did before, with the same model, the same result
    vector and the same registry but for the selector, and they are
    terminated when they were before, with the same report. *)
Theorem range_space_entry_points_never_read_the_selector :
  forall (R Dyn : Type) (SR : Scalar R) (SO : ScalarOrd R)
         (CO : Collaborators R Dyn) (bc : Build) (ls : LinearSolver)
         (model : Model R Dyn) (cs : CS.ConstraintSet R)
         (Q QDot Tau QDDot QDotMinus QDotPlus : VectorNd R)
         (f_ext : option (list (SpatialVector R))),
    ForwardDynamicsConstraintsRangeSpaceSparse bc model Q QDot Tau
      (with_linear_solver ls cs) QDDot f_ext
    = ('(m, c, qddot) <-
         ForwardDynamicsConstraintsRangeSpaceSparse bc model Q QDot Tau cs
           QDDot f_ext ;;
       ret (m, with_linear_solver ls c, qddot)) /\
    ComputeConstraintImpulsesRangeSpaceSparse model Q QDotMinus
      (with_linear_solver ls cs) QDotPlus
    = ('(m, c, qdotplus) <-
         ComputeConstraintImpulsesRangeSpaceSparse model Q QDotMinus cs
           QDotPlus ;;
       ret (m, with_linear_solver ls c, qdotplus)).
Proof.
  intros R Dyn SR SO CO bc ls model cs Q QDot Tau QDDot QDotMinus QDotPlus
    f_ext.
  split.
  - unfold ForwardDynamicsConstraintsRangeSpaceSparse.
    rewrite CalcConstrainedSystemVariables_selector.
    destruct (CalcConstrainedSystemVariables bc model Q QDot Tau cs f_ext)
      as [[m1 cs1]| |]; reflexivity.
  - unfold ComputeConstraintImpulsesRangeSpaceSparse.
    change (CS.H (with_linear_solver ls cs)) with (CS.H cs).
    destruct (CompositeRigidBodyAlgorithm
                (UpdateKinematicsCustom model (Some Q) None None) Q
                (CS.H cs)) as [m1 H1].
    change (CS.set_H H1 (with_linear_solver ls cs))
      with (with_linear_solver ls (CS.set_H H1 cs)).
    generalize (CS.set_H H1 cs). clear cs. intros cs.
    change (CS.G (with_linear_solver ls cs)) with (CS.G cs).
    rewrite CalcConstraintsJacobian_selector.
    destruct (CalcConstraintsJacobian m1 Q cs (CS.G cs) false)
      as [[[m2 cs2] G2]| |]; reflexivity.
Qed.

(** X18, run: the point mass with its ground contact, at rest, with a
    selector that is none of the three. *)
Lemma range_space_entry_points_never_read_the_selector_witness :
  ForwardDynamicsConstraintsRangeSpaceSparse (CO := PointMass) debug_build
    (point_mass [0; -1; 0]%float) [0; 0; 0]%float [0; 0; 0]%float
    [0; 0; 0]%float
    (with_linear_solver (LinearSolverOther 7) one_contact_bound)
    [0; 0; 0]%float None
  = ('(m, c, qddot) <-
       ForwardDynamicsConstraintsRangeSpaceSparse (CO := PointMass)
         debug_build (point_mass [0; -1; 0]%float) [0; 0; 0]%float
         [0; 0; 0]%float [0; 0; 0]%float one_contact_bound [0; 0; 0]%float
         None ;;
     ret (m, with_linear_solver (LinearSolverOther 7) c, qddot)).
Proof.
  exact (proj1 (@range_space_entry_points_never_read_the_selector float
                  (Vector3d float) _ _ PointMass debug_build
                  (LinearSolverOther 7) (point_mass [0; -1; 0]%float)
                  one_contact_bound [0; 0; 0]%float [0; 0; 0]%float
                  [0; 0; 0]%float [0; 0; 0]%float [0; 0; 0]%float
                  [0; 0; 0]%float None)).
Defined.
